(** * Reversi rules engine and move selector (docs/script.ts)

    A shallow embedding of the classes [ReversiBoard] and [ReversiAI] of
    docs/script.ts, and the properties of the engine stated over it.

    Numbers are integers ([Z]); a grid read can also produce [undefined],
    and indexing [undefined] throws, so every method runs in a small error
    monad. Methods that mutate [this] return the new object state. *)

From stdpp Require Import base numbers list.
From Stdlib Require Import ZArith Lia.

Open Scope Z_scope.

(** ** Values, errors and the result monad *)

(** What an array read [a[i]] can produce. *)
Inductive value : Type :=
  | Undefined
  | Num (z : Z).

(** Why a call does not return.
    - [TypeError]: a property of [undefined] was read or written.
    - [OutOfFuel]: the bound put on a loop or on the recursion of the model
      was reached. No call of [isValidMove], [applyMove] or, at a depth
      [d >= 0], [minimax] ends that way ([isValidMove_error],
      [applyMove_error], [minimax_error]).
    - [SparseStore]: an element store [row[x] = v] at an index that is not an
      element of [row]. JavaScript then grows the array or adds a property;
      rows are modelled as plain lists, which cannot hold that outcome, and
      no store of the program reaches it: a store follows a read of a number
      at the same place ([applyMove_error], [constructor_error]). *)
Inductive error : Type :=
  | TypeError
  | OutOfFuel
  | SparseStore.

Inductive result (A : Type) : Type :=
  | Ok (a : A)
  | Err (e : error).
Arguments Ok {A} a.
Arguments Err {A} e.

Definition bind {A B : Type} (m : result A) (k : A -> result B) : result B :=
  match m with
  | Ok a => k a
  | Err e => Err e
  end.

Notation "x <- m ;; k" := (bind m (fun x => k))
  (at level 100, m at next level, right associativity).

Definition fmap_result {A B : Type} (f : A -> B) (m : result A) : result B :=
  x <- m ;; Ok (f x).

Section FoldM.
Context {A B : Type} (f : A -> B -> result A).

(** [for (const b of l) { acc = f(acc, b) }], stopping at the first throw. *)
Fixpoint foldM (l : list B) (acc : A) : result A :=
  match l with
  | [] => Ok acc
  | b :: l' => acc' <- f acc b ;; foldM l' acc'
  end.
End FoldM.

(** ** ReversiBoard *)

Record ReversiBoard : Type := mkBoard {
  size : Z;
  board : list (list Z);
  currentPlayer : Z
}.

Definition directions : list (Z * Z) :=
  [ (1, 0); (-1, 0); (0, 1); (0, -1);
    (1, 1); (1, -1); (-1, 1); (-1, -1) ].

(** [a[i]] for an integer [i]: [None] stands for [undefined]. *)
Definition index {A : Type} (a : list A) (i : Z) : option A :=
  if i <? 0 then None else a !! Z.to_nat i.

(** [this.board[y][x]] *)
Definition getCell (g : list (list Z)) (x y : Z) : result value :=
  match index g y with
  | None => Err TypeError
  | Some row =>
      match index row x with
      | None => Ok Undefined
      | Some z => Ok (Num z)
      end
  end.

(** [this.board[y][x] = v] *)
Definition storeCell (g : list (list Z)) (x y v : Z) : result (list (list Z)) :=
  match index g y with
  | None => Err TypeError
  | Some row =>
      match index row x with
      | None => Err SparseStore
      | Some _ => Ok (<[Z.to_nat y := <[Z.to_nat x := v]> row]> g)
      end
  end.

(** [v === n] and [v !== n] for a number [n]. *)
Definition strictEq (v : value) (n : Z) : bool :=
  match v with
  | Num z => z =? n
  | Undefined => false
  end.

Definition setBoard (b : ReversiBoard) (g : list (list Z)) : ReversiBoard :=
  {| size := size b; board := g; currentPlayer := currentPlayer b |}.

(** [init()], lines 17-23. For an odd size [mid] is not an integer, so
    [this.board[mid - 1]] is [undefined] and the first store throws. *)
Definition init (b : ReversiBoard) : result ReversiBoard :=
  if Z.odd (size b) then Err TypeError
  else
    let mid := size b / 2 in
    g1 <- storeCell (board b) (mid - 1) (mid - 1) (-1) ;;
    g2 <- storeCell g1 mid mid (-1) ;;
    g3 <- storeCell g2 mid (mid - 1) 1 ;;
    g4 <- storeCell g3 (mid - 1) mid 1 ;;
    Ok (setBoard b g4).

(** [new ReversiBoard(size)], lines 11-15. [Array.from({ length: size }, f)]
    has no element for a length below 1. *)
Definition constructor (sz : Z) : result ReversiBoard :=
  init {| size := sz;
          board := replicate (Z.to_nat sz) (replicate (Z.to_nat sz) 0);
          currentPlayer := 1 |}.

(** [clone()], lines 25-31. *)
Definition clone (b : ReversiBoard) : result ReversiBoard :=
  copy <- constructor (size b) ;;
  Ok {| size := size copy;
        board := map (fun row => row) (board b);
        currentPlayer := currentPlayer b |}.

Definition inBounds (b : ReversiBoard) (x y : Z) : bool :=
  (0 <=? x) && (x <? size b) && (0 <=? y) && (y <? size b).

(** Bound on the number of tests of a [while] condition of [isValidMove] and
    [applyMove]: a walk leaves the grid after at most [size] steps. *)
Definition loopFuel (b : ReversiBoard) : nat := S (Z.to_nat (size b)).

(** The [while] loop of lines 45-48. *)
Fixpoint walk (fuel : nat) (b : ReversiBoard) (player dx dy nx ny : Z)
    (foundOpponent : bool) : result (Z * Z * bool) :=
  match fuel with
  | O => Err OutOfFuel
  | S fuel' =>
      if inBounds b nx ny then
        v <- getCell (board b) nx ny ;;
        if strictEq v (- player) then
          walk fuel' b player dx dy (nx + dx) (ny + dy) true
        else Ok (nx, ny, foundOpponent)
      else Ok (nx, ny, foundOpponent)
  end.

(** One turn of the [for] loop of lines 40-55: does this direction return
    [true]? *)
Definition validInDirection (b : ReversiBoard) (x y player : Z) (d : Z * Z)
    : result bool :=
  let '(dx, dy) := d in
  w <- walk (loopFuel b) b player dx dy (x + dx) (y + dy) false ;;
  let '(nx, ny, foundOpponent) := w in
  if foundOpponent && inBounds b nx ny then
    v <- getCell (board b) nx ny ;; Ok (strictEq v player)
  else Ok false.

Fixpoint validInDirections (b : ReversiBoard) (x y player : Z)
    (ds : list (Z * Z)) : result bool :=
  match ds with
  | [] => Ok false
  | d :: ds' =>
      hit <- validInDirection b x y player d ;;
      if hit then Ok true else validInDirections b x y player ds'
  end.

(** [isValidMove(x, y, player)], lines 37-57. *)
Definition isValidMove (b : ReversiBoard) (x y player : Z) : result bool :=
  v <- getCell (board b) x y ;;
  if negb (strictEq v 0) then Ok false
  else validInDirections b x y player directions.

(** [getValidMoves(player)], lines 59-69. *)
Definition getValidMoves (b : ReversiBoard) (player : Z)
    : result (list (Z * Z)) :=
  foldM (fun moves y =>
    foldM (fun moves x =>
      v <- isValidMove b x y player ;;
      Ok (if v then moves ++ [(x, y)] else moves))
      (seqZ 0 (size b)) moves)
    (seqZ 0 (size b)) [].

(** The [while] loop of lines 81-84. *)
Fixpoint collect (fuel : nat) (b : ReversiBoard) (player dx dy nx ny : Z)
    (flips : list (Z * Z)) : result (Z * Z * list (Z * Z)) :=
  match fuel with
  | O => Err OutOfFuel
  | S fuel' =>
      if inBounds b nx ny then
        v <- getCell (board b) nx ny ;;
        if strictEq v (- player) then
          collect fuel' b player dx dy (nx + dx) (ny + dy) (flips ++ [(nx, ny)])
        else Ok (nx, ny, flips)
      else Ok (nx, ny, flips)
  end.

(** The [for] loop of lines 87-89. *)
Definition flipAll (b : ReversiBoard) (player : Z) (flips : list (Z * Z))
    : result ReversiBoard :=
  foldM (fun b '(fx, fy) =>
    g <- storeCell (board b) fx fy player ;; Ok (setBoard b g)) flips b.

(** One turn of the [for] loop of lines 76-91. *)
Definition flipDirection (x y player : Z) (b : ReversiBoard) (d : Z * Z)
    : result ReversiBoard :=
  let '(dx, dy) := d in
  w <- collect (loopFuel b) b player dx dy (x + dx) (y + dy) [] ;;
  let '(nx, ny, flips) := w in
  if inBounds b nx ny then
    v <- getCell (board b) nx ny ;;
    if strictEq v player then flipAll b player flips else Ok b
  else Ok b.

(** [switchPlayer()], lines 97-99. *)
Definition switchPlayer (b : ReversiBoard) : ReversiBoard :=
  {| size := size b; board := board b; currentPlayer := - currentPlayer b |}.

(** [applyMove(x, y, player)], lines 71-95: the object after the call and the
    value returned. *)
Definition applyMove (b : ReversiBoard) (x y player : Z)
    : result (ReversiBoard * bool) :=
  valid <- isValidMove b x y player ;;
  if negb valid then Ok (b, false)
  else
    g <- storeCell (board b) x y player ;;
    b' <- foldM (flipDirection x y player) directions (setBoard b g) ;;
    Ok (switchPlayer b', true).

(** [isGameOver()], lines 101-104. *)
Definition isGameOver (b : ReversiBoard) : result bool :=
  black <- getValidMoves b 1 ;;
  if (length black =? 0)%nat then
    white <- getValidMoves b (-1) ;;
    Ok (length white =? 0)%nat
  else Ok false.

(** [countStones()], lines 106-115: the pair [(black, white)]. *)
Definition countStones (b : ReversiBoard) : Z * Z :=
  fold_left (fun acc row =>
    fold_left (fun '(black, white) cell =>
      let black := if cell =? 1 then black + 1 else black in
      let white := if cell =? -1 then white + 1 else white in
      (black, white)) row acc)
    (board b) (0, 0).

(** ** ReversiAI *)

(** A JavaScript number as the search uses it: the running best starts at
    [-Infinity] or [Infinity]. *)
Inductive number : Type :=
  | NegInfinity
  | Finite (z : Z)
  | Infinity.

(** [a > b] *)
Definition gt (a b : number) : bool :=
  match a, b with
  | NegInfinity, _ => false
  | _, Infinity => false
  | Finite x, Finite y => y <? x
  | Finite _, NegInfinity => true
  | Infinity, _ => true
  end.

(** [a < b] *)
Definition lt (a b : number) : bool := gt b a.

Inductive Strategy : Type :=
  | Random
  | Greedy
  | Minimax.

Record ReversiAI : Type := mkAI {
  strategy : Strategy;
  maxDepth : Z
}.

(** [player === 1 ? black - white : white - black] on [countStones()]. *)
Definition stoneDiff (b : ReversiBoard) (player : Z) : Z :=
  let '(black, white) := countStones b in
  if player =? 1 then black - white else white - black.

(** The corners in the order of lines 249-254. *)
Definition corners (b : ReversiBoard) : list (Z * Z) :=
  [ (0, 0); (0, size b - 1); (size b - 1, 0); (size b - 1, size b - 1) ].

(** The loop of lines 255-259. *)
Definition cornerScore (b : ReversiBoard) (player : Z) : result Z :=
  foldM (fun score '(x, y) =>
    v <- getCell (board b) x y ;;
    let score := if strictEq v player then score + 5 else score in
    v' <- getCell (board b) x y ;;
    let score := if strictEq v' (- player) then score - 5 else score in
    Ok score) (corners b) 0.

(** [evaluate(board, player)], lines 244-262. *)
Definition evaluate (b : ReversiBoard) (player : Z) : result Z :=
  let diff := stoneDiff b player in
  score <- cornerScore b player ;;
  Ok (diff * 1 + score).

(** [minimax(board, depth, currentPlayer, maximizingPlayer)], lines 199-241,
    with a bound [fuel] on the nesting of the recursion. *)
Fixpoint minimax_fuel (fuel : nat) (b : ReversiBoard) (depth : Z)
    (currentPlayer maximizingPlayer : Z) : result number :=
  match fuel with
  | O => Err OutOfFuel
  | S fuel' =>
      over <- (if depth =? 0 then Ok true else isGameOver b) ;;
      if (over : bool) then
        fmap_result Finite (evaluate b maximizingPlayer)
      else
        moves <- getValidMoves b currentPlayer ;;
        if (length moves =? 0)%nat then
          minimax_fuel fuel' b (depth - 1) (- currentPlayer) maximizingPlayer
        else if currentPlayer =? maximizingPlayer then
          foldM (fun maxEval '(x, y) =>
            tmp <- clone b ;;
            r <- applyMove tmp x y currentPlayer ;;
            evalScore <- minimax_fuel fuel' (fst r) (depth - 1)
                           (- currentPlayer) maximizingPlayer ;;
            Ok (if gt evalScore maxEval then evalScore else maxEval))
            moves NegInfinity
        else
          foldM (fun minEval '(x, y) =>
            tmp <- clone b ;;
            r <- applyMove tmp x y currentPlayer ;;
            evalScore <- minimax_fuel fuel' (fst r) (depth - 1)
                           (- currentPlayer) maximizingPlayer ;;
            Ok (if lt evalScore minEval then evalScore else minEval))
            moves Infinity
  end.

(** A call at a depth [d >= 0] nests at most [d] calls below it
    ([minimax_fuel_enough], [minimax_error]). For a negative depth the source
    descends until the game is over; this bound does not cover that case. *)
Definition minimax (b : ReversiBoard) (depth currentPlayer maximizingPlayer : Z)
    : result number :=
  minimax_fuel (S (Z.to_nat depth)) b depth currentPlayer maximizingPlayer.

(** [chooseGreedy(board, player, moves)], lines 152-171. [moves[0]] of an
    empty array is [undefined], here [None]. *)
Definition chooseGreedy (b : ReversiBoard) (player : Z) (moves : list (Z * Z))
    : result (option (Z * Z)) :=
  best <- foldM (fun '(bestMove, bestScore) '(x, y) =>
      tmp <- clone b ;;
      r <- applyMove tmp x y player ;;
      let score := Finite (stoneDiff (fst r) player) in
      Ok (if gt score bestScore then (Some (x, y), score)
          else (bestMove, bestScore)))
    moves (head moves, NegInfinity) ;;
  Ok (fst best).

(** [chooseMinimax(board, player, moves)], lines 174-192. *)
Definition chooseMinimax (ai : ReversiAI) (b : ReversiBoard) (player : Z)
    (moves : list (Z * Z)) : result (option (Z * Z)) :=
  best <- foldM (fun '(bestMove, bestScore) '(x, y) =>
      tmp <- clone b ;;
      r <- applyMove tmp x y player ;;
      score <- minimax (fst r) (maxDepth ai - 1) (- player) player ;;
      Ok (if gt score bestScore then (Some (x, y), score)
          else (bestMove, bestScore)))
    moves (head moves, NegInfinity) ;;
  Ok (fst best).

Section GetBestMove.
(** [Math.floor(Math.random() * n)] of the call being modelled. *)
Variable randomIndex : nat -> nat.

(** [chooseRandom(moves)], lines 146-149. *)
Definition chooseRandom (moves : list (Z * Z)) : option (Z * Z) :=
  moves !! randomIndex (length moves).

(** [getBestMove(board, player)], lines 129-143; [None] is [null]. *)
Definition getBestMove (ai : ReversiAI) (b : ReversiBoard) (player : Z)
    : result (option (Z * Z)) :=
  moves <- getValidMoves b player ;;
  if (length moves =? 0)%nat then Ok None
  else
    match strategy ai with
    | Random => Ok (chooseRandom moves)
    | Greedy => chooseGreedy b player moves
    | Minimax => chooseMinimax ai b player moves
    end.
End GetBestMove.

(** ** The page (lines 267-370)

    The handlers work on the global [board] and write to the document. A
    [page] holds the board and what the document shows: the cells that
    [renderBoard] has appended, each with its [data-x], [data-y] and classes,
    and the status line. The status text is kept as the numbers it prints and
    the sentence it chooses. A handler that throws leaves the page to its
    caller in the program; here it returns [Err], and the properties are
    about calls that return. *)

Definition humanPlayer : Z := 1.
Definition aiPlayer : Z := -1.

(** [new ReversiAI("minimax", 3)] *)
Definition ai : ReversiAI := mkAI Minimax 3.

(** The class names ["cell"], ["black"], ["white"] and ["valid"]. *)
Inductive cssClass : Type :=
  | ClassCell
  | ClassBlack
  | ClassWhite
  | ClassValid.

Record cellView : Type := mkCellView {
  data_x : Z;
  data_y : Z;
  classList : list cssClass
}.

(** The sentence after the two counts in the status line: a win of black,
    a win of white, a draw, the turn of the human, the turn of the AI. *)
Inductive statusText : Type :=
  | BlackWins
  | WhiteWins
  | Draw
  | YourTurn
  | AiThinking.

Record status : Type := mkStatus {
  st_black : Z;
  st_white : Z;
  st_text : statusText
}.

Record page : Type := mkPage {
  pg_board : ReversiBoard;
  pg_cells : list cellView;
  pg_status : status
}.

(** [updateStatus()], lines 304-319. *)
Definition updateStatus (b : ReversiBoard) : result status :=
  let '(black, white) := countStones b in
  over <- isGameOver b ;;
  Ok {| st_black := black;
        st_white := white;
        st_text :=
          if (over : bool) then
            if white <? black then BlackWins
            else if black <? white then WhiteWins
            else Draw
          else if currentPlayer b =? humanPlayer then YourTurn
          else AiThinking |}.

(** The body of the loops of [renderBoard], lines 283-297. *)
Definition renderCell (b : ReversiBoard) (x y : Z) : result cellView :=
  let classes := [ClassCell] in
  v <- getCell (board b) x y ;;
  let classes := if strictEq v 1 then classes ++ [ClassBlack] else classes in
  let classes := if strictEq v (-1) then classes ++ [ClassWhite] else classes in
  valid <- isValidMove b x y (currentPlayer b) ;;
  let classes := if (valid : bool) then classes ++ [ClassValid] else classes in
  Ok {| data_x := x; data_y := y; classList := classes |}.

(** [renderBoard()], lines 278-302: the children of the board element and
    the status line after the call. *)
Definition renderBoard (b : ReversiBoard) : result page :=
  cells <- foldM (fun cells y =>
      foldM (fun cells x =>
        cell <- renderCell b x y ;; Ok (cells ++ [cell]))
        (seqZ 0 (size b)) cells)
    (seqZ 0 (size b)) [] ;;
  st <- updateStatus b ;;
  Ok {| pg_board := b; pg_cells := cells; pg_status := st |}.

(** [humanClick(x, y)], lines 321-331: the page after the call, and whether
    [aiTurn] was handed to [setTimeout]. *)
Definition humanClick (pg : page) (x y : Z) : result (page * bool) :=
  let b := pg_board pg in
  if negb (currentPlayer b =? humanPlayer) then Ok (pg, false)
  else
    valid <- isValidMove b x y humanPlayer ;;
    if negb valid then Ok (pg, false)
    else
      r <- applyMove b x y humanPlayer ;;
      pg' <- renderBoard r.1 ;;
      over <- isGameOver r.1 ;;
      if (over : bool) then Ok (pg', false) else Ok (pg', true).

Section Page.
(** [Math.floor(Math.random() * n)]; the minimax strategy of [ai] does not
    call it. *)
Variable randomIndex : nat -> nat.

(** [aiTurn()], lines 333-348. *)
Definition aiTurn (pg : page) : result page :=
  let b := pg_board pg in
  if negb (currentPlayer b =? aiPlayer) then Ok pg
  else
    over <- isGameOver b ;;
    if (over : bool) then Ok pg
    else
      move <- getBestMove randomIndex ai b aiPlayer ;;
      b' <- match move with
            | Some (x, y) => r <- applyMove b x y aiPlayer ;; Ok r.1
            | None => Ok (switchPlayer b)
            end ;;
      renderBoard b'.
End Page.

(** The handler of the reset button, lines 362-367. *)
Definition resetClick : result page :=
  b <- constructor 8 ;;
  renderBoard {| size := size b; board := board b; currentPlayer := humanPlayer |}.

(** The script up to its first rendering: lines 271 and 370. *)
Definition loadPage : result page :=
  b <- constructor 8 ;;
  renderBoard b.

(** [classList.contains(name)] *)
Definition cssClass_eqb (c c' : cssClass) : bool :=
  match c, c' with
  | ClassCell, ClassCell
  | ClassBlack, ClassBlack
  | ClassWhite, ClassWhite
  | ClassValid, ClassValid => true
  | _, _ => false
  end.

Definition contains (classes : list cssClass) (c : cssClass) : bool :=
  existsb (cssClass_eqb c) classes.

(** The click listener of the board element, lines 351-359. The target of
    the click is a child of the board element, given by its position among
    the children, or, with no child at that position, the board element
    itself, which has no class. *)
Definition boardClick (pg : page) (target : nat) : result (page * bool) :=
  match pg_cells pg !! target with
  | Some cell =>
      if negb (contains (classList cell) ClassCell) then Ok (pg, false)
      else humanClick pg (data_x cell) (data_y cell)
  | None => Ok (pg, false)
  end.

(** ** The page over time

    After the script has run, its code runs again in three ways: by a click
    inside the board element, by a click on the reset button, and when a
    timer set by [humanClick] runs out. A [session] is the page with the
    number of timers that are set. *)

Inductive event : Type :=
  | BoardClick (target : nat)
  | ResetButton
  | TimerFires.

Record session : Type := mkSession {
  ses_page : page;
  ses_timers : nat
}.

Section Session.
Variable randomIndex : nat -> nat.

Definition handle (s : session) (e : event) : result session :=
  match e with
  | BoardClick target =>
      r <- boardClick (ses_page s) target ;;
      Ok {| ses_page := r.1;
            ses_timers := if r.2 then S (ses_timers s) else ses_timers s |}
  | ResetButton =>
      pg <- resetClick ;;
      Ok {| ses_page := pg; ses_timers := ses_timers s |}
  | TimerFires =>
      match ses_timers s with
      | O => Ok s
      | S n =>
          pg <- aiTurn randomIndex (ses_page s) ;;
          Ok {| ses_page := pg; ses_timers := n |}
      end
  end.

(** The script, then the events in their order. *)
Definition runSession (events : list event) : result session :=
  pg <- loadPage ;;
  foldM handle events {| ses_page := pg; ses_timers := 0 |}.
End Session.

(** * Vocabulary of the properties *)

(** ** Boards *)

(** The grid has [size] rows of [size] cells (the data model of the
    constructor, kept by every store). *)
Definition wf (b : ReversiBoard) : Prop :=
  length (board b) = Z.to_nat (size b) /\
  Forall (fun row => length row = Z.to_nat (size b)) (board b).

(** The boards that the program builds: made by the constructor, then
    changed by [applyMove] and [switchPlayer] only ([clone] returns such a
    board again, [clone_Ok]). *)
Inductive reachable : ReversiBoard -> Prop :=
  | reach_new (sz : Z) (b : ReversiBoard) :
      constructor sz = Ok b -> reachable b
  | reach_move (b b' : ReversiBoard) (x y player : Z) (r : bool) :
      reachable b -> applyMove b x y player = Ok (b', r) -> reachable b'
  | reach_switch (b : ReversiBoard) :
      reachable b -> reachable (switchPlayer b).

(** The start position of the constructor for size 8. *)
Definition start8 : ReversiBoard :=
  {| size := 8;
     board := [ [0; 0; 0; 0; 0; 0; 0; 0];
                [0; 0; 0; 0; 0; 0; 0; 0];
                [0; 0; 0; 0; 0; 0; 0; 0];
                [0; 0; 0; -1; 1; 0; 0; 0];
                [0; 0; 0; 1; -1; 0; 0; 0];
                [0; 0; 0; 0; 0; 0; 0; 0];
                [0; 0; 0; 0; 0; 0; 0; 0];
                [0; 0; 0; 0; 0; 0; 0; 0] ];
     currentPlayer := 1 |}.

(** The start position after black plays [(3, 2)]. *)
Definition start8_black_3_2 : ReversiBoard :=
  {| size := 8;
     board := [ [0; 0; 0; 0; 0; 0; 0; 0];
                [0; 0; 0; 0; 0; 0; 0; 0];
                [0; 0; 0; 1; 0; 0; 0; 0];
                [0; 0; 0; 1; 1; 0; 0; 0];
                [0; 0; 0; 1; -1; 0; 0; 0];
                [0; 0; 0; 0; 0; 0; 0; 0];
                [0; 0; 0; 0; 0; 0; 0; 0];
                [0; 0; 0; 0; 0; 0; 0; 0] ];
     currentPlayer := -1 |}.

(** The start position, black to move, after white plays [(4, 2)]. *)
Definition start8_white_4_2 : ReversiBoard :=
  {| size := 8;
     board := [ [0; 0; 0; 0; 0; 0; 0; 0];
                [0; 0; 0; 0; 0; 0; 0; 0];
                [0; 0; 0; 0; -1; 0; 0; 0];
                [0; 0; 0; -1; -1; 0; 0; 0];
                [0; 0; 0; 1; -1; 0; 0; 0];
                [0; 0; 0; 0; 0; 0; 0; 0];
                [0; 0; 0; 0; 0; 0; 0; 0];
                [0; 0; 0; 0; 0; 0; 0; 0] ];
     currentPlayer := -1 |}.

(** A board on which white has no move and black has one. *)
Definition whitePasses : ReversiBoard :=
  {| size := 4;
     board := [ [1; -1; 0; 0];
                [0; 0; 0; 0];
                [0; 0; 0; 0];
                [0; 0; 0; 0] ];
     currentPlayer := -1 |}.

(** ** Legal moves *)

(** The rule of the game for one direction [d]: going from [(x, y)] there
    are [k >= 1] opponent stones in a row, and the next cell is on the grid
    and holds a stone of [player]. *)
Definition bracketed (b : ReversiBoard) (x y player : Z) (d : Z * Z) : Prop :=
  exists k : Z,
    1 <= k /\
    (forall i, 1 <= i <= k ->
       inBounds b (x + i * d.1) (y + i * d.2) = true /\
       getCell (board b) (x + i * d.1) (y + i * d.2) = Ok (Num (- player))) /\
    inBounds b (x + (k + 1) * d.1) (y + (k + 1) * d.2) = true /\
    getCell (board b) (x + (k + 1) * d.1) (y + (k + 1) * d.2) = Ok (Num player).

(** Steps that a walk from [(nx, ny)] in one of the eight directions can
    still take inside the grid. *)
Definition room (b : ReversiBoard) (dx dy nx ny : Z) : Z :=
  if dx =? 1 then size b - nx
  else if dx =? -1 then nx + 1
  else if dy =? 1 then size b - ny
  else ny + 1.

(** ** Stone counts *)

(** Cells of a row, and of a grid, that hold [v]. *)
Fixpoint count (v : Z) (row : list Z) : Z :=
  match row with
  | [] => 0
  | c :: row' => (if c =? v then 1 else 0) + count v row'
  end.

Fixpoint countGrid (v : Z) (g : list (list Z)) : Z :=
  match g with
  | [] => 0
  | row :: g' => count v row + countGrid v g'
  end.

(** Stones of [player] on the board: [black] for [1], [white] otherwise. *)
Definition stonesOf (b : ReversiBoard) (player : Z) : Z :=
  if player =? 1 then (countStones b).1 else (countStones b).2.

Definition totalStones (b : ReversiBoard) : Z :=
  (countStones b).1 + (countStones b).2.

(** A cell that holds a stone of either colour. *)
Definition stone (player : Z) (g : list (list Z)) (c : Z * Z) : Prop :=
  getCell g c.1 c.2 = Ok (Num player) \/
  getCell g c.1 c.2 = Ok (Num (- player)).

(** ** Search *)

(** The board after [board.clone()] and [tmp.applyMove(x, y, player)]. *)
Definition successor (b : ReversiBoard) (x y player : Z) : result ReversiBoard :=
  tmp <- clone b ;;
  r <- applyMove tmp x y player ;;
  Ok r.1.

(** The scan of the specification: the move with the highest score, the
    first one among equals. *)
Fixpoint firstBest (score : Z * Z -> Z) (moves : list (Z * Z))
    : option (Z * Z) :=
  match moves with
  | [] => None
  | m :: rest =>
      match firstBest score rest with
      | Some m' => if score m <? score m' then Some m' else Some m
      | None => Some m
      end
  end.

(** A running maximum or minimum over finite scores is finite once it has
    seen a score. *)
Definition finite (n : number) : Prop := exists z, n = Finite z.

(** ** Enumerations *)

(** The cells of the grid in the order of the scan of [getValidMoves]: row
    by row, each row from left to right. *)
Definition cellsRowMajor (b : ReversiBoard) : list (Z * Z) :=
  flat_map (fun y => List.map (fun x => (x, y)) (seqZ 0 (size b)))
           (seqZ 0 (size b)).

(** [isValidMove] returns [true] on the cell [c]. *)
Definition legal (b : ReversiBoard) (player : Z) (c : Z * Z) : bool :=
  match isValidMove b c.1 c.2 player with
  | Ok true => true
  | _ => false
  end.

(** ** What a move flips *)

(** In the direction [d] from [(x, y)] there are exactly [k >= 1] opponent
    stones in a row and then a stone of [player] on the grid (the [k] of
    [bracketed]). *)
Definition run (b : ReversiBoard) (x y player : Z) (d : Z * Z) (k : Z) : Prop :=
  1 <= k /\
  (forall i, 1 <= i <= k ->
     inBounds b (x + i * d.1) (y + i * d.2) = true /\
     getCell (board b) (x + i * d.1) (y + i * d.2) = Ok (Num (- player))) /\
  inBounds b (x + (k + 1) * d.1) (y + (k + 1) * d.2) = true /\
  getCell (board b) (x + (k + 1) * d.1) (y + (k + 1) * d.2) = Ok (Num player).

(** The cell [c] is one of the opponent stones of such a run in the
    direction [d]. *)
Definition onRun (b : ReversiBoard) (x y player : Z) (d : Z * Z) (c : Z * Z)
    : Prop :=
  exists k i, run b x y player d k /\ 1 <= i <= k /\
              c = (x + i * d.1, y + i * d.2).

(** The cells that the rule of the game turns over when [player] plays
    [(x, y)]. *)
Definition flipped (b : ReversiBoard) (x y player : Z) (c : Z * Z) : Prop :=
  exists d, d ∈ directions /\ onRun b x y player d c.

(** The walk of [applyMove] from [(x, y)] in the direction [(dx, dy)] has
    passed [k] opponent stones and stops on the next cell. *)
Definition walked (x y player : Z) (c : ReversiBoard) (dx dy : Z) (k : nat)
    : Prop :=
  (forall i : nat, (i < k)%nat ->
     inBounds c (x + dx + Z.of_nat i * dx) (y + dy + Z.of_nat i * dy) = true /\
     getCell (board c) (x + dx + Z.of_nat i * dx) (y + dy + Z.of_nat i * dy)
       = Ok (Num (- player))) /\
  (inBounds c (x + dx + Z.of_nat k * dx) (y + dy + Z.of_nat k * dy) = true ->
   exists v,
     getCell (board c) (x + dx + Z.of_nat k * dx) (y + dy + Z.of_nat k * dy) = Ok v /\
     strictEq v (- player) = false).

(** The board [c] is [b1] with the runs of the directions [done] turned
    over: the state of [applyMove] between two turns of its loop. *)
Definition turnedOver (b1 : ReversiBoard) (x y player : Z)
    (done : list (Z * Z)) (c : ReversiBoard) : Prop :=
  size c = size b1 /\
  exists cells : list (Z * Z),
    (forall cell, cell ∈ cells <->
                  exists d, d ∈ done /\ onRun b1 x y player d cell) /\
    forall cx cy,
      getCell (board c) cx cy =
        if decide ((cx, cy) ∈ cells) then Ok (Num player)
        else getCell (board b1) cx cy.

(** ** The document *)

(** The coordinates that a cell of the document carries. *)
Definition coordinates (cell : cellView) : Z * Z := (data_x cell, data_y cell).

(** The classes of the cell of [(x, y)] that holds [z], with or without the
    mark of a legal move. *)
Definition classesOf (z : Z) (valid : bool) : list cssClass :=
  [ClassCell] ++ (if z =? 1 then [ClassBlack] else [])
              ++ (if z =? -1 then [ClassWhite] else [])
              ++ (if valid then [ClassValid] else []).

(** The cell that [renderBoard] appends for [c]. *)
Definition cellOf (b : ReversiBoard) (c : Z * Z) : cellView :=
  match renderCell b c.1 c.2 with
  | Ok cell => cell
  | Err _ => {| data_x := c.1; data_y := c.2; classList := [] |}
  end.

(** The cells that the document marks as legal moves, as coordinates. *)
Definition highlighted (pg : page) : list (Z * Z) :=
  List.map coordinates
    (List.filter (fun cell => contains (classList cell) ClassValid) (pg_cells pg)).

(** The page shows its board: what [renderBoard] writes for it. *)
Definition shows (pg : page) : Prop := renderBoard (pg_board pg) = Ok pg.

(** A position in which black, to move, has no legal move and white has
    one. *)
Definition blackStuck : ReversiBoard :=
  {| size := 4;
     board := [ [-1; 1; 0; 0];
                [0; 0; 0; 0];
                [0; 0; 0; 0];
                [0; 0; 0; 0] ];
     currentPlayer := 1 |}.

(** What the document shows for [b] after [renderBoard]. *)
Definition pageOf (b : ReversiBoard) : page :=
  match renderBoard b with
  | Ok pg => pg
  | Err _ =>
      {| pg_board := b; pg_cells := [];
         pg_status := {| st_black := 0; st_white := 0; st_text := Draw |} |}
  end.

(** A session in play: the board is an 8 by 8 grid, it is the turn of the
    human or of the AI, the page shows the board, and while it is the turn
    of the AI in a game that is not over a timer is set. *)
Definition inPlay (s : session) : Prop :=
  let b := pg_board (ses_page s) in
  size b = 8 /\ wf b /\
  (currentPlayer b = humanPlayer \/ currentPlayer b = aiPlayer) /\
  shows (ses_page s) /\
  (currentPlayer b = aiPlayer -> isGameOver b = Ok false ->
   (0 < ses_timers s)%nat).

(** A finite score between [- bound] and [bound]. *)
Definition within (bound : Z) (n : number) : Prop :=
  exists z, n = Finite z /\ - bound <= z <= bound.

(** * Boards as objects: references and duplication

    The definitions above pass a board by value. In the program a board is
    an object whose [board] field refers to an array of references to row
    arrays, and [applyMove] stores into those rows in place. This part keeps
    the row arrays and the objects in a heap. The outer array of a board is
    only ever read by index (the stores of lines 19-22, 74 and 88 go to a
    row), and [clone] builds a fresh one, so it is kept inside the object as
    the list of its row references. Code that only reads works on [view], the
    board value that the object denotes in the current heap. *)

Record object : Type := mkObject {
  o_size : Z;
  o_board : list nat;
  o_currentPlayer : Z
}.

Record heap : Type := mkHeap {
  arrays : list (list Z);
  objects : list object
}.

Definition getObject (h : heap) (this : nat) : result object :=
  match objects h !! this with
  | Some o => Ok o
  | None => Err TypeError
  end.

(** The rows that a list of references denotes. Every reference of a board
    denotes an array ([wfObject]); the default is never read there. *)
Definition rowsOf (h : heap) (refs : list nat) : list (list Z) :=
  (fun a => default [] (arrays h !! a)) <$> refs.

Definition view (h : heap) (o : object) : ReversiBoard :=
  {| size := o_size o;
     board := rowsOf h (o_board o);
     currentPlayer := o_currentPlayer o |}.

Definition deref (h : heap) (this : nat) : result ReversiBoard :=
  o <- getObject h this ;; Ok (view h o).

(** [this.board[y][x] = v], in place in the row that [this.board[y]] refers
    to. *)
Definition storeCellH (h : heap) (this : nat) (x y v : Z) : result heap :=
  o <- getObject h this ;;
  match index (o_board o) y with
  | None => Err TypeError
  | Some a =>
      match arrays h !! a with
      | None => Err TypeError
      | Some row =>
          match index row x with
          | None => Err SparseStore
          | Some _ =>
              Ok {| arrays := <[a := <[Z.to_nat x := v]> row]> (arrays h);
                    objects := objects h |}
          end
      end
  end.

(** The [for] loop of lines 87-89. *)
Definition flipAllH (this : nat) (player : Z) (flips : list (Z * Z)) (h : heap)
    : result heap :=
  foldM (fun h '(fx, fy) => storeCellH h this fx fy player) flips h.

(** One turn of the [for] loop of lines 76-91. *)
Definition flipDirectionH (this : nat) (x y player : Z) (h : heap) (d : Z * Z)
    : result heap :=
  b <- deref h this ;;
  let '(dx, dy) := d in
  w <- collect (loopFuel b) b player dx dy (x + dx) (y + dy) [] ;;
  let '(nx, ny, flips) := w in
  if inBounds b nx ny then
    v <- getCell (board b) nx ny ;;
    if strictEq v player then flipAllH this player flips h else Ok h
  else Ok h.

(** [switchPlayer()] on the object [this]. *)
Definition switchPlayerH (h : heap) (this : nat) : result heap :=
  o <- getObject h this ;;
  Ok {| arrays := arrays h;
        objects := <[this := {| o_size := o_size o;
                                o_board := o_board o;
                                o_currentPlayer := - o_currentPlayer o |}]>
                     (objects h) |}.

(** [this.applyMove(x, y, player)]: the heap after the call and the value
    returned. *)
Definition applyMoveH (h : heap) (this : nat) (x y player : Z)
    : result (heap * bool) :=
  b <- deref h this ;;
  valid <- isValidMove b x y player ;;
  if negb valid then Ok (h, false)
  else
    h1 <- storeCellH h this x y player ;;
    h2 <- foldM (flipDirectionH this x y player) directions h1 ;;
    h3 <- switchPlayerH h2 this ;;
    Ok (h3, true).

(** [init()] on the object [this]. *)
Definition initH (h : heap) (this : nat) : result heap :=
  o <- getObject h this ;;
  if Z.odd (o_size o) then Err TypeError
  else
    let mid := o_size o / 2 in
    h1 <- storeCellH h this (mid - 1) (mid - 1) (-1) ;;
    h2 <- storeCellH h1 this mid mid (-1) ;;
    h3 <- storeCellH h2 this mid (mid - 1) 1 ;;
    storeCellH h3 this (mid - 1) mid 1.

(** [new ReversiBoard(size)]: fresh rows of zeros, a fresh object, then
    [init()]. Returns the heap and the reference of the new object. *)
Definition constructorH (h : heap) (sz : Z) : result (heap * nat) :=
  let n := Z.to_nat sz in
  let this := length (objects h) in
  let h0 := {| arrays := arrays h ++ replicate n (replicate n 0);
               objects := objects h ++
                 [ {| o_size := sz;
                      o_board := seq (length (arrays h)) n;
                      o_currentPlayer := 1 |} ] |} in
  h' <- initH h0 this ;;
  Ok (h', this).

(** [this.clone()], lines 25-31: [this.board.map(row => [...row])] makes a
    new array for every row, and the two field stores go to the new
    object. *)
Definition cloneH (h : heap) (this : nat) : result (heap * nat) :=
  o <- getObject h this ;;
  r <- constructorH h (o_size o) ;;
  let '(h1, copy) := r in
  c <- getObject h1 copy ;;
  let rows := (fun row => row) <$> rowsOf h1 (o_board o) in
  Ok ({| arrays := arrays h1 ++ rows;
         objects := <[copy := {| o_size := o_size c;
                                 o_board := seq (length (arrays h1)) (length rows);
                                 o_currentPlayer := o_currentPlayer o |}]>
                      (objects h1) |}, copy).

(** A sequence of calls [applyMove(x, y, player)] on one board, with the
    values they return. *)
Fixpoint play (b : ReversiBoard) (moves : list (Z * Z * Z))
    : result (ReversiBoard * list bool) :=
  match moves with
  | [] => Ok (b, [])
  | (x, y, player) :: moves' =>
      r <- applyMove b x y player ;;
      r' <- play r.1 moves' ;;
      Ok (r'.1, r.2 :: r'.2)
  end.

Fixpoint playH (h : heap) (this : nat) (moves : list (Z * Z * Z))
    : result (heap * list bool) :=
  match moves with
  | [] => Ok (h, [])
  | (x, y, player) :: moves' =>
      r <- applyMoveH h this x y player ;;
      r' <- playH r.1 this moves' ;;
      Ok (r'.1, r.2 :: r'.2)
  end.

Definition emptyHeap : heap := {| arrays := []; objects := [] |}.

(** ** Heap invariants *)

(** The rows of an object are distinct arrays of the heap. *)
Definition wfObject (h : heap) (o : object) : Prop :=
  NoDup (o_board o) /\ Forall (fun a => (a < length (arrays h))%nat) (o_board o).

(** [this] refers to the object [o], whose rows are in the heap. *)
Definition holds (h : heap) (this : nat) (o : object) : Prop :=
  objects h !! this = Some o /\ wfObject h o.

(** From [h] to [h'] only the arrays at the references [refs] changed, and
    no array was added. *)
Definition touches (refs : list nat) (h h' : heap) : Prop :=
  length (arrays h') = length (arrays h) /\
  forall a, a ∉ refs -> arrays h' !! a = arrays h !! a.

(** [impl], run on the heap [h] in which [this] is the object [o], does what
    [pure] does on the board value: it throws the same error, or it returns
    a heap in which [this] denotes the board that [pure] returns, having
    changed only rows of [this]. *)
Definition sim (h : heap) (this : nat) (o : object)
    (pure : result ReversiBoard) (impl : result heap) : Prop :=
  match pure with
  | Ok b' =>
      exists h', impl = Ok h' /\ holds h' this o /\ view h' o = b' /\
                 touches (o_board o) h h' /\ objects h' = objects h
  | Err e => impl = Err e
  end.

(** What a call on the heap leaves of the board [this]: it denotes [b'], it
    has the rows it had in [o], and nothing else in the heap changed. *)
Definition after (h : heap) (this : nat) (o : object) (b' : ReversiBoard)
    (h' : heap) : Prop :=
  exists o', holds h' this o' /\ view h' o' = b' /\ o_board o' = o_board o /\
             touches (o_board o) h h' /\
             forall that, that <> this -> objects h' !! that = objects h !! that.

(** The start position as an object, and the heap after [clone()]. *)
Definition startObject : object :=
  {| o_size := 8; o_board := [0; 1; 2; 3; 4; 5; 6; 7]%nat; o_currentPlayer := 1 |}.

Definition startHeap : heap :=
  {| arrays := board start8; objects := [startObject] |}.

Definition clonedHeap : heap :=
  Eval vm_compute in
    match cloneH startHeap 0 with
    | Ok (h, _) => h
    | Err _ => emptyHeap
    end.

(** * Properties *)

(** ** Checks on the start position *)

Example constructor_8 : constructor 8 = Ok start8.
Proof. reflexivity. Qed.

Example start8_moves :
  getValidMoves start8 1 = Ok [(3, 2); (2, 3); (5, 4); (4, 5)].
Proof. vm_compute. reflexivity. Qed.

Example start8_greedy :
  getBestMove (fun _ => 0%nat) (mkAI Greedy 3) start8 1 = Ok (Some (3, 2)).
Proof. vm_compute. reflexivity. Qed.

Example start8_minimax :
  getBestMove (fun _ => 0%nat) (mkAI Minimax 2) start8 1 = Ok (Some (3, 2)).
Proof. vm_compute. reflexivity. Qed.

(** ** The result monad *)

Lemma bind_Ok {A B : Type} (m : result A) (k : A -> result B) (r : B) :
  bind m k = Ok r -> exists a, m = Ok a /\ k a = Ok r.
Proof. destruct m as [a|e]; simpl; [eauto | discriminate]. Qed.

(** Splits a hypothesis [x <- m ;; k = Ok r] into its two steps. *)
Ltac bind_inv H :=
  let a := fresh "a" in
  let Ha := fresh "Ha" in
  apply bind_Ok in H; destruct H as (a & Ha & H).

(** An invariant of the accumulator of a loop that returns. *)
Lemma foldM_invariant {A B : Type} (P : A -> Prop) (f : A -> B -> result A)
    (l : list B) :
  (forall a b a', b ∈ l -> P a -> f a b = Ok a' -> P a') ->
  forall a a', P a -> foldM f l a = Ok a' -> P a'.
Proof.
  induction l as [|b l IH]; intros Hstep a a' Ha H; simpl in H.
  - congruence.
  - bind_inv H. eapply IH; [ | | exact H].
    + intros ? ? ? Hin. apply Hstep. now right.
    + eapply Hstep; [left | exact Ha | exact Ha0].
Qed.

(** A loop whose every turn returns, returns. *)
Lemma foldM_returns {A B : Type} (P : A -> Prop) (f : A -> B -> result A)
    (l : list B) :
  (forall a b, b ∈ l -> P a -> exists a', f a b = Ok a' /\ P a') ->
  forall a, P a -> exists a', foldM f l a = Ok a' /\ P a'.
Proof.
  induction l as [|b l IH]; intros Hstep a Ha; simpl.
  - eauto.
  - destruct (Hstep a b) as (a1 & -> & Ha1); [left | exact Ha |]. simpl.
    apply IH; [|exact Ha1]. intros ? ? Hin. apply Hstep. now right.
Qed.

(** ** Reads and stores of the grid *)

Lemma index_Some {A : Type} (a : list A) (i : Z) (v : A) :
  index a i = Some v <-> 0 <= i /\ a !! Z.to_nat i = Some v.
Proof.
  unfold index. destruct (Z.ltb_spec i 0); split.
  - discriminate.
  - intros [? _]. lia.
  - auto.
  - tauto.
Qed.

Lemma index_lt {A : Type} (a : list A) (i : Z) :
  0 <= i < Z.of_nat (length a) -> exists v, index a i = Some v.
Proof.
  intros Hi. destruct (lookup_lt_is_Some_2 a (Z.to_nat i)) as [v Hv]; [lia|].
  exists v. apply index_Some. split; [lia | exact Hv].
Qed.

Lemma getCell_Num (g : list (list Z)) (x y z : Z) :
  getCell g x y = Ok (Num z) <->
  exists row, index g y = Some row /\ index row x = Some z.
Proof.
  unfold getCell. split.
  - destruct (index g y) as [row|]; [|discriminate].
    destruct (index row x) as [c|] eqn:E; [|discriminate].
    intros [= ->]. eauto.
  - intros (row & -> & ->). reflexivity.
Qed.

Lemma storeCell_Ok (g : list (list Z)) (x y v : Z) :
  (exists z, getCell g x y = Ok (Num z)) -> exists g', storeCell g x y v = Ok g'.
Proof.
  intros (z & H). apply getCell_Num in H as (row & Hrow & Hz).
  unfold storeCell. rewrite Hrow, Hz. eauto.
Qed.

Lemma storeCell_inv (g g' : list (list Z)) (x y v : Z) :
  storeCell g x y v = Ok g' ->
  exists row z, 0 <= x /\ 0 <= y /\ g !! Z.to_nat y = Some row /\
    row !! Z.to_nat x = Some z /\
    g' = <[Z.to_nat y := <[Z.to_nat x := v]> row]> g.
Proof.
  unfold storeCell. destruct (index g y) as [row|] eqn:Hy; [|discriminate].
  destruct (index row x) as [z|] eqn:Hx; [|discriminate].
  intros [= <-]. apply index_Some in Hy as [? ?]. apply index_Some in Hx as [? ?].
  exists row, z. auto.
Qed.

(** A store is seen by a later read of the same cell and by no other read. *)
Lemma getCell_storeCell (g g' : list (list Z)) (x y v x' y' : Z) :
  storeCell g x y v = Ok g' ->
  getCell g' x' y' =
    if decide (x' = x /\ y' = y) then Ok (Num v) else getCell g x' y'.
Proof.
  intros H. apply storeCell_inv in H as (row & z & Hx & Hy & Hrow & Hz & ->).
  unfold getCell, index.
  destruct (Z.ltb_spec y' 0) as [Hy'|Hy'].
  { case_decide; [lia | reflexivity]. }
  destruct (decide (y' = y)) as [->|Hne].
  - rewrite list_lookup_insert_eq by (eapply lookup_lt_Some; eauto).
    rewrite Hrow.
    destruct (Z.ltb_spec x' 0) as [Hx'|Hx'].
    { case_decide; [lia | reflexivity]. }
    destruct (decide (x' = x)) as [->|Hnx].
    + rewrite list_lookup_insert_eq by (eapply lookup_lt_Some; eauto).
      case_decide; [reflexivity | tauto].
    + rewrite list_lookup_insert_ne by lia.
      case_decide; [tauto | reflexivity].
  - rewrite list_lookup_insert_ne by lia.
    case_decide; [tauto | reflexivity].
Qed.

Lemma storeCell_length (g g' : list (list Z)) (x y v : Z) :
  storeCell g x y v = Ok g' ->
  length g' = length g /\
  forall n, Forall (fun row => length row = n) g ->
            Forall (fun row => length row = n) g'.
Proof.
  intros H. apply storeCell_inv in H as (row & z & Hx & Hy & Hrow & Hz & ->).
  split; [apply length_insert|].
  intros n Hall. apply Forall_insert; [exact Hall|].
  rewrite length_insert. eapply Forall_lookup_1 in Hall; eauto.
Qed.

(** ** Counting stones *)

Lemma countStones_row (row : list Z) (black white : Z) :
  fold_left (fun '(black, white) cell =>
      let black := if cell =? 1 then black + 1 else black in
      let white := if cell =? -1 then white + 1 else white in
      (black, white)) row (black, white)
  = (black + count 1 row, white + count (-1) row).
Proof.
  revert black white. induction row as [|c row IH]; intros black white; simpl.
  - f_equal; lia.
  - rewrite IH. destruct (c =? 1), (c =? -1); f_equal; lia.
Qed.

Lemma countStones_countGrid (b : ReversiBoard) :
  countStones b = (countGrid 1 (board b), countGrid (-1) (board b)).
Proof.
  unfold countStones.
  enough (H : forall g black white,
    fold_left (fun acc row =>
      fold_left (fun '(black, white) cell =>
        let black := if cell =? 1 then black + 1 else black in
        let white := if cell =? -1 then white + 1 else white in
        (black, white)) row acc) g (black, white)
    = (black + countGrid 1 g, white + countGrid (-1) g)).
  { rewrite H. reflexivity. }
  induction g as [|row g IH]; intros black white; simpl.
  - f_equal; lia.
  - rewrite countStones_row, IH. f_equal; lia.
Qed.

Lemma count_insert (v w u : Z) (row : list Z) (i : nat) :
  row !! i = Some u ->
  count v (<[i := w]> row)
  = count v row - (if u =? v then 1 else 0) + (if w =? v then 1 else 0).
Proof.
  revert i. induction row as [|c row IH]; intros [|i] H; simpl in *;
    try discriminate.
  - injection H as ->. lia.
  - rewrite (IH i H). lia.
Qed.

Lemma countGrid_insert (v : Z) (g : list (list Z)) (j : nat) (row row' : list Z) :
  g !! j = Some row ->
  countGrid v (<[j := row']> g) = countGrid v g - count v row + count v row'.
Proof.
  revert j. induction g as [|r g IH]; intros [|j] H; simpl in *;
    try discriminate.
  - injection H as ->. lia.
  - rewrite (IH j H). lia.
Qed.

(** A store moves one cell from the count of its old value to the count of
    its new value. *)
Lemma countGrid_storeCell (g g' : list (list Z)) (x y w u v : Z) :
  storeCell g x y w = Ok g' ->
  getCell g x y = Ok (Num u) ->
  countGrid v g'
  = countGrid v g - (if u =? v then 1 else 0) + (if w =? v then 1 else 0).
Proof.
  intros Hs Hg. apply storeCell_inv in Hs as (row & z & Hx & Hy & Hrow & Hz & ->).
  apply getCell_Num in Hg as (row' & Hr' & Hu).
  apply index_Some in Hr' as [_ Hr']. apply index_Some in Hu as [_ Hu].
  assert (row' = row) as -> by congruence.
  assert (z = u) as -> by congruence.
  rewrite (countGrid_insert v g _ row) by exact Hrow.
  rewrite (count_insert v w u) by exact Hz. lia.
Qed.

(** ** Well-formed boards *)

Lemma inBounds_true (b : ReversiBoard) (x y : Z) :
  inBounds b x y = true <-> 0 <= x < size b /\ 0 <= y < size b.
Proof. unfold inBounds. rewrite !andb_true_iff. lia. Qed.

Lemma strictEq_true (v : value) (n : Z) : strictEq v n = true <-> v = Num n.
Proof.
  destruct v as [|z]; simpl; split; try discriminate.
  - intros H. apply Z.eqb_eq in H. congruence.
  - intros [= ->]. apply Z.eqb_refl.
Qed.

(** On a well-formed board a read inside the bounds yields a number. *)
Lemma wf_getCell (b : ReversiBoard) (x y : Z) :
  wf b -> inBounds b x y = true -> exists z, getCell (board b) x y = Ok (Num z).
Proof.
  intros [Hlen Hrows] Hin. apply inBounds_true in Hin as [Hx Hy].
  destruct (index_lt (board b) y) as [row Hrow]; [lia|].
  assert (Hr : length row = Z.to_nat (size b)).
  { apply index_Some in Hrow as [_ Hrow].
    eapply Forall_lookup_1 in Hrows; eauto. }
  destruct (index_lt row x) as [z Hz]; [lia|].
  exists z. apply getCell_Num. eauto.
Qed.

(** ** The walks of [isValidMove] and [applyMove] *)

Section Walk.
Variables (b : ReversiBoard) (player dx dy : Z).

(** What a returning walk has seen: [k] opponent cells, then a cell that
    stops it. *)
Lemma walk_inv (fuel : nat) :
  forall nx ny found r,
    walk fuel b player dx dy nx ny found = Ok r ->
    exists k : nat,
      r = (nx + Z.of_nat k * dx, ny + Z.of_nat k * dy,
           found || negb (k =? 0)%nat) /\
      (forall i : nat, (i < k)%nat ->
         inBounds b (nx + Z.of_nat i * dx) (ny + Z.of_nat i * dy) = true /\
         getCell (board b) (nx + Z.of_nat i * dx) (ny + Z.of_nat i * dy)
           = Ok (Num (- player))) /\
      (inBounds b (nx + Z.of_nat k * dx) (ny + Z.of_nat k * dy) = true ->
       exists v,
         getCell (board b) (nx + Z.of_nat k * dx) (ny + Z.of_nat k * dy) = Ok v /\
         strictEq v (- player) = false).
Proof.
  induction fuel as [|fuel IH]; intros nx ny found r H; simpl in H;
    [discriminate|].
  destruct (inBounds b nx ny) eqn:Hin.
  - bind_inv H. destruct (strictEq a (- player)) eqn:Heq.
    + apply IH in H as (k & -> & Hrun & Hstop).
      apply strictEq_true in Heq as ->.
      exists (S k). split; [|split].
      * rewrite orb_true_r. simpl.
        replace (nx + Z.of_nat (S k) * dx) with (nx + dx + Z.of_nat k * dx) by lia.
        replace (ny + Z.of_nat (S k) * dy) with (ny + dy + Z.of_nat k * dy) by lia.
        reflexivity.
      * intros [|i] Hi.
        -- rewrite !Z.mul_0_l, !Z.add_0_r. auto.
        -- destruct (Hrun i) as [H1 H2]; [lia|].
           replace (nx + Z.of_nat (S i) * dx) with (nx + dx + Z.of_nat i * dx) by lia.
           replace (ny + Z.of_nat (S i) * dy) with (ny + dy + Z.of_nat i * dy) by lia.
           auto.
      * replace (nx + Z.of_nat (S k) * dx) with (nx + dx + Z.of_nat k * dx) by lia.
        replace (ny + Z.of_nat (S k) * dy) with (ny + dy + Z.of_nat k * dy) by lia.
        exact Hstop.
    + injection H as <-. exists 0%nat. simpl.
      rewrite !Z.add_0_r, orb_false_r. split; [reflexivity|]. split; [lia|].
      intros _. eauto.
  - injection H as <-. exists 0%nat. simpl.
    rewrite !Z.add_0_r, orb_false_r. split; [reflexivity|]. split; [lia|].
    congruence.
Qed.

(** The loop of [applyMove] visits the same cells and records them. *)
Lemma collect_walk (fuel : nat) :
  forall nx ny flips found,
    fmap_result (fun r => (r.1.1, r.1.2))
      (collect fuel b player dx dy nx ny flips)
    = fmap_result (fun r => (r.1.1, r.1.2))
      (walk fuel b player dx dy nx ny found).
Proof.
  induction fuel as [|fuel IH]; intros nx ny flips found; simpl;
    [reflexivity|].
  destruct (inBounds b nx ny); [|reflexivity].
  destruct (getCell (board b) nx ny) as [v|e]; [|reflexivity]. simpl.
  destruct (strictEq v (- player)); [|reflexivity].
  apply IH.
Qed.

(** Every recorded cell held an opponent stone when it was read. *)
Lemma collect_inv (fuel : nat) :
  forall nx ny flips nx' ny' flips',
    collect fuel b player dx dy nx ny flips = Ok (nx', ny', flips') ->
    exists more,
      flips' = flips ++ more /\
      Forall (fun c => getCell (board b) c.1 c.2 = Ok (Num (- player))) more.
Proof.
  induction fuel as [|fuel IH]; intros nx ny flips nx' ny' flips' H;
    simpl in H; [discriminate|].
  destruct (inBounds b nx ny) eqn:Hin.
  - bind_inv H. destruct (strictEq a (- player)) eqn:Heq.
    + apply IH in H as (more & -> & Hmore).
      apply strictEq_true in Heq as ->.
      exists ((nx, ny) :: more). rewrite <- app_assoc. split; [reflexivity|].
      constructor; auto.
    + injection H as <- <- <-. exists []. rewrite app_nil_r. auto.
  - injection H as <- <- <-. exists []. rewrite app_nil_r. auto.
Qed.

Hypothesis Hwf : wf b.
Hypothesis Hdir : (dx, dy) ∈ directions.

Lemma room_step (nx ny : Z) :
  inBounds b nx ny = true ->
  1 <= room b dx dy nx ny <= size b /\ room b dx dy (nx + dx) (ny + dy) = room b dx dy nx ny - 1.
Proof.
  intros Hin. apply inBounds_true in Hin. unfold room.
  unfold directions in Hdir.
  repeat (apply elem_of_cons in Hdir as [[= -> ->]|Hdir]; [simpl; lia|]).
  inversion Hdir.
Qed.

Lemma walk_returns_fuel (fuel : nat) :
  forall nx ny found,
    (0 < fuel)%nat ->
    (inBounds b nx ny = true -> room b dx dy nx ny < Z.of_nat fuel) ->
    exists r, walk fuel b player dx dy nx ny found = Ok r.
Proof.
  induction fuel as [|fuel IH]; intros nx ny found Hpos Hroom; [lia|].
  simpl. destruct (inBounds b nx ny) eqn:Hin; [|eauto].
  destruct (wf_getCell b nx ny Hwf Hin) as [z ->]. simpl.
  destruct (z =? - player); [|eauto].
  destruct (room_step nx ny Hin) as [Hr Hs]. specialize (Hroom eq_refl).
  apply IH; [lia|]. intros _. lia.
Qed.

(** The bound [loopFuel] is never reached: the loop of [isValidMove]
    terminates and reads only cells of the grid. *)
Lemma walk_returns (nx ny : Z) (found : bool) :
  exists r, walk (loopFuel b) b player dx dy nx ny found = Ok r.
Proof.
  apply walk_returns_fuel; unfold loopFuel; [lia|].
  intros Hin. apply room_step in Hin. lia.
Qed.

(** So does the loop of [applyMove]. *)
Lemma collect_returns (nx ny : Z) (flips : list (Z * Z)) :
  exists r, collect (loopFuel b) b player dx dy nx ny flips = Ok r.
Proof.
  destruct (walk_returns nx ny false) as [r Hr].
  pose proof (collect_walk (loopFuel b) nx ny flips false) as H.
  rewrite Hr in H. destruct (collect _ _ _ _ _ _ _ _) as [c|e]; [eauto|].
  discriminate.
Qed.
End Walk.

(** ** Legal moves *)

Section Legal.
Variables (b : ReversiBoard) (x y player : Z).
Hypothesis Hwf : wf b.

Lemma validInDirection_returns (d : Z * Z) :
  d ∈ directions -> exists r, validInDirection b x y player d = Ok r.
Proof.
  intros Hd. destruct d as [dx dy]. unfold validInDirection.
  destruct (walk_returns b player dx dy Hwf Hd (x + dx) (y + dy) false)
    as [[[nx ny] found] ->]. simpl.
  destruct found; simpl; [|eauto].
  destruct (inBounds b nx ny) eqn:Hin; [|eauto].
  destruct (wf_getCell b nx ny Hwf Hin) as [z ->]. simpl. eauto.
Qed.

Lemma validInDirection_bracketed (d : Z * Z) :
  validInDirection b x y player d = Ok true -> bracketed b x y player d.
Proof.
  destruct d as [dx dy]. unfold validInDirection. intros H. bind_inv H.
  destruct a as [[nx ny] found].
  apply walk_inv in Ha as (k & [= -> -> ->] & Hrun & _). simpl in H.
  destruct k as [|k]; [discriminate|]. simpl in H.
  destruct (inBounds _ _ _) eqn:Hin; [|discriminate].
  bind_inv H. injection H as H. apply strictEq_true in H as ->.
  exists (Z.of_nat (S k)). simpl fst. simpl snd. split; [lia|]. split.
  - intros i Hi. destruct (Hrun (Z.to_nat (i - 1))) as [H1 H2]; [lia|].
    rewrite Z2Nat.id in H1, H2 by lia.
    replace (x + i * dx) with (x + dx + (i - 1) * dx) by lia.
    replace (y + i * dy) with (y + dy + (i - 1) * dy) by lia.
    auto.
  - replace (x + (Z.of_nat (S k) + 1) * dx)
      with (x + dx + Z.of_nat (S k) * dx) by lia.
    replace (y + (Z.of_nat (S k) + 1) * dy)
      with (y + dy + Z.of_nat (S k) * dy) by lia.
    auto.
Qed.

Lemma bracketed_validInDirection (d : Z * Z) :
  d ∈ directions -> player <> 0 ->
  bracketed b x y player d -> validInDirection b x y player d = Ok true.
Proof.
  intros Hd Hp (K & HK & Hrun & Hin & Hown). destruct d as [dx dy].
  simpl fst in *. simpl snd in *. unfold validInDirection.
  destruct (walk_returns b player dx dy Hwf Hd (x + dx) (y + dy) false)
    as [r Hr]. rewrite Hr. simpl.
  apply walk_inv in Hr as (k & -> & Hseen & Hstop).
  assert (Hk : Z.of_nat k = K).
  { destruct (Z.lt_trichotomy (Z.of_nat k) K) as [Hlt|[Heq|Hgt]];
      [exfalso | exact Heq | exfalso].
    - destruct (Hrun (Z.of_nat k + 1)) as [H1 H2]; [lia|].
      replace (x + (Z.of_nat k + 1) * dx)
        with (x + dx + Z.of_nat k * dx) in H1, H2 by lia.
      replace (y + (Z.of_nat k + 1) * dy)
        with (y + dy + Z.of_nat k * dy) in H1, H2 by lia.
      destruct (Hstop H1) as (v & Hv & Hne).
      rewrite H2 in Hv. injection Hv as <-. simpl in Hne.
      rewrite Z.eqb_refl in Hne. discriminate.
    - destruct (Hseen (Z.to_nat K)) as [_ H2]; [lia|].
      rewrite Z2Nat.id in H2 by lia.
      replace (x + dx + K * dx)
        with (x + (K + 1) * dx) in H2 by lia.
      replace (y + dy + K * dy)
        with (y + (K + 1) * dy) in H2 by lia.
      rewrite H2 in Hown. injection Hown as Hown. lia. }
  replace (x + dx + Z.of_nat k * dx) with (x + (K + 1) * dx) by lia.
  replace (y + dy + Z.of_nat k * dy) with (y + (K + 1) * dy) by lia.
  destruct k as [|k]; [lia|]. simpl. rewrite Hin, Hown. simpl.
  rewrite Z.eqb_refl. reflexivity.
Qed.

Lemma validInDirections_spec (ds : list (Z * Z)) :
  ds ⊆ directions -> player <> 0 ->
  exists r, validInDirections b x y player ds = Ok r /\
    (r = true <-> exists d, d ∈ ds /\ bracketed b x y player d).
Proof.
  intros Hsub Hp. induction ds as [|d ds IH]; simpl.
  - exists false. split; [reflexivity|]. split; [discriminate|].
    intros (d & Hd & _). inversion Hd.
  - assert (Hd : d ∈ directions) by (apply Hsub; left).
    destruct (validInDirection_returns d Hd) as [hit Hhit]. rewrite Hhit. simpl.
    destruct hit.
    + exists true. split; [reflexivity|]. split; [|reflexivity].
      intros _. exists d. split; [left|].
      now apply validInDirection_bracketed.
    + destruct IH as (r & Hr & Hiff).
      { intros d' Hd'. apply Hsub. now right. }
      exists r. split; [exact Hr|]. rewrite Hiff. split.
      * intros (d' & Hd' & Hb). exists d'. split; [now right | exact Hb].
      * intros (d' & Hd' & Hb). apply elem_of_cons in Hd' as [->|Hd'].
        -- apply bracketed_validInDirection in Hb; auto. congruence.
        -- eauto.
Qed.

(** [isValidMove] returns on every cell of a well-formed board. *)
Lemma isValidMove_returns :
  inBounds b x y = true -> player <> 0 ->
  exists r, isValidMove b x y player = Ok r.
Proof.
  intros Hin Hp. unfold isValidMove.
  destruct (wf_getCell b x y Hwf Hin) as [z ->]. simpl.
  destruct (negb (z =? 0)); [eauto|].
  destruct (validInDirections_spec directions) as (r & Hr & _); eauto.
Qed.
End Legal.

(** C4. On a well-formed board, for a player [+1] or [-1] and a cell
    [(x, y)] of the grid, [isValidMove(x, y, player)] returns, and it returns
    [true] exactly when the cell is empty and one of the eight directions
    holds one or more opponent stones in a row next to [(x, y)] followed by a
    stone of [player] on the grid; a direction without an opponent stone
    ([k = 0]) does not count. *)
Theorem isValidMove_iff_bracketed (b : ReversiBoard) (x y player : Z) :
  wf b -> player = 1 \/ player = -1 -> inBounds b x y = true ->
  exists r, isValidMove b x y player = Ok r /\
    (r = true <->
       getCell (board b) x y = Ok (Num 0) /\
       exists d, d ∈ directions /\ bracketed b x y player d).
Proof.
  intros Hwf Hp Hin. unfold isValidMove.
  destruct (wf_getCell b x y Hwf Hin) as [z Hz]. rewrite Hz. simpl.
  destruct (Z.eqb_spec z 0) as [->|Hne]; simpl.
  - destruct (validInDirections_spec b x y player Hwf directions)
      as (r & Hr & Hiff); [reflexivity | lia |].
    exists r. split; [exact Hr|]. rewrite Hiff. tauto.
  - exists false. split; [reflexivity|]. split; [discriminate|].
    intros [[= ?] _]. contradiction.
Qed.

Lemma isValidMove_iff_bracketed_witness :
  exists r, isValidMove start8 3 2 1 = Ok r /\
    (r = true <->
       getCell (board start8) 3 2 = Ok (Num 0) /\
       exists d, d ∈ directions /\ bracketed start8 3 2 1 d).
Proof.
  apply isValidMove_iff_bracketed.
  - split; [reflexivity|]. repeat constructor.
  - left; reflexivity.
  - reflexivity.
Defined.

(** ** Applying a move *)

(** The cell of an accepted move was empty. *)
Lemma isValidMove_true_empty (b : ReversiBoard) (x y player : Z) :
  isValidMove b x y player = Ok true -> getCell (board b) x y = Ok (Num 0).
Proof.
  unfold isValidMove. intros H. bind_inv H.
  destruct (strictEq a 0) eqn:E; simpl in H; [|discriminate].
  apply strictEq_true in E as ->. exact Ha.
Qed.

(** The steps of an accepted [applyMove]. *)
Lemma applyMove_accepted (b b' : ReversiBoard) (x y player : Z) :
  applyMove b x y player = Ok (b', true) ->
  isValidMove b x y player = Ok true /\
  exists g b1,
    storeCell (board b) x y player = Ok g /\
    foldM (flipDirection x y player) directions (setBoard b g) = Ok b1 /\
    b' = switchPlayer b1.
Proof.
  unfold applyMove. intros H. bind_inv H. destruct a; simpl in H; [|discriminate].
  split; [exact Ha|]. bind_inv H. bind_inv H. injection H as <-. eauto.
Qed.

(** What the flips of one set of recorded cells preserve: the fields other
    than the grid, and the shape of the grid. *)
Lemma flipAll_frame (player : Z) (flips : list (Z * Z)) :
  forall b b', flipAll b player flips = Ok b' ->
    size b' = size b /\ currentPlayer b' = currentPlayer b /\ (wf b -> wf b').
Proof.
  unfold flipAll. intros b b'.
  apply (foldM_invariant (fun c =>
    size c = size b /\ currentPlayer c = currentPlayer b /\ (wf b -> wf c))).
  - intros c [fx fy] c' _ (Hs & Hc & Hw) H. bind_inv H. injection H as <-.
    simpl. split; [exact Hs|]. split; [exact Hc|].
    intros Hb. destruct (Hw Hb) as [Hl Hr].
    apply storeCell_length in Ha as [Hl' Hr'].
    split; simpl; [congruence|]. rewrite Hs in *. auto.
  - auto.
Qed.

Lemma flipDirection_frame (x y player : Z) (d : Z * Z) (b b' : ReversiBoard) :
  flipDirection x y player b d = Ok b' ->
  size b' = size b /\ currentPlayer b' = currentPlayer b /\ (wf b -> wf b').
Proof.
  destruct d as [dx dy]. unfold flipDirection. intros H. bind_inv H.
  destruct a as [[nx ny] flips].
  destruct (inBounds b nx ny); [|injection H as <-; auto].
  bind_inv H.
  destruct (strictEq a player); [|injection H as <-; auto].
  now apply flipAll_frame in H.
Qed.

Lemma flipDirections_frame (x y player : Z) (ds : list (Z * Z))
    (b b' : ReversiBoard) :
  foldM (flipDirection x y player) ds b = Ok b' ->
  size b' = size b /\ currentPlayer b' = currentPlayer b /\ (wf b -> wf b').
Proof.
  apply (foldM_invariant (fun c =>
    size c = size b /\ currentPlayer c = currentPlayer b /\ (wf b -> wf c))).
  - intros c d c' _ (Hs & Hc & Hw) H.
    apply flipDirection_frame in H as (Hs' & Hc' & Hw').
    split; [congruence|]. split; [congruence|]. auto.
  - auto.
Qed.

(** An accepted move keeps the size and the shape of the grid and negates
    the turn field. *)
Lemma applyMove_frame (b b' : ReversiBoard) (x y player : Z) :
  applyMove b x y player = Ok (b', true) ->
  size b' = size b /\ currentPlayer b' = - currentPlayer b /\ (wf b -> wf b').
Proof.
  intros H. apply applyMove_accepted in H as (_ & g & b1 & Hg & Hf & ->).
  apply flipDirections_frame in Hf as (Hs & Hc & Hw). simpl in *.
  split; [exact Hs|]. split; [congruence|].
  intros [Hl Hr]. apply Hw. apply storeCell_length in Hg as [Hl' Hr'].
  split; simpl; [congruence | auto].
Qed.

(** C1, as the code has it. An accepted [applyMove(x, y, player)] leaves in
    [currentPlayer] the opposite of the value the field held before the call;
    that is the opponent of [player] exactly when the field held [player]
    before the call. *)
Theorem applyMove_switches_currentPlayer (b b' : ReversiBoard) (x y player : Z) :
  applyMove b x y player = Ok (b', true) ->
  currentPlayer b' = - currentPlayer b /\
  (currentPlayer b' = - player <-> currentPlayer b = player).
Proof.
  intros H. apply applyMove_frame in H as (_ & Hc & _).
  split; [exact Hc | lia].
Qed.

(** C3. On a well-formed board, for a cell [(x, y)] of the grid that is not
    a legal move of [player], [applyMove(x, y, player)] returns [false] and
    the object is the one before the call: same grid, same [currentPlayer]. *)
Theorem applyMove_illegal_unchanged (b : ReversiBoard) (x y player : Z) :
  wf b -> player = 1 \/ player = -1 -> inBounds b x y = true ->
  isValidMove b x y player <> Ok true ->
  applyMove b x y player = Ok (b, false).
Proof.
  intros Hwf Hp Hin Hill. unfold applyMove.
  destruct (isValidMove_returns b x y player Hwf Hin) as [r Hr]; [lia|].
  rewrite Hr. destruct r; [contradiction | reflexivity].
Qed.

(** ** Stone counts across a move *)

Section Counts.
Variable player : Z.
Hypothesis Hplayer : player = 1 \/ player = -1.

Lemma flip_counts (g g' : list (list Z)) (fx fy : Z) :
  stone player g (fx, fy) -> storeCell g fx fy player = Ok g' ->
  countGrid player g <= countGrid player g' /\
  countGrid player g' + countGrid (- player) g'
    = countGrid player g + countGrid (- player) g /\
  forall c, stone player g c -> stone player g' c.
Proof.
  intros Hst Hs. split; [|split].
  - destruct Hst as [Hc|Hc]; simpl in Hc;
      rewrite (countGrid_storeCell _ _ _ _ _ _ player Hs Hc);
      rewrite ?Z.eqb_refl; try destruct (- player =? player); lia.
  - destruct Hst as [Hc|Hc]; simpl in Hc;
      rewrite (countGrid_storeCell _ _ _ _ _ _ player Hs Hc),
              (countGrid_storeCell _ _ _ _ _ _ (- player) Hs Hc);
      rewrite ?Z.eqb_refl;
      destruct (Z.eqb_spec (- player) player), (Z.eqb_spec player (- player));
      lia.
  - intros [cx cy]. unfold stone. simpl.
    rewrite (getCell_storeCell _ _ _ _ _ cx cy Hs).
    case_decide; auto.
Qed.

Lemma flipAll_counts (flips : list (Z * Z)) :
  forall b b',
    Forall (stone player (board b)) flips ->
    flipAll b player flips = Ok b' ->
    countGrid player (board b) <= countGrid player (board b') /\
    countGrid player (board b') + countGrid (- player) (board b')
      = countGrid player (board b) + countGrid (- player) (board b).
Proof.
  unfold flipAll.
  induction flips as [|[fx fy] flips IH]; intros b b' Hall H; simpl in H.
  - injection H as <-. lia.
  - bind_inv H. bind_inv Ha. injection Ha as <-.
    apply Forall_cons in Hall as [Hc Hall].
    destruct (flip_counts _ _ _ _ Hc Ha0) as (Hle & Htot & Hkeep).
    apply IH in H; simpl in *.
    + lia.
    + eapply Forall_impl; eauto.
Qed.

Lemma flipDirection_counts (x y : Z) (d : Z * Z) (b b' : ReversiBoard) :
  flipDirection x y player b d = Ok b' ->
  countGrid player (board b) <= countGrid player (board b') /\
  countGrid player (board b') + countGrid (- player) (board b')
    = countGrid player (board b) + countGrid (- player) (board b).
Proof.
  destruct d as [dx dy]. unfold flipDirection. intros H. bind_inv H.
  destruct a as [[nx ny] flips].
  destruct (inBounds b nx ny); [|injection H as <-; lia].
  bind_inv H.
  destruct (strictEq a player); [|injection H as <-; lia].
  apply collect_inv in Ha as (more & -> & Hmore). simpl in H.
  eapply flipAll_counts; [|exact H].
  eapply Forall_impl; [exact Hmore|]. intros c Hc. right. exact Hc.
Qed.

Lemma flipDirections_counts (x y : Z) (ds : list (Z * Z)) (b b' : ReversiBoard) :
  foldM (flipDirection x y player) ds b = Ok b' ->
  countGrid player (board b) <= countGrid player (board b') /\
  countGrid player (board b') + countGrid (- player) (board b')
    = countGrid player (board b) + countGrid (- player) (board b).
Proof.
  apply (foldM_invariant (fun c =>
    countGrid player (board b) <= countGrid player (board c) /\
    countGrid player (board c) + countGrid (- player) (board c)
      = countGrid player (board b) + countGrid (- player) (board b))).
  - intros c d c' _ [Hle Htot] H. apply flipDirection_counts in H. lia.
  - lia.
Qed.

Lemma stonesOf_countGrid (b : ReversiBoard) :
  stonesOf b player = countGrid player (board b) /\
  totalStones b = countGrid player (board b) + countGrid (- player) (board b).
Proof.
  unfold stonesOf, totalStones. rewrite countStones_countGrid. simpl.
  destruct Hplayer as [E | E]; rewrite E;
    [change (- (1)) with (-1) | change (- (-1)) with 1]; simpl; lia.
Qed.

(** C5. After an accepted [applyMove(x, y, player)] the mover has strictly
    more stones than before and the board holds exactly one stone more:
    the flips change owners, not the number of stones. *)
Theorem applyMove_stone_counts (b b' : ReversiBoard) (x y : Z) :
  applyMove b x y player = Ok (b', true) ->
  stonesOf b player < stonesOf b' player /\
  totalStones b' = totalStones b + 1.
Proof.
  intros H. apply applyMove_accepted in H as (Hv & g & b1 & Hg & Hf & ->).
  apply isValidMove_true_empty in Hv.
  apply flipDirections_counts in Hf. simpl in Hf.
  destruct (stonesOf_countGrid b) as [-> ->].
  destruct (stonesOf_countGrid (switchPlayer b1)) as [-> ->]. simpl.
  rewrite (countGrid_storeCell _ _ _ _ _ _ player Hg Hv),
          (countGrid_storeCell _ _ _ _ _ _ (- player) Hg Hv) in Hf.
  rewrite Z.eqb_refl in Hf.
  destruct (Z.eqb_spec 0 player), (Z.eqb_spec 0 (- player)),
           (Z.eqb_spec player (- player)); lia.
Qed.
End Counts.

(** ** Enumerating the legal moves *)

Lemma foldM_ext_in {A B : Type} (f f' : A -> B -> result A) (l : list B) :
  (forall a b, b ∈ l -> f a b = f' a b) ->
  forall a, foldM f l a = foldM f' l a.
Proof.
  induction l as [|b l IH]; intros Hext a; simpl; [reflexivity|].
  rewrite Hext by left. destruct (f' a b); simpl; [|reflexivity].
  apply IH. intros ? ? Hin. apply Hext. now right.
Qed.

(** Every move listed by [getValidMoves] is a cell of the grid, taken from
    the scan of lines 61-62, on which [isValidMove] returned [true]. *)
Lemma getValidMoves_sound (b : ReversiBoard) (player : Z) (moves : list (Z * Z)) :
  getValidMoves b player = Ok moves ->
  forall c, c ∈ moves ->
    inBounds b c.1 c.2 = true /\ isValidMove b c.1 c.2 player = Ok true.
Proof.
  unfold getValidMoves.
  apply (foldM_invariant (fun moves => forall c, c ∈ moves ->
    inBounds b c.1 c.2 = true /\ isValidMove b c.1 c.2 player = Ok true)).
  - intros acc y acc' Hy Hacc.
    apply (foldM_invariant (fun moves => forall c, c ∈ moves ->
      inBounds b c.1 c.2 = true /\ isValidMove b c.1 c.2 player = Ok true));
      [|exact Hacc].
    intros acc1 x acc2 Hx Hacc1 H. bind_inv H. injection H as <-.
    destruct a; [|exact Hacc1].
    intros c Hc. apply elem_of_app in Hc as [Hc|Hc]; [auto|].
    apply list_elem_of_singleton in Hc as ->. simpl.
    apply elem_of_seqZ in Hx, Hy. split; [|exact Ha].
    apply inBounds_true. lia.
  - intros c Hc. inversion Hc.
Qed.

(** On a well-formed board the scan returns. *)
Lemma getValidMoves_returns (b : ReversiBoard) (player : Z) :
  wf b -> player <> 0 -> exists moves, getValidMoves b player = Ok moves.
Proof.
  intros Hwf Hp. unfold getValidMoves.
  destruct (foldM_returns (fun _ => True)
    (fun moves y =>
      foldM (fun moves x =>
        v <- isValidMove b x y player ;;
        Ok (if v then moves ++ [(x, y)] else moves))
        (seqZ 0 (size b)) moves)
    (seqZ 0 (size b))) with (a := @nil (Z * Z)) as (moves & H & _);
    [ | exact I | eauto].
  intros acc y Hy _.
  apply (foldM_returns (fun _ => True)); [|exact I].
  intros acc1 x Hx _. apply elem_of_seqZ in Hx, Hy.
  destruct (isValidMove_returns b x y player Hwf) as [v ->];
    [apply inBounds_true; lia | exact Hp |].
  simpl. eauto.
Qed.

(** C8. On a well-formed board [isGameOver()] returns, and it returns [true]
    exactly when [getValidMoves(1)] and [getValidMoves(-1)] are both empty. *)
Theorem isGameOver_iff_no_moves (b : ReversiBoard) :
  wf b ->
  exists r black white,
    getValidMoves b 1 = Ok black /\ getValidMoves b (-1) = Ok white /\
    isGameOver b = Ok r /\
    (r = true <-> black = [] /\ white = []).
Proof.
  intros Hwf.
  destruct (getValidMoves_returns b 1 Hwf) as [black Hb]; [lia|].
  destruct (getValidMoves_returns b (-1) Hwf) as [white Hw]; [lia|].
  unfold isGameOver. rewrite Hb. simpl.
  destruct black as [|mb black]; simpl.
  - rewrite Hw. simpl. exists (length white =? 0)%nat, [], white.
    split; [reflexivity|]. split; [reflexivity|]. split; [reflexivity|].
    destruct white; simpl; split; auto; try discriminate.
    intros [_ [=]].
  - exists false, (mb :: black), white.
    split; [reflexivity|]. split; [exact Hw|]. split; [reflexivity|].
    split; [discriminate|]. intros [[=] _].
Qed.

Lemma isGameOver_iff_no_moves_witness :
  exists r black white,
    getValidMoves start8 1 = Ok black /\ getValidMoves start8 (-1) = Ok white /\
    isGameOver start8 = Ok r /\
    (r = true <-> black = [] /\ white = []).
Proof.
  apply isGameOver_iff_no_moves. split; [reflexivity|]. repeat constructor.
Defined.

(** ** The evaluator *)

Lemma stoneDiff_opp (b : ReversiBoard) (player : Z) :
  player = 1 \/ player = -1 -> stoneDiff b (- player) = - stoneDiff b player.
Proof.
  unfold stoneDiff. destruct (countStones b) as [black white].
  intros [-> | ->]; [change (- (1)) with (-1) | change (- (-1)) with 1];
    simpl; lia.
Qed.

Lemma cornerScore_opp (b : ReversiBoard) (player : Z) :
  cornerScore b (- player) = fmap_result Z.opp (cornerScore b player).
Proof.
  unfold cornerScore. change 0 with (- 0) at 1. rewrite Z.opp_involutive.
  generalize 0 as score. generalize (corners b) as cs.
  induction cs as [|[cx cy] cs IH]; intros score; simpl; [reflexivity|].
  destruct (getCell (board b) cx cy) as [v|e]; simpl; [|reflexivity].
  destruct (strictEq v player), (strictEq v (- player));
    rewrite <- IH; f_equal; lia.
Qed.

(** On a well-formed board that has cells the four corner reads succeed. *)
Lemma cornerScore_returns (b : ReversiBoard) (player : Z) :
  wf b -> 0 < size b -> exists s, cornerScore b player = Ok s.
Proof.
  intros Hwf Hpos. unfold cornerScore.
  destruct (foldM_returns (fun _ => True)
    (fun score '(x, y) =>
      v <- getCell (board b) x y ;;
      let score := if strictEq v player then score + 5 else score in
      v' <- getCell (board b) x y ;;
      let score := if strictEq v' (- player) then score - 5 else score in
      Ok score) (corners b)) with (a := 0) as (s & H & _); [ | exact I | eauto].
  intros score [cx cy] Hc _.
  destruct (wf_getCell b cx cy Hwf) as [z ->]; [|simpl; eauto].
  apply inBounds_true. unfold corners in Hc.
  repeat (apply elem_of_cons in Hc as [[= -> ->]|Hc]; [lia|]).
  inversion Hc.
Qed.

(** C10. For a player [+1] or [-1], [evaluate(board, -player)] is the
    opposite of [evaluate(board, player)]: the two calls throw together, and
    when one returns [v] the other returns [-v]. On a well-formed board with
    cells both return. *)
Theorem evaluate_antisymmetric (b : ReversiBoard) (player : Z) :
  player = 1 \/ player = -1 ->
  evaluate b (- player) = fmap_result Z.opp (evaluate b player) /\
  (wf b -> 0 < size b ->
   exists v, evaluate b player = Ok v /\ evaluate b (- player) = Ok (- v)).
Proof.
  intros Hp.
  assert (Heq : evaluate b (- player) = fmap_result Z.opp (evaluate b player)).
  { unfold evaluate. rewrite cornerScore_opp, stoneDiff_opp by exact Hp.
    destruct (cornerScore b player) as [s|e]; simpl; [|reflexivity].
    f_equal. lia. }
  split; [exact Heq|]. intros Hwf Hpos.
  destruct (cornerScore_returns b player Hwf Hpos) as [s Hs].
  exists (stoneDiff b player * 1 + s). rewrite Heq. unfold evaluate.
  rewrite Hs. auto.
Qed.

(** ** The search *)

Lemma minimax_fuel_S (fuel : nat) (b : ReversiBoard) (depth cur maxp : Z) :
  minimax_fuel (S fuel) b depth cur maxp
  = (over <- (if depth =? 0 then Ok true else isGameOver b) ;;
     if (over : bool) then fmap_result Finite (evaluate b maxp)
     else
       moves <- getValidMoves b cur ;;
       if (length moves =? 0)%nat then
         minimax_fuel fuel b (depth - 1) (- cur) maxp
       else if cur =? maxp then
         foldM (fun maxEval '(x, y) =>
           tmp <- clone b ;;
           r <- applyMove tmp x y cur ;;
           evalScore <- minimax_fuel fuel (fst r) (depth - 1) (- cur) maxp ;;
           Ok (if gt evalScore maxEval then evalScore else maxEval))
           moves NegInfinity
       else
         foldM (fun minEval '(x, y) =>
           tmp <- clone b ;;
           r <- applyMove tmp x y cur ;;
           evalScore <- minimax_fuel fuel (fst r) (depth - 1) (- cur) maxp ;;
           Ok (if lt evalScore minEval then evalScore else minEval))
           moves Infinity).
Proof. reflexivity. Qed.

(** More fuel than the depth does not change the result. *)
Lemma minimax_fuel_irrelevant (n : nat) :
  forall fuel1 fuel2 b depth cur maxp,
    0 <= depth -> Z.to_nat depth = n -> (n < fuel1)%nat -> (n < fuel2)%nat ->
    minimax_fuel fuel1 b depth cur maxp = minimax_fuel fuel2 b depth cur maxp.
Proof.
  induction n as [|n IH]; intros fuel1 fuel2 b depth cur maxp Hd Hn H1 H2;
    (destruct fuel1 as [|fuel1]; [lia|]); (destruct fuel2 as [|fuel2]; [lia|]);
    simpl.
  - assert (depth = 0) as -> by lia. reflexivity.
  - destruct (Z.eqb_spec depth 0) as [->|Hne]; [reflexivity|].
    destruct (isGameOver b) as [[|]|e]; simpl; try reflexivity.
    destruct (getValidMoves b cur) as [moves|e]; simpl; [|reflexivity].
    assert (Hrec : forall b' cur',
      minimax_fuel fuel1 b' (depth - 1) cur' maxp
      = minimax_fuel fuel2 b' (depth - 1) cur' maxp).
    { intros. apply IH; lia. }
    destruct (length moves =? 0)%nat; [apply Hrec|].
    destruct (cur =? maxp); apply foldM_ext_in; intros acc [mx my] _;
      destruct (clone b) as [tmp|e]; simpl; try reflexivity;
      destruct (applyMove tmp mx my cur) as [r|e]; simpl; try reflexivity;
      rewrite Hrec; reflexivity.
Qed.

(** The bound of [minimax] is enough at every depth [d >= 0]. *)
Lemma minimax_fuel_enough (fuel : nat) (b : ReversiBoard) (depth cur maxp : Z) :
  0 <= depth -> (Z.to_nat depth < fuel)%nat ->
  minimax_fuel fuel b depth cur maxp = minimax b depth cur maxp.
Proof.
  intros Hd Hf. unfold minimax.
  apply (minimax_fuel_irrelevant (Z.to_nat depth)); auto; lia.
Qed.

(** Scenario 5 of the tests: at depth 0 the search is the evaluator. *)
Lemma minimax_depth_0 (b : ReversiBoard) (cur maxp : Z) :
  minimax b 0 cur maxp = fmap_result Finite (evaluate b maxp).
Proof. reflexivity. Qed.

(** C6. At a depth [d > 0], on a board that is not terminal and on which the
    mover has no legal move, [minimax(b, d, m, M)] is
    [minimax(b, d - 1, -m, M)]: the same board, one ply less, the opponent to
    move. *)
Theorem minimax_forced_pass (b : ReversiBoard) (depth cur maxp : Z) :
  0 < depth ->
  isGameOver b = Ok false ->
  getValidMoves b cur = Ok [] ->
  minimax b depth cur maxp = minimax b (depth - 1) (- cur) maxp.
Proof.
  intros Hd Hover Hmoves. unfold minimax at 1. simpl.
  destruct (Z.eqb_spec depth 0) as [->|_]; [lia|].
  rewrite Hover. simpl. rewrite Hmoves. simpl.
  apply minimax_fuel_enough; lia.
Qed.

(** ** Construction and duplication *)

Lemma storeCell_wf (b : ReversiBoard) (x y v : Z) :
  wf b -> inBounds b x y = true ->
  exists g, storeCell (board b) x y v = Ok g /\ wf (setBoard b g).
Proof.
  intros Hwf Hin. destruct (storeCell_Ok (board b) x y v) as [g Hg].
  { apply wf_getCell; assumption. }
  exists g. split; [exact Hg|]. destruct Hwf as [Hl Hr].
  apply storeCell_length in Hg as [Hl' Hr']. split; simpl; [congruence | auto].
Qed.

(** The constructor returns exactly for an even size of 2 or more, with the
    size it was given. *)
Lemma constructor_returns (sz : Z) :
  Z.even sz = true -> 2 <= sz ->
  exists c, constructor sz = Ok c /\ size c = sz /\ wf c.
Proof.
  intros Heven Hsz. unfold constructor, init. simpl size.
  rewrite <- Z.negb_even, Heven. simpl negb. cbv iota.
  apply Z.even_spec in Heven as [k Hk].
  assert (Hdiv : sz / 2 = k) by (rewrite Hk, Z.mul_comm, Z.div_mul; lia).
  rewrite Hdiv.
  set (b0 := {| size := sz;
                board := replicate (Z.to_nat sz) (replicate (Z.to_nat sz) 0);
                currentPlayer := 1 |}).
  assert (Hw0 : wf b0).
  { split; simpl; [apply length_replicate|].
    apply Forall_replicate, length_replicate. }
  change (replicate (Z.to_nat sz) (replicate (Z.to_nat sz) 0)) with (board b0).
  destruct (storeCell_wf b0 (k - 1) (k - 1) (-1) Hw0) as (g1 & -> & Hw1).
  { apply inBounds_true. simpl. lia. }
  simpl bind. change g1 with (board (setBoard b0 g1)).
  destruct (storeCell_wf _ k k (-1) Hw1) as (g2 & -> & Hw2).
  { apply inBounds_true. simpl. lia. }
  simpl bind. change g2 with (board (setBoard (setBoard b0 g1) g2)).
  destruct (storeCell_wf _ k (k - 1) 1 Hw2) as (g3 & -> & Hw3).
  { apply inBounds_true. simpl. lia. }
  simpl bind.
  change g3 with (board (setBoard (setBoard (setBoard b0 g1) g2) g3)).
  destruct (storeCell_wf _ (k - 1) k 1 Hw3) as (g4 & -> & Hw4).
  { apply inBounds_true. simpl. lia. }
  simpl bind. eexists. split; [reflexivity|]. split; [reflexivity|]. exact Hw4.
Qed.

Lemma constructor_size (sz : Z) (c : ReversiBoard) :
  constructor sz = Ok c -> size c = sz.
Proof.
  unfold constructor, init. simpl size. destruct (Z.odd sz); [discriminate|].
  intros H. do 4 bind_inv H. injection H as <-. reflexivity.
Qed.

(** In this value model a duplicate is the board itself. *)
Lemma clone_Ok (b c : ReversiBoard) : clone b = Ok c -> c = b.
Proof.
  unfold clone. intros H. bind_inv H. injection H as <-.
  apply constructor_size in Ha. rewrite Ha, map_id. now destruct b.
Qed.

Lemma clone_returns (b : ReversiBoard) :
  Z.even (size b) = true -> 2 <= size b -> clone b = Ok b.
Proof.
  intros He Hs. destruct (constructor_returns (size b) He Hs) as (c & Hc & Hsz & _).
  unfold clone. rewrite Hc. simpl. rewrite Hsz, map_id. now destruct b.
Qed.

(** ** Move selection *)

(** C7. For a player with at least one legal move, when the corner term of
    the evaluator is zero on the board reached by each legal move, the
    minimax strategy with [maxDepth = 1] and the greedy strategy return the
    same move: at depth 0 the search is the evaluator, which is then the
    stone differential that greedy compares, and the two scans are the
    same. *)
Theorem minimax_depth_1_is_greedy (randomIndex : nat -> nat) (depth : Z)
    (b : ReversiBoard) (player : Z) (moves : list (Z * Z)) :
  getValidMoves b player = Ok moves ->
  moves <> [] ->
  (forall x y b', (x, y) ∈ moves -> successor b x y player = Ok b' ->
                  cornerScore b' player = Ok 0) ->
  getBestMove randomIndex (mkAI Minimax 1) b player
  = getBestMove randomIndex (mkAI Greedy depth) b player.
Proof.
  intros Hmoves Hne Hcorner. unfold getBestMove. rewrite Hmoves. simpl.
  destruct (length moves =? 0)%nat; [reflexivity|].
  unfold chooseMinimax, chooseGreedy. f_equal.
  apply foldM_ext_in. intros [bestMove bestScore] [x y] Hin.
  specialize (Hcorner x y). unfold successor in Hcorner.
  destruct (clone b) as [tmp|e]; simpl in *; [|reflexivity].
  destruct (applyMove tmp x y player) as [r|e]; simpl in *; [|reflexivity].
  rewrite minimax_depth_0. unfold evaluate.
  rewrite (Hcorner r.1 Hin eq_refl). simpl.
  replace (stoneDiff r.1 player * 1 + 0) with (stoneDiff r.1 player) by lia.
  reflexivity.
Qed.

(** ** The greedy scan *)

(** What [firstBest] returns: a move of the list with a score that no move
    beats and that no earlier move reaches. *)
Lemma firstBest_spec (score : Z * Z -> Z) (moves : list (Z * Z)) (m : Z * Z) :
  firstBest score moves = Some m ->
  exists i : nat,
    moves !! i = Some m /\
    (forall m', m' ∈ moves -> score m' <= score m) /\
    (forall (j : nat) m', (j < i)%nat -> moves !! j = Some m' ->
                          score m' < score m).
Proof.
  revert m. induction moves as [|m0 rest IH]; intros m; simpl; [discriminate|].
  destruct (firstBest score rest) as [m'|] eqn:Hrest.
  - destruct (IH m' eq_refl) as (i & Hi & Hmax & Hfirst).
    destruct (Z.ltb_spec (score m0) (score m')) as [Hlt|Hge]; intros [= <-].
    + exists (S i). split; [exact Hi|]. split.
      * intros m1 Hin. apply elem_of_cons in Hin as [->|Hin]; [lia | auto].
      * intros [|j] m1 Hj Hm1; simpl in Hm1.
        -- injection Hm1 as <-. exact Hlt.
        -- apply (Hfirst j); [lia | exact Hm1].
    + exists 0%nat. split; [reflexivity|]. split.
      * intros m1 Hin. apply elem_of_cons in Hin as [->|Hin]; [lia|].
        specialize (Hmax m1 Hin). lia.
      * intros j m1 Hj. lia.
  - intros [= <-]. exists 0%nat. split; [reflexivity|]. split.
    + intros m1 Hin. apply elem_of_cons in Hin as [->|Hin]; [lia|].
      destruct rest; [inversion Hin|]. simpl in Hrest.
      destruct (firstBest score rest); [destruct (_ <? _)|]; discriminate.
    + intros j m1 Hj. lia.
Qed.

Lemma successor_inv (b b' : ReversiBoard) (x y player : Z) :
  successor b x y player = Ok b' ->
  clone b = Ok b /\ exists r, applyMove b x y player = Ok r /\ r.1 = b'.
Proof.
  unfold successor. intros H. bind_inv H. apply clone_Ok in Ha as Heq.
  subst a. bind_inv H. injection H as <-. eauto.
Qed.

(** The loop of [chooseGreedy] from a best move already found. *)
Lemma greedy_scan (b : ReversiBoard) (player : Z) (next : Z * Z -> ReversiBoard)
    (moves : list (Z * Z)) :
  (forall x y, (x, y) ∈ moves -> successor b x y player = Ok (next (x, y))) ->
  forall best s,
    foldM (fun '(bestMove, bestScore) '(x, y) =>
        tmp <- clone b ;;
        r <- applyMove tmp x y player ;;
        let score := Finite (stoneDiff (fst r) player) in
        Ok (if gt score bestScore then (Some (x, y), score)
            else (bestMove, bestScore)))
      moves (Some best, Finite s)
    = Ok (match firstBest (fun m => stoneDiff (next m) player) moves with
          | Some m' =>
              if s <? stoneDiff (next m') player
              then (Some m', Finite (stoneDiff (next m') player))
              else (Some best, Finite s)
          | None => (Some best, Finite s)
          end).
Proof.
  induction moves as [|[x y] rest IH]; intros Hnext best s; [reflexivity|].
  destruct (successor_inv _ _ _ _ _ (Hnext x y (list_elem_of_here _ _)))
    as (Hc & r & Ha & Hr).
  assert (Hrest : forall x' y', (x', y') ∈ rest ->
                    successor b x' y' player = Ok (next (x', y'))).
  { intros x' y' Hin. apply Hnext. now right. }
  specialize (IH Hrest). revert IH.
  match goal with |- context [foldM ?f rest] => set (F := f) end.
  intros IH. cbn [foldM firstBest]. unfold F at 1. cbv beta iota.
  rewrite Hc. cbn [bind]. rewrite Ha. cbn [bind]. rewrite Hr. cbn [gt].
  destruct (Z.ltb_spec s (stoneDiff (next (x, y)) player)) as [Hlt|Hge];
    rewrite IH;
    destruct (firstBest _ rest) as [m'|]; try reflexivity.
  - destruct (Z.ltb_spec (stoneDiff (next (x, y)) player)
                         (stoneDiff (next m') player)) as [H1|H1].
    + destruct (Z.ltb_spec s (stoneDiff (next m') player)); [reflexivity | lia].
    + destruct (Z.ltb_spec s (stoneDiff (next (x, y)) player)); [reflexivity | lia].
  - destruct (Z.ltb_spec s (stoneDiff (next (x, y)) player)); [|lia]. reflexivity.
  - destruct (Z.ltb_spec (stoneDiff (next (x, y)) player)
                         (stoneDiff (next m') player)) as [H1|H1].
    + reflexivity.
    + destruct (Z.ltb_spec s (stoneDiff (next m') player)); [lia|].
      destruct (Z.ltb_spec s (stoneDiff (next (x, y)) player)); [lia|].
      reflexivity.
  - destruct (Z.ltb_spec s (stoneDiff (next (x, y)) player)); [lia|]. reflexivity.
Qed.

(** The greedy strategy is the scan of the specification over the stone
    differential of the boards that the moves lead to: strict [>], the first
    move wins ties. *)
Lemma chooseGreedy_firstBest (b : ReversiBoard) (player : Z)
    (next : Z * Z -> ReversiBoard) (moves : list (Z * Z)) :
  (forall x y, (x, y) ∈ moves -> successor b x y player = Ok (next (x, y))) ->
  chooseGreedy b player moves
  = Ok (firstBest (fun m => stoneDiff (next m) player) moves).
Proof.
  intros Hnext. unfold chooseGreedy. destruct moves as [|[x y] rest];
    [reflexivity|].
  destruct (successor_inv _ _ _ _ _ (Hnext x y (list_elem_of_here _ _)))
    as (Hc & r & Ha & Hr).
  pose proof (greedy_scan b player next rest) as Hscan.
  revert Hscan.
  match goal with |- context [foldM ?f rest] => set (F := f) end.
  intros Hscan. cbn [foldM head firstBest]. unfold F at 1. cbv beta iota.
  rewrite Hc. cbn [bind]. rewrite Ha. cbn [bind]. rewrite Hr. cbn [gt].
  rewrite Hscan.
  - cbn [bind]. destruct (firstBest _ rest) as [m'|]; [|reflexivity].
    destruct (_ <? _); reflexivity.
  - intros x' y' Hin. apply Hnext. now right.
Qed.

(** ** The calls return on well-formed boards *)

Lemma flipAll_returns (player : Z) (flips : list (Z * Z)) :
  forall b,
    Forall (fun c => exists z, getCell (board b) c.1 c.2 = Ok (Num z)) flips ->
    exists b', flipAll b player flips = Ok b'.
Proof.
  unfold flipAll. induction flips as [|[fx fy] flips IH]; intros b Hall; simpl.
  - eauto.
  - apply Forall_cons in Hall as [Hc Hall]. simpl in Hc.
    destruct (storeCell_Ok (board b) fx fy player Hc) as [g Hg].
    rewrite Hg. simpl. apply IH. simpl.
    eapply Forall_impl; [exact Hall|]. intros [cx cy] [z Hz]. simpl in *.
    rewrite (getCell_storeCell _ _ _ _ _ cx cy Hg). case_decide; eauto.
Qed.

Lemma flipDirection_returns (x y player : Z) (d : Z * Z) (b : ReversiBoard) :
  wf b -> d ∈ directions -> exists b', flipDirection x y player b d = Ok b'.
Proof.
  intros Hwf Hd. destruct d as [dx dy]. unfold flipDirection.
  destruct (collect_returns b player dx dy Hwf Hd (x + dx) (y + dy) [])
    as [[[nx ny] flips] Hc]. rewrite Hc. simpl.
  destruct (inBounds b nx ny) eqn:Hin; [|eauto].
  destruct (wf_getCell b nx ny Hwf Hin) as [z ->]. simpl.
  destruct (z =? player); [|eauto].
  apply flipAll_returns. apply collect_inv in Hc as (more & -> & Hmore).
  simpl. eapply Forall_impl; [exact Hmore|]. simpl. eauto.
Qed.

(** A legal move on a well-formed board is accepted, and the board stays
    well formed. *)
Lemma applyMove_returns (b : ReversiBoard) (x y player : Z) :
  wf b -> isValidMove b x y player = Ok true ->
  exists b', applyMove b x y player = Ok (b', true) /\
             wf b' /\ size b' = size b.
Proof.
  intros Hwf Hv. unfold applyMove. rewrite Hv. cbn [bind negb].
  destruct (storeCell_Ok (board b) x y player) as [g Hg].
  { exists 0. now apply isValidMove_true_empty in Hv. }
  rewrite Hg. cbn [bind].
  assert (Hwg : wf (setBoard b g)).
  { destruct Hwf as [Hl Hr]. apply storeCell_length in Hg as [Hl' Hr'].
    split; simpl; [congruence | auto]. }
  destruct (foldM_returns (fun c => wf c /\ size c = size b)
    (flipDirection x y player) directions) with (a := setBoard b g)
    as (b1 & Hb1 & Hw1 & Hs1); [ | auto | ].
  - intros c d Hd [Hwc Hsc].
    destruct (flipDirection_returns x y player d c Hwc Hd) as [c' Hc'].
    exists c'. split; [exact Hc'|].
    apply flipDirection_frame in Hc' as (Hs' & _ & Hw'). split; [auto | congruence].
  - rewrite Hb1. simpl. exists (switchPlayer b1).
    split; [reflexivity|]. split; [exact Hw1 | exact Hs1].
Qed.

Lemma isGameOver_returns (b : ReversiBoard) :
  wf b -> exists r, isGameOver b = Ok r.
Proof.
  intros Hwf. unfold isGameOver.
  destruct (getValidMoves_returns b 1 Hwf) as [black ->]; [lia|].
  destruct (getValidMoves_returns b (-1) Hwf) as [white Hw]; [lia|].
  simpl. destruct (length black =? 0)%nat; [|eauto]. rewrite Hw. simpl. eauto.
Qed.

Lemma gt_keep_finite (a best : number) :
  finite a -> best = NegInfinity \/ finite best ->
  finite (if gt a best then a else best).
Proof.
  intros [z ->] [-> | [w ->]]; simpl; try destruct (_ <? _); eexists; eauto.
Qed.

Lemma lt_keep_finite (a best : number) :
  finite a -> best = Infinity \/ finite best ->
  finite (if lt a best then a else best).
Proof.
  intros [z ->] [-> | [w ->]]; unfold lt; simpl; try destruct (_ <? _);
    eexists; eauto.
Qed.

(** On a well-formed board of an even size of 2 or more, a search at a
    depth [d >= 0] returns a finite score: no read misses the grid and the
    bound on the recursion is not reached. *)
Lemma minimax_returns (n : nat) :
  forall b depth cur maxp,
    wf b -> Z.even (size b) = true -> 2 <= size b ->
    cur = 1 \/ cur = -1 -> 0 <= depth -> Z.to_nat depth = n ->
    exists v, minimax b depth cur maxp = Ok (Finite v).
Proof.
  induction n as [|n IH]; intros b depth cur maxp Hwf He Hs Hcur Hd Hn.
  - assert (depth = 0) as -> by lia. rewrite minimax_depth_0.
    destruct (cornerScore_returns b maxp Hwf) as [s Hsc]; [lia|].
    unfold evaluate. rewrite Hsc. cbn [bind fmap_result]. eauto.
  - unfold minimax. rewrite Hn, minimax_fuel_S.
    destruct (Z.eqb_spec depth 0) as [->|Hne]; [discriminate|].
    destruct (isGameOver_returns b Hwf) as [over ->]. cbn [bind fmap_result].
    destruct over.
    { destruct (cornerScore_returns b maxp Hwf) as [s Hsc]; [lia|].
      unfold evaluate. rewrite Hsc. cbn [bind fmap_result]. eauto. }
    destruct (getValidMoves_returns b cur Hwf) as [moves Hm]; [lia|].
    rewrite Hm. cbn [bind fmap_result].
    assert (Hrec : forall b' cur', wf b' -> size b' = size b ->
      cur' = 1 \/ cur' = -1 ->
      exists v, minimax_fuel (S n) b' (depth - 1) cur' maxp = Ok (Finite v)).
    { intros b' cur' Hw' Hs' Hc'.
      rewrite minimax_fuel_enough by lia.
      apply IH; try rewrite Hs'; auto; lia. }
    destruct moves as [|mv moves]; cbn [length Nat.eqb].
    { apply Hrec; auto. lia. }
    rewrite (clone_returns b He Hs). cbn [bind].
    assert (Hstep : forall x y, (x, y) ∈ mv :: moves ->
      exists r v, applyMove b x y cur = Ok r /\
        minimax_fuel (S n) r.1 (depth - 1) (- cur) maxp = Ok (Finite v)).
    { intros x y Hin. apply (getValidMoves_sound _ _ _ Hm) in Hin as [_ Hv].
      destruct (applyMove_returns b x y cur Hwf Hv) as (b' & Ha & Hw' & Hs').
      destruct (Hrec b' (- cur) Hw' Hs') as [v Hv']; [lia|].
      exists (b', true), v. auto. }
    destruct mv as [x y]. cbn [foldM].
    destruct (Hstep x y) as (r & z & Hr & Hz); [left|].
    rewrite Hr. cbn [bind]. rewrite Hz. cbn [bind].
    assert (Hrest : forall x' y', (x', y') ∈ moves ->
      exists r v, applyMove b x' y' cur = Ok r /\
        minimax_fuel (S n) r.1 (depth - 1) (- cur) maxp = Ok (Finite v)).
    { intros x' y' Hin. apply Hstep. now right. }
    clear Hstep Hm Hr Hz.
    destruct (cur =? maxp).
    + match goal with |- context [foldM ?f moves ?start] =>
        destruct (foldM_returns finite f moves) with (a := start)
          as (v & Hv & [w ->]) end.
      * intros acc [x' y'] Hin Hacc.
        destruct (Hrest x' y' Hin) as (r' & z' & -> & Hz').
        cbn [bind]. rewrite Hz'. cbn [bind].
        eexists. split; [reflexivity|].
        apply gt_keep_finite; [eexists; eauto | now right].
      * simpl. eexists; eauto.
      * rewrite Hv. eauto.
    + match goal with |- context [foldM ?f moves ?start] =>
        destruct (foldM_returns finite f moves) with (a := start)
          as (v & Hv & [w ->]) end.
      * intros acc [x' y'] Hin Hacc.
        destruct (Hrest x' y' Hin) as (r' & z' & -> & Hz').
        cbn [bind]. rewrite Hz'. cbn [bind].
        eexists. split; [reflexivity|].
        apply lt_keep_finite; [eexists; eauto | now right].
      * unfold lt. simpl. eexists; eauto.
      * rewrite Hv. eauto.
Qed.

(** ** Errors of the model *)

Lemma getCell_error (g : list (list Z)) (x y : Z) (e : error) :
  getCell g x y = Err e -> e = TypeError.
Proof.
  unfold getCell. destruct (index g y) as [row|]; [|congruence].
  destruct (index row x); discriminate.
Qed.

Lemma foldM_error {A B : Type} (P : error -> Prop) (f : A -> B -> result A)
    (l : list B) :
  (forall a b e, b ∈ l -> f a b = Err e -> P e) ->
  forall a e, foldM f l a = Err e -> P e.
Proof.
  induction l as [|b l IH]; intros Hstep a e H; cbn [foldM] in H; [discriminate|].
  destruct (f a b) as [a'|e'] eqn:Hf; cbn [bind] in H.
  - eapply IH; [|exact H]. intros ? ? ? Hin. apply Hstep. now right.
  - injection H as <-. eapply Hstep; [left | exact Hf].
Qed.

(** In one of the eight directions the bound on a walk is not reached, on
    any board: a walk can only throw. *)
Lemma walk_error_fuel (b : ReversiBoard) (player dx dy : Z) (e : error) :
  (dx, dy) ∈ directions ->
  forall fuel nx ny found,
    (0 < fuel)%nat ->
    (inBounds b nx ny = true -> room b dx dy nx ny < Z.of_nat fuel) ->
    walk fuel b player dx dy nx ny found = Err e -> e = TypeError.
Proof.
  intros Hd. induction fuel as [|fuel IH]; intros nx ny found Hpos Hroom H; [lia|].
  simpl in H. destruct (inBounds b nx ny) eqn:Hin; [|discriminate].
  destruct (getCell (board b) nx ny) as [v|e'] eqn:Hc; simpl in H.
  - destruct (strictEq v (- player)); [|discriminate].
    destruct (room_step b dx dy Hd nx ny Hin) as [Hr Hs].
    specialize (Hroom eq_refl). eapply IH; [| |exact H]; [lia|].
    intros _. lia.
  - apply getCell_error in Hc. congruence.
Qed.

Lemma walk_error (b : ReversiBoard) (player dx dy nx ny : Z) (found : bool)
    (e : error) :
  (dx, dy) ∈ directions ->
  walk (loopFuel b) b player dx dy nx ny found = Err e -> e = TypeError.
Proof.
  intros Hd. apply walk_error_fuel; [exact Hd | unfold loopFuel; lia |].
  intros Hin. apply (room_step b dx dy Hd) in Hin. unfold loopFuel. lia.
Qed.

Lemma collect_error (b : ReversiBoard) (player dx dy nx ny : Z)
    (flips : list (Z * Z)) (e : error) :
  (dx, dy) ∈ directions ->
  collect (loopFuel b) b player dx dy nx ny flips = Err e -> e = TypeError.
Proof.
  intros Hd H.
  pose proof (collect_walk b player dx dy (loopFuel b) nx ny flips false) as Hw.
  unfold fmap_result in Hw. rewrite H in Hw. cbn [bind] in Hw.
  destruct (walk _ _ _ _ _ _ _ _) as [w|e'] eqn:Hwalk; cbn [bind] in Hw;
    [discriminate Hw|].
  injection Hw as ->. eapply walk_error; eauto.
Qed.

Lemma validInDirections_error (b : ReversiBoard) (x y player : Z)
    (ds : list (Z * Z)) (e : error) :
  ds ⊆ directions ->
  validInDirections b x y player ds = Err e -> e = TypeError.
Proof.
  induction ds as [|[dx dy] ds IH]; intros Hsub; cbn [validInDirections];
    [discriminate|].
  assert (Hd : (dx, dy) ∈ directions) by (apply Hsub; left).
  assert (Hds : ds ⊆ directions) by (intros d Hin; apply Hsub; now right).
  unfold validInDirection.
  destruct (walk _ _ _ _ _ _ _ _) as [[[nx ny] found]|e'] eqn:Hw; cbn [bind].
  2: { intros [= <-]. eapply walk_error; eauto. }
  destruct (found && inBounds b nx ny); cbn [bind].
  - destruct (getCell (board b) nx ny) as [v'|e'] eqn:Hc'; cbn [bind].
    + destruct (strictEq v' player); [discriminate | auto].
    + apply getCell_error in Hc'. congruence.
  - auto.
Qed.

(** [isValidMove] returns or throws a [TypeError], on any board. *)
Lemma isValidMove_error (b : ReversiBoard) (x y player : Z) (e : error) :
  isValidMove b x y player = Err e -> e = TypeError.
Proof.
  unfold isValidMove.
  destruct (getCell (board b) x y) as [v|e'] eqn:Hc; cbn [bind].
  2: { apply getCell_error in Hc. congruence. }
  destruct (negb (strictEq v 0)); [discriminate|].
  now apply validInDirections_error.
Qed.

Lemma flipDirection_error (x y player : Z) (b : ReversiBoard) (d : Z * Z)
    (e : error) :
  d ∈ directions -> flipDirection x y player b d = Err e -> e = TypeError.
Proof.
  intros Hd. destruct d as [dx dy]. unfold flipDirection.
  destruct (collect _ _ _ _ _ _ _ _) as [[[nx ny] flips]|e1] eqn:Hc; cbn [bind].
  2: { intros [= <-]. eapply collect_error; eauto. }
  destruct (inBounds b nx ny); [|discriminate].
  destruct (getCell (board b) nx ny) as [v|e1] eqn:Hg; cbn [bind].
  2: { apply getCell_error in Hg. congruence. }
  destruct (strictEq v player); [|discriminate].
  apply collect_inv in Hc as (more & -> & Hmore). cbn [app].
  destruct (flipAll_returns player more b) as [b' ->]; [|discriminate].
  eapply Forall_impl; [exact Hmore|]. simpl. eauto.
Qed.

(** [applyMove] returns or throws a [TypeError], on any board: its loops
    end, and its stores go to cells of the grid, the one that [isValidMove]
    has read as empty and those that the walk has read as opponent stones. *)
Lemma applyMove_error (b : ReversiBoard) (x y player : Z) (e : error) :
  applyMove b x y player = Err e -> e = TypeError.
Proof.
  unfold applyMove.
  destruct (isValidMove b x y player) as [valid|e'] eqn:Hv; cbn [bind].
  2: { intros [= <-]. eapply isValidMove_error; eauto. }
  destruct valid; cbn [negb]; [|discriminate].
  destruct (storeCell_Ok (board b) x y player) as [g ->].
  { exists 0. exact (isValidMove_true_empty b x y player Hv). }
  cbn [bind].
  destruct (foldM _ directions _) as [b1|e1] eqn:Hf; cbn [bind]; [discriminate|].
  intros [= <-]. revert Hf. apply (foldM_error (fun e => e = TypeError)).
  intros c d e' Hd. now apply flipDirection_error.
Qed.

Lemma getValidMoves_error (b : ReversiBoard) (player : Z) (e : error) :
  getValidMoves b player = Err e -> e = TypeError.
Proof.
  unfold getValidMoves. apply (foldM_error (fun e => e = TypeError)).
  intros acc y e1 _. apply (foldM_error (fun e => e = TypeError)).
  intros acc1 x e2 _.
  destruct (isValidMove b x y player) as [v|e3] eqn:Hv; cbn [bind]; [discriminate|].
  intros [= <-]. eapply isValidMove_error; eauto.
Qed.

Lemma storeCell_negative_row (g : list (list Z)) (x y v : Z) :
  y < 0 -> storeCell g x y v = Err TypeError.
Proof.
  intros Hy. unfold storeCell, index. destruct (Z.ltb_spec y 0); [reflexivity | lia].
Qed.

(** The constructor returns for an even size of 2 or more
    ([constructor_returns]) and throws a [TypeError] for every other size. *)
Lemma constructor_throws (sz : Z) :
  Z.even sz = false \/ sz < 2 -> constructor sz = Err TypeError.
Proof.
  intros Hsz. unfold constructor, init. simpl size.
  destruct (Z.odd sz) eqn:Ho; [reflexivity|].
  rewrite <- Z.negb_even in Ho. apply negb_false_iff in Ho.
  destruct Hsz as [He|Hlt]; [congruence|].
  apply Z.even_spec in Ho as [k Hk].
  assert (Hdiv : sz / 2 = k) by (rewrite Hk, Z.mul_comm, Z.div_mul; lia).
  rewrite Hdiv, storeCell_negative_row by lia. reflexivity.
Qed.

Lemma constructor_error (sz : Z) (e : error) :
  constructor sz = Err e -> e = TypeError.
Proof.
  destruct (Z.even sz) eqn:He; [destruct (Z_le_gt_dec 2 sz) as [Hs|Hs]|].
  - destruct (constructor_returns sz He Hs) as (c & -> & _). discriminate.
  - rewrite constructor_throws by lia. congruence.
  - rewrite constructor_throws by auto. congruence.
Qed.

Lemma evaluate_error (b : ReversiBoard) (player : Z) (e : error) :
  evaluate b player = Err e -> e = TypeError.
Proof.
  unfold evaluate.
  destruct (cornerScore b player) as [sc|e'] eqn:Hc; cbn [bind]; [discriminate|].
  intros [= <-]. revert Hc. unfold cornerScore.
  apply (foldM_error (fun e => e = TypeError)). intros acc [cx cy] e1 _.
  destruct (getCell (board b) cx cy) as [v|e2] eqn:Hg; cbn [bind]; [discriminate|].
  intros [= <-]. eapply getCell_error; eauto.
Qed.

Lemma isGameOver_error (b : ReversiBoard) (e : error) :
  isGameOver b = Err e -> e = TypeError.
Proof.
  unfold isGameOver.
  destruct (getValidMoves b 1) as [black|e1] eqn:H1; cbn [bind].
  2: { intros [= <-]. eapply getValidMoves_error; eauto. }
  destruct (length black =? 0)%nat; [|discriminate].
  destruct (getValidMoves b (-1)) as [white|e1] eqn:H2; cbn [bind]; [discriminate|].
  intros [= <-]. eapply getValidMoves_error; eauto.
Qed.

Lemma clone_error (b : ReversiBoard) (e : error) :
  clone b = Err e -> e = TypeError.
Proof.
  unfold clone.
  destruct (constructor (size b)) as [c|e1] eqn:Hc; cbn [bind]; [discriminate|].
  intros [= <-]. eapply constructor_error; eauto.
Qed.

(** At a depth [d >= 0] the search returns or throws a [TypeError], on any
    board: the bound on its recursion is not reached. *)
Lemma minimax_error (n : nat) :
  forall b depth cur maxp e,
    0 <= depth -> Z.to_nat depth = n ->
    minimax b depth cur maxp = Err e -> e = TypeError.
Proof.
  induction n as [|n IH]; intros b depth cur maxp e Hd Hn.
  - assert (depth = 0) as -> by lia. rewrite minimax_depth_0.
    unfold fmap_result.
    destruct (evaluate b maxp) as [v|e1] eqn:He; cbn [bind]; [discriminate|].
    intros [= <-]. eapply evaluate_error; eauto.
  - unfold minimax. rewrite Hn, minimax_fuel_S.
    destruct (Z.eqb_spec depth 0) as [->|Hne]; [discriminate|].
    destruct (isGameOver b) as [over|e1] eqn:Ho; cbn [bind].
    2: { intros [= <-]. eapply isGameOver_error; eauto. }
    destruct over.
    { unfold fmap_result.
      destruct (evaluate b maxp) as [v|e1] eqn:He; cbn [bind]; [discriminate|].
      intros [= <-]. eapply evaluate_error; eauto. }
    destruct (getValidMoves b cur) as [moves|e1] eqn:Hm; cbn [bind].
    2: { intros [= <-]. eapply getValidMoves_error; eauto. }
    assert (Hrec : forall b' cur' e',
      minimax_fuel (S n) b' (depth - 1) cur' maxp = Err e' -> e' = TypeError).
    { intros b' cur' e'. rewrite minimax_fuel_enough by lia.
      apply IH; lia. }
    destruct (length moves =? 0)%nat; [apply Hrec|].
    destruct (cur =? maxp); apply (foldM_error (fun e => e = TypeError));
      intros acc [x y] e1 _;
      (destruct (clone b) as [tmp|e2] eqn:Hc; cbn [bind];
       [|intros [= <-]; eapply clone_error; eauto]);
      (destruct (applyMove tmp x y cur) as [r|e2] eqn:Ha; cbn [bind];
       [|intros [= <-]; eapply applyMove_error; eauto]);
      (destruct (minimax_fuel (S n) r.1 (depth - 1) (- cur) maxp)
         as [v|e2] eqn:Hr; cbn [bind]; [discriminate|]);
      intros [= <-]; eapply Hrec; eauto.
Qed.

(** ** The boards of the program are well formed *)

Lemma applyMove_rejected (b b' : ReversiBoard) (x y player : Z) :
  applyMove b x y player = Ok (b', false) -> b' = b.
Proof.
  unfold applyMove. intros H. bind_inv H. destruct a; simpl in H.
  - do 2 bind_inv H. discriminate.
  - congruence.
Qed.

Lemma reachable_wf (b : ReversiBoard) :
  reachable b -> wf b /\ Z.even (size b) = true /\ 2 <= size b.
Proof.
  induction 1 as [sz b Hc | b b' x y player r _ IH Hm | b _ IH].
  - destruct (Z.even sz) eqn:He; [destruct (Z_le_gt_dec 2 sz) as [Hs|Hs]|].
    + destruct (constructor_returns sz He Hs) as (c & Hc' & Hsz & Hw).
      assert (c = b) as -> by congruence. rewrite Hsz. auto.
    + rewrite constructor_throws in Hc by lia. discriminate.
    + rewrite constructor_throws in Hc by auto. discriminate.
  - destruct r.
    + apply applyMove_frame in Hm as (Hs & _ & Hw). rewrite Hs.
      destruct IH as (? & ? & ?). auto.
    + apply applyMove_rejected in Hm as ->. exact IH.
  - exact IH.
Qed.

(** ** Stores through references *)

Example clone_then_move :
  exists h0 h1 h2,
    constructorH emptyHeap 8 = Ok (h0, 0%nat) /\
    cloneH h0 0 = Ok (h1, 1%nat) /\
    applyMoveH h1 1 3 2 1 = Ok (h2, true) /\
    deref h2 0 = Ok start8 /\
    fmap_result (fun b => countStones b) (deref h2 1) = Ok (4, 1).
Proof. do 3 eexists. repeat split; vm_compute; reflexivity. Qed.

Lemma touches_refl (refs : list nat) (h : heap) : touches refs h h.
Proof. split; auto. Qed.

Lemma touches_trans (refs : list nat) (h1 h2 h3 : heap) :
  touches refs h1 h2 -> touches refs h2 h3 -> touches refs h1 h3.
Proof.
  intros [Hl1 Hf1] [Hl2 Hf2]. split; [congruence|].
  intros a Ha. rewrite Hf2, Hf1; auto.
Qed.

Lemma wfObject_touches (refs : list nat) (h h' : heap) (o : object) :
  touches refs h h' -> wfObject h o -> wfObject h' o.
Proof. intros [Hl _] [Hnd Hall]. split; [exact Hnd|]. now rewrite Hl. Qed.

(** Rows that were not touched denote the same grid. *)
Lemma rowsOf_touches (refs rs : list nat) (h h' : heap) :
  touches refs h h' -> (forall a, a ∈ rs -> a ∉ refs) ->
  rowsOf h' rs = rowsOf h rs.
Proof.
  intros [_ Hf] Hdisj. unfold rowsOf. apply list_fmap_ext.
  intros i a Ha. rewrite Hf; [reflexivity|].
  apply Hdisj. eapply list_elem_of_lookup_2; eauto.
Qed.

(** A store into one row of a board is a store into the grid it denotes. *)
Lemma rowsOf_insert (h : heap) (rs : list nat) (j a : nat) (row : list Z) :
  NoDup rs -> rs !! j = Some a -> (a < length (arrays h))%nat ->
  rowsOf {| arrays := <[a := row]> (arrays h); objects := objects h |} rs
  = <[j := row]> (rowsOf h rs).
Proof.
  intros Hnd Hj Ha. unfold rowsOf. simpl. apply list_eq. intros i.
  destruct (decide (i = j)) as [->|Hne].
  - rewrite list_lookup_insert_eq
      by (rewrite length_fmap; eapply lookup_lt_Some; eauto).
    rewrite list_lookup_fmap, Hj. simpl.
    rewrite list_lookup_insert_eq by exact Ha. reflexivity.
  - rewrite list_lookup_insert_ne by auto. rewrite !list_lookup_fmap.
    destruct (rs !! i) as [a'|] eqn:Hi; simpl; [|reflexivity].
    rewrite list_lookup_insert_ne; [reflexivity|].
    intros ->. apply Hne. symmetry. eapply NoDup_lookup; eauto.
Qed.

Lemma getObject_Ok (h : heap) (this : nat) (o : object) :
  getObject h this = Ok o <-> objects h !! this = Some o.
Proof.
  unfold getObject. destruct (objects h !! this); split; congruence.
Qed.

(** What a store that returns has done. *)
Lemma storeCellH_inv (h h' : heap) (this : nat) (x y v : Z) :
  storeCellH h this x y v = Ok h' ->
  exists o a row,
    objects h !! this = Some o /\ a ∈ o_board o /\
    arrays h !! a = Some row /\
    h' = {| arrays := <[a := <[Z.to_nat x := v]> row]> (arrays h);
            objects := objects h |}.
Proof.
  unfold storeCellH. intros H. bind_inv H. apply getObject_Ok in Ha.
  destruct (index (o_board a) y) as [r|] eqn:Hy; [|discriminate].
  destruct (arrays h !! r) as [row|] eqn:Hr; [|discriminate].
  destruct (index row x); [|discriminate]. injection H as <-.
  exists a, r, row. split; [exact Ha|]. split; [|auto].
  apply index_Some in Hy as [_ Hy]. eapply list_elem_of_lookup_2; eauto.
Qed.

Lemma storeCellH_touches (h h' : heap) (this : nat) (o : object) (x y v : Z) :
  objects h !! this = Some o -> storeCellH h this x y v = Ok h' ->
  touches (o_board o) h h' /\ objects h' = objects h.
Proof.
  intros Ho H. apply storeCellH_inv in H as (o' & a & row & Ho' & Ha & Hr & ->).
  assert (o' = o) as -> by congruence. simpl. split; [|reflexivity].
  split; simpl; [apply length_insert|].
  intros a' Ha'. apply list_lookup_insert_ne. intros ->. contradiction.
Qed.

Lemma index_rowsOf (h : heap) (rs : list nat) (y : Z) :
  index (rowsOf h rs) y = (fun a => default [] (arrays h !! a)) <$> index rs y.
Proof.
  unfold index, rowsOf. destruct (y <? 0); [reflexivity|].
  apply list_lookup_fmap.
Qed.

(** The store on the heap and the store on the grid agree. *)
Lemma storeCellH_sim (h : heap) (this : nat) (o : object) (x y v : Z) :
  holds h this o ->
  match storeCell (rowsOf h (o_board o)) x y v with
  | Ok g => exists h', storeCellH h this x y v = Ok h' /\
                       rowsOf h' (o_board o) = g
  | Err e => storeCellH h this x y v = Err e
  end.
Proof.
  intros [Ho [Hnd Hall]]. unfold storeCell, storeCellH.
  apply getObject_Ok in Ho as Hget. rewrite Hget. simpl.
  rewrite index_rowsOf.
  destruct (index (o_board o) y) as [a|] eqn:Hy; simpl; [|reflexivity].
  apply index_Some in Hy as [_ Hy].
  assert (Ha : (a < length (arrays h))%nat).
  { eapply Forall_lookup_1 in Hall; eauto. }
  destruct (lookup_lt_is_Some_2 _ _ Ha) as [row Hrow]. rewrite Hrow. simpl.
  destruct (index row x); [|reflexivity].
  eexists. split; [reflexivity|]. now apply rowsOf_insert.
Qed.

(** ** The calls on the heap and on the board they denote *)

Lemma deref_holds (h : heap) (this : nat) (o : object) :
  holds h this o -> deref h this = Ok (view h o).
Proof.
  intros [Ho _]. unfold deref. apply getObject_Ok in Ho. now rewrite Ho.
Qed.

Lemma sim_step (h h1 : heap) (this : nat) (o : object)
    (pure : result ReversiBoard) (impl : result heap) :
  touches (o_board o) h h1 -> objects h1 = objects h ->
  sim h1 this o pure impl -> sim h this o pure impl.
Proof.
  intros Ht Ho. unfold sim. destruct pure as [b'|e]; [|auto].
  intros (h' & Hi & Hh & Hv & Ht' & Ho'). exists h'.
  split; [exact Hi|]. split; [exact Hh|]. split; [exact Hv|].
  split; [eapply touches_trans; eauto | congruence].
Qed.

Lemma storeCellH_holds (h : heap) (this : nat) (o : object) (x y v : Z) :
  holds h this o ->
  match storeCell (board (view h o)) x y v with
  | Ok g => exists h', storeCellH h this x y v = Ok h' /\
                       holds h' this o /\ view h' o = setBoard (view h o) g /\
                       touches (o_board o) h h' /\ objects h' = objects h
  | Err e => storeCellH h this x y v = Err e
  end.
Proof.
  intros Hh. pose proof (storeCellH_sim h this o x y v Hh) as H. simpl.
  destruct (storeCell _ _ _ _) as [g|e]; [|exact H].
  destruct H as (h' & Hs & Hg). exists h'. split; [exact Hs|].
  destruct Hh as [Ho Hw].
  destruct (storeCellH_touches h h' this o x y v Ho Hs) as [Ht Hobj].
  split; [split; [congruence | eapply wfObject_touches; eauto]|].
  split; [|auto]. unfold view, setBoard. simpl. now rewrite Hg.
Qed.

Lemma flipAllH_sim (this : nat) (o : object) (player : Z) (flips : list (Z * Z)) :
  forall h, holds h this o ->
    sim h this o (flipAll (view h o) player flips) (flipAllH this player flips h).
Proof.
  unfold flipAll, flipAllH.
  induction flips as [|[fx fy] flips IH]; intros h Hh; simpl.
  - exists h. split; [reflexivity|]. split; [exact Hh|]. split; [reflexivity|].
    split; [apply touches_refl | reflexivity].
  - pose proof (storeCellH_holds h this o fx fy player Hh) as H.
    destruct (storeCell _ _ _ _) as [g|e]; simpl; [|rewrite H; reflexivity].
    destruct H as (h1 & -> & Hh1 & Hv1 & Ht1 & Ho1). simpl.
    rewrite <- Hv1. eapply sim_step; eauto.
Qed.

Lemma flipDirectionH_sim (this : nat) (o : object) (x y player : Z) (d : Z * Z)
    (h : heap) :
  holds h this o ->
  sim h this o (flipDirection x y player (view h o) d)
               (flipDirectionH this x y player h d).
Proof.
  intros Hh. unfold flipDirection, flipDirectionH.
  rewrite (deref_holds h this o Hh). cbn [bind]. destruct d as [dx dy].
  assert (Hid : sim h this o (Ok (view h o)) (Ok h)).
  { exists h. split; [reflexivity|]. split; [exact Hh|]. split; [reflexivity|].
    split; [apply touches_refl | reflexivity]. }
  destruct (collect _ _ _ _ _ _ _ _) as [[[nx ny] flips]|e]; cbn [bind];
    [|reflexivity].
  destruct (inBounds _ _ _); [|exact Hid].
  destruct (getCell _ _ _) as [v|e]; cbn [bind]; [|reflexivity].
  destruct (strictEq v player); [|exact Hid].
  now apply flipAllH_sim.
Qed.

Lemma flipDirectionsH_sim (this : nat) (o : object) (x y player : Z)
    (ds : list (Z * Z)) :
  forall h, holds h this o ->
    sim h this o (foldM (flipDirection x y player) ds (view h o))
                 (foldM (flipDirectionH this x y player) ds h).
Proof.
  induction ds as [|d ds IH]; intros h Hh; cbn [foldM].
  - exists h. split; [reflexivity|]. split; [exact Hh|]. split; [reflexivity|].
    split; [apply touches_refl | reflexivity].
  - pose proof (flipDirectionH_sim this o x y player d h Hh) as H.
    unfold sim in H. destruct (flipDirection _ _ _ _ _) as [b1|e]; cbn [bind].
    + destruct H as (h1 & -> & Hh1 & <- & Ht1 & Ho1). cbn [bind].
      eapply sim_step; eauto.
    + rewrite H. reflexivity.
Qed.

(** [applyMove] on the heap is [applyMove] on the board that [this]
    denotes. *)
Lemma applyMoveH_sim (h : heap) (this : nat) (o : object) (x y player : Z) :
  holds h this o ->
  match applyMove (view h o) x y player with
  | Ok (b', r) =>
      exists h', applyMoveH h this x y player = Ok (h', r) /\ after h this o b' h'
  | Err e => applyMoveH h this x y player = Err e
  end.
Proof.
  intros Hh. unfold applyMove, applyMoveH.
  rewrite (deref_holds h this o Hh). cbn [bind].
  destruct (isValidMove _ _ _ _) as [valid|e]; cbn [bind]; [|reflexivity].
  destruct valid; cbn [negb].
  - pose proof (storeCellH_holds h this o x y player Hh) as H.
    destruct (storeCell _ _ _ _) as [g|e]; cbn [bind]; [|rewrite H; reflexivity].
    destruct H as (h1 & -> & Hh1 & Hv1 & Ht1 & Ho1). cbn [bind].
    pose proof (flipDirectionsH_sim this o x y player directions h1 Hh1) as H.
    rewrite Hv1 in H. unfold sim in H.
    destruct (foldM (flipDirection x y player) _ _) as [b2|e]; cbn [bind];
      [|rewrite H; reflexivity].
    destruct H as (h2 & -> & [Hobj2 Hw2] & <- & Ht2 & Ho2). cbn [bind].
    unfold switchPlayerH. apply getObject_Ok in Hobj2 as Hget. rewrite Hget.
    cbn [bind]. eexists. split; [reflexivity|].
    eexists. split; [split|].
    + simpl. apply list_lookup_insert_eq. eapply lookup_lt_Some; eauto.
    + exact Hw2.
    + split; [reflexivity|]. split; [reflexivity|]. split.
      * eapply touches_trans; eauto.
      * intros that Hne. simpl. rewrite list_lookup_insert_ne by auto.
        congruence.
  - exists h. split; [reflexivity|]. exists o. split; [exact Hh|].
    split; [reflexivity|]. split; [reflexivity|].
    split; [apply touches_refl | auto].
Qed.

Lemma after_trans (h h1 h2 : heap) (this : nat) (o o1 : object)
    (b1 b2 : ReversiBoard) :
  holds h1 this o1 -> o_board o1 = o_board o ->
  touches (o_board o) h h1 ->
  (forall that, that <> this -> objects h1 !! that = objects h !! that) ->
  after h1 this o1 b2 h2 -> after h this o b2 h2.
Proof.
  intros Hh1 Hb Ht Hf (o2 & Hh2 & Hv2 & Hb2 & Ht2 & Hf2). exists o2.
  split; [exact Hh2|]. split; [exact Hv2|]. split; [congruence|]. split.
  - eapply touches_trans; [exact Ht|]. now rewrite <- Hb.
  - intros that Hne. rewrite Hf2, Hf; auto.
Qed.

(** A sequence of moves on the heap is the sequence on the board that
    [this] denotes. *)
Lemma playH_sim (moves : list (Z * Z * Z)) :
  forall h this o, holds h this o ->
    match play (view h o) moves with
    | Ok (b', rs) =>
        exists h', playH h this moves = Ok (h', rs) /\ after h this o b' h'
    | Err e => playH h this moves = Err e
    end.
Proof.
  induction moves as [|[[x y] player] moves IH]; intros h this o Hh;
    cbn [play playH].
  - exists h. split; [reflexivity|]. exists o. split; [exact Hh|].
    split; [reflexivity|]. split; [reflexivity|].
    split; [apply touches_refl | auto].
  - pose proof (applyMoveH_sim h this o x y player Hh) as H.
    destruct (applyMove _ _ _ _) as [[b1 r]|e]; cbn [bind];
      [|rewrite H; reflexivity].
    destruct H as (h1 & -> & o1 & Hh1 & <- & Hb1 & Ht1 & Hf1). cbn [bind fst snd].
    specialize (IH h1 this o1 Hh1).
    destruct (play _ _) as [[b2 rs]|e]; cbn [bind fst snd];
      [|rewrite IH; reflexivity].
    destruct IH as (h2 & -> & Haft). cbn [bind fst snd].
    exists h2. split; [reflexivity|]. eapply after_trans; eauto.
Qed.

(** A board whose rows are none of [this]'s rows is the same board after a
    call on [this]. *)
Lemma after_other (h h' : heap) (this that : nat) (o o2 : object)
    (b' : ReversiBoard) :
  after h this o b' h' ->
  that <> this -> holds h that o2 ->
  (forall a, a ∈ o_board o2 -> a ∉ o_board o) ->
  holds h' that o2 /\ view h' o2 = view h o2.
Proof.
  intros (o' & _ & _ & _ & Ht & Hf) Hne [Ho2 Hw2] Hdisj. split.
  - split; [rewrite Hf; auto | eapply wfObject_touches; eauto].
  - unfold view. f_equal. eapply rowsOf_touches; eauto.
Qed.

(** ** Duplication *)

(** [new ReversiBoard(size)] adds one object and rows; what was in the heap
    stays as it was. *)
Lemma constructorH_inv (h h1 : heap) (sz : Z) (c : nat) :
  constructorH h sz = Ok (h1, c) ->
  c = length (objects h) /\
  (exists o0, objects h1 = objects h ++ [o0] /\ o_size o0 = sz) /\
  (length (arrays h) <= length (arrays h1))%nat /\
  forall a, (a < length (arrays h))%nat -> arrays h1 !! a = arrays h !! a.
Proof.
  unfold constructorH, initH.
  set (o0 := {| o_size := sz; o_board := seq (length (arrays h)) (Z.to_nat sz);
                o_currentPlayer := 1 |}).
  set (h0 := {| arrays := arrays h ++ _; objects := objects h ++ [o0] |}).
  intros H. bind_inv H. injection H as <- <-. bind_inv Ha.
  assert (Ho0 : objects h0 !! length (objects h) = Some o0).
  { simpl. rewrite lookup_app_r by lia. now rewrite Nat.sub_diag. }
  apply getObject_Ok in Ha0. assert (a0 = o0) as -> by congruence.
  destruct (Z.odd (o_size o0)); [discriminate|].
  do 3 bind_inv Ha.
  destruct (storeCellH_touches _ _ _ o0 _ _ _ Ho0 Ha1) as [T1 O1].
  rewrite <- O1 in Ho0.
  destruct (storeCellH_touches _ _ _ o0 _ _ _ Ho0 Ha2) as [T2 O2].
  rewrite <- O2 in Ho0.
  destruct (storeCellH_touches _ _ _ o0 _ _ _ Ho0 Ha3) as [T3 O3].
  rewrite <- O3 in Ho0.
  destruct (storeCellH_touches _ _ _ o0 _ _ _ Ho0 Ha) as [T4 O4].
  pose proof (touches_trans _ _ _ _ (touches_trans _ _ _ _
    (touches_trans _ _ _ _ T1 T2) T3) T4) as [Hlen Hf].
  split; [reflexivity|]. split.
  { exists o0. split; [|reflexivity]. rewrite O4, O3, O2, O1. reflexivity. }
  split.
  { rewrite Hlen. simpl. rewrite length_app. lia. }
  intros r Hlt. rewrite Hf.
  - simpl. now apply lookup_app_l.
  - simpl. rewrite elem_of_seq. lia.
Qed.

(** What [clone()] returns: a new object that denotes the same board as
    [this], made of rows that are not rows of [this]. *)
Lemma cloneH_inv (h h1 : heap) (this copy : nat) (o : object) :
  holds h this o -> cloneH h this = Ok (h1, copy) ->
  copy <> this /\
  exists oc, holds h1 copy oc /\ holds h1 this o /\
             view h1 oc = view h o /\ view h1 o = view h o /\
             forall a, a ∈ o_board oc -> a ∉ o_board o.
Proof.
  intros [Ho [Hnd Hall]] H. unfold cloneH in H.
  apply getObject_Ok in Ho as Hget. rewrite Hget in H. cbn [bind] in H.
  bind_inv H. destruct a as [hc c]. bind_inv H. injection H as <- <-.
  apply constructorH_inv in Ha as (-> & (o0 & Hobj & Hsz) & Hlen & Hold).
  apply getObject_Ok in Ha0.
  assert (Hthis : (this < length (objects h))%nat)
    by (eapply lookup_lt_Some; eauto).
  assert (a = o0) as ->.
  { rewrite Hobj, lookup_app_r, Nat.sub_diag in Ha0 by lia. simpl in Ha0.
    congruence. }
  assert (Hrows : rowsOf hc (o_board o) = rowsOf h (o_board o)).
  { unfold rowsOf. apply list_fmap_ext. intros i a Hi.
    rewrite Hold; [reflexivity|]. eapply Forall_lookup_1 in Hall; eauto. }
  rewrite list_fmap_id, Hrows.
  set (oc := {| o_size := o_size o0;
                o_board := seq (length (arrays hc)) (length (rowsOf h (o_board o)));
                o_currentPlayer := o_currentPlayer o |}).
  split; [lia|]. exists oc. split; [|split; [|split; [|split]]].
  - split; simpl.
    + apply list_lookup_insert_eq. rewrite Hobj, length_app. simpl. lia.
    + split; simpl; [apply NoDup_seq|].
      apply Forall_forall. intros a Ha. apply elem_of_seq in Ha.
      rewrite length_app. lia.
  - split; simpl.
    + rewrite list_lookup_insert_ne by lia. rewrite Hobj.
      now rewrite lookup_app_l by lia.
    + split; [exact Hnd|]. eapply Forall_impl; [exact Hall|].
      simpl. intros a Ha. rewrite length_app. lia.
  - unfold view. simpl. rewrite Hsz. destruct o as [osz obd ocur]. simpl.
    f_equal. unfold rowsOf at 1. simpl. apply list_eq. intros i.
    rewrite list_lookup_fmap.
    destruct (decide (i < length (rowsOf h obd))%nat) as [Hi|Hi].
    + rewrite lookup_seq_lt by exact Hi. simpl.
      rewrite lookup_app_r by lia.
      replace (length (arrays hc) + i - length (arrays hc))%nat with i by lia.
      destruct (lookup_lt_is_Some_2 _ _ Hi) as [row Hrow]. now rewrite Hrow.
    + rewrite lookup_ge_None_2 by (rewrite length_seq; lia). simpl.
      symmetry. apply lookup_ge_None_2. lia.
  - unfold view. f_equal. unfold rowsOf. simpl. apply list_fmap_ext.
    intros i a Hi. eapply Forall_lookup_1 in Hall; eauto. simpl in Hall.
    rewrite lookup_app_l by lia. now rewrite Hold.
  - simpl. intros a Ha Hin. apply elem_of_seq in Ha.
    eapply Forall_forall in Hall; eauto. simpl in Hall. lia.
Qed.

(** What the duplicate denotes right after [clone()]. *)
Lemma cloneH_denotes (h h1 : heap) (this copy : nat) (o : object) :
  holds h this o -> cloneH h this = Ok (h1, copy) ->
  copy <> this /\ deref h1 copy = Ok (view h o).
Proof.
  intros Hh Hc.
  destruct (cloneH_inv h h1 this copy o Hh Hc) as (Hne & oc & Hhc & _ & Hvc & _).
  split; [exact Hne|]. rewrite (deref_holds _ _ _ Hhc). congruence.
Qed.

(** The rows that the constructor allocates denote the grid of zeros. *)
Lemma rowsOf_fresh (h : heap) (rows : list (list Z)) :
  rowsOf {| arrays := arrays h ++ rows; objects := objects h |}
         (seq (length (arrays h)) (length rows)) = rows.
Proof.
  unfold rowsOf. simpl. apply list_eq. intros i. rewrite list_lookup_fmap.
  destruct (decide (i < length rows)%nat) as [Hi|Hi].
  - rewrite lookup_seq_lt by exact Hi. simpl. rewrite lookup_app_r by lia.
    replace (length (arrays h) + i - length (arrays h))%nat with i by lia.
    destruct (lookup_lt_is_Some_2 _ _ Hi) as [row Hrow]. now rewrite Hrow.
  - rewrite lookup_ge_None_2 by (rewrite length_seq; lia). simpl.
    symmetry. apply lookup_ge_None_2. lia.
Qed.

(** [new ReversiBoard(size)] on the heap returns when the constructor on
    values returns, an object that denotes the board it returns, and throws
    when it throws. *)
Lemma constructorH_sim (h : heap) (sz : Z) :
  match constructor sz with
  | Ok b => exists h1 c o0, constructorH h sz = Ok (h1, c) /\
                            holds h1 c o0 /\ view h1 o0 = b
  | Err e => constructorH h sz = Err e
  end.
Proof.
  unfold constructor, constructorH, init, initH.
  set (n := Z.to_nat sz).
  set (o0 := {| o_size := sz; o_board := seq (length (arrays h)) n;
                o_currentPlayer := 1 |}).
  set (h0 := {| arrays := arrays h ++ replicate n (replicate n 0);
                objects := objects h ++ [o0] |}).
  set (this := length (objects h)).
  assert (Hh0 : holds h0 this o0).
  { split; [|split].
    - simpl. unfold this. rewrite lookup_app_r by lia. now rewrite Nat.sub_diag.
    - apply NoDup_seq.
    - apply Forall_forall. intros a Ha. apply elem_of_seq in Ha. simpl.
      rewrite length_app, length_replicate. lia. }
  assert (Hv0 : view h0 o0 = {| size := sz; board := replicate n (replicate n 0);
                                currentPlayer := 1 |}).
  { unfold view. simpl. f_equal.
    pose proof (rowsOf_fresh {| arrays := arrays h; objects := objects h ++ [o0] |}
                  (replicate n (replicate n 0))) as H.
    simpl in H. rewrite length_replicate in H. exact H. }
  rewrite (proj2 (getObject_Ok h0 this o0) (proj1 Hh0)). cbn [bind].
  simpl size. change (o_size o0) with sz. cbv zeta.
  destruct (Z.odd sz); [reflexivity|].
  simpl board.
  pose proof (storeCellH_holds h0 this o0 (sz / 2 - 1) (sz / 2 - 1) (-1) Hh0) as H1.
  rewrite Hv0 in H1. simpl board in H1.
  destruct (storeCell (replicate n (replicate n 0)) _ _ _) as [g1|e]; cbn [bind];
    [|now rewrite H1].
  destruct H1 as (h1 & -> & Hh1 & Hv1 & _). cbn [bind].
  pose proof (storeCellH_holds h1 this o0 (sz / 2) (sz / 2) (-1) Hh1) as H2.
  rewrite Hv1 in H2. simpl board in H2.
  destruct (storeCell g1 _ _ _) as [g2|e]; cbn [bind]; [|now rewrite H2].
  destruct H2 as (h2 & -> & Hh2 & Hv2 & _). cbn [bind].
  pose proof (storeCellH_holds h2 this o0 (sz / 2) (sz / 2 - 1) 1 Hh2) as H3.
  rewrite Hv2 in H3. simpl board in H3.
  destruct (storeCell g2 _ _ _) as [g3|e]; cbn [bind]; [|now rewrite H3].
  destruct H3 as (h3 & -> & Hh3 & Hv3 & _). cbn [bind].
  pose proof (storeCellH_holds h3 this o0 (sz / 2 - 1) (sz / 2) 1 Hh3) as H4.
  rewrite Hv3 in H4. simpl board in H4.
  destruct (storeCell g3 _ _ _) as [g4|e]; cbn [bind]; [|now rewrite H4].
  destruct H4 as (h4 & -> & Hh4 & Hv4 & _). cbn [bind].
  exists h4, this, o0. split; [reflexivity|]. split; [exact Hh4|].
  rewrite Hv4. reflexivity.
Qed.

(** [clone()] on the heap returns exactly when [clone()] on the board value
    returns. *)
Lemma cloneH_sim (h : heap) (this : nat) (o : object) :
  holds h this o ->
  match clone (view h o) with
  | Ok b' => exists h1 copy, cloneH h this = Ok (h1, copy) /\ deref h1 copy = Ok b'
  | Err e => cloneH h this = Err e
  end.
Proof.
  intros Hh. unfold clone. simpl size.
  pose proof (constructorH_sim h (o_size o)) as Hc.
  destruct (constructor (o_size o)) as [c|e] eqn:Hcon; cbn [bind].
  - destruct Hc as (h1 & copy & o0 & Hc & [Ho0 Hw0] & Hv0).
    destruct (cloneH h this) as [[h2 copy']|e] eqn:Hclone.
    + destruct (cloneH_denotes h h2 this copy' o Hh Hclone) as [_ Hd].
      exists h2, copy'. split; [reflexivity|]. rewrite Hd.
      apply constructor_size in Hcon. rewrite Hcon, map_id.
      unfold view. reflexivity.
    + exfalso. unfold cloneH in Hclone.
      rewrite (proj2 (getObject_Ok h this o) (proj1 Hh)) in Hclone.
      cbn [bind] in Hclone. rewrite Hc in Hclone. cbn [bind] in Hclone.
      rewrite (proj2 (getObject_Ok h1 copy o0) Ho0) in Hclone. discriminate.
  - unfold cloneH. rewrite (proj2 (getObject_Ok h this o) (proj1 Hh)).
    cbn [bind]. rewrite Hc. reflexivity.
Qed.

(** C9. [clone()] returns a new object that denotes the same grid, size and
    [currentPlayer] as the original. The same sequence of moves applied to the
    duplicate and to the original returns the same values and leaves the two
    objects with identical grids and [currentPlayer]; the moves on the
    duplicate do not change the original, nor the moves on the original the
    duplicate: no row is shared. *)
Theorem clone_is_deep_copy (h h1 : heap) (this copy : nat) (o : object) :
  holds h this o ->
  cloneH h this = Ok (h1, copy) ->
  copy <> this /\
  deref h1 copy = Ok (view h o) /\ deref h1 this = Ok (view h o) /\
  forall moves h2 rs,
    playH h1 copy moves = Ok (h2, rs) ->
    deref h2 this = Ok (view h o) /\
    exists h3 b',
      playH h2 this moves = Ok (h3, rs) /\
      deref h3 this = Ok b' /\ deref h3 copy = Ok b' /\ deref h2 copy = Ok b'.
Proof.
  intros Hh Hc.
  destruct (cloneH_inv h h1 this copy o Hh Hc)
    as (Hne & oc & Hhc & Hht & Hvc & Hvt & Hdisj).
  split; [exact Hne|].
  split; [rewrite (deref_holds _ _ _ Hhc); congruence|].
  split; [rewrite (deref_holds _ _ _ Hht); congruence|].
  intros moves h2 rs Hplay.
  pose proof (playH_sim moves h1 copy oc Hhc) as Hsim.
  rewrite Hvc in Hsim.
  destruct (play (view h o) moves) as [[b' rs']|e] eqn:Hpure;
    [|congruence].
  destruct Hsim as (h2' & Hplay' & Haft).
  assert (h2' = h2 /\ rs' = rs) as [-> ->] by (split; congruence).
  destruct (after_other _ _ _ _ _ _ _ Haft (not_eq_sym Hne) Hht)
    as [Hht2 Hvt2].
  { intros a Ha Hin. eapply Hdisj; eauto. }
  split; [rewrite (deref_holds _ _ _ Hht2); congruence|].
  pose proof (playH_sim moves h2 this o Hht2) as Hsim2.
  rewrite Hvt2, Hvt, Hpure in Hsim2. destruct Hsim2 as (h3 & Hplay3 & Haft3).
  exists h3, b'. split; [exact Hplay3|].
  destruct Haft as (oc' & Hhc2 & Hvc2 & Hbc & _).
  destruct (after_other _ _ _ _ _ _ _ Haft3 Hne Hhc2) as [Hhc3 Hvc3].
  { intros a Ha. apply Hdisj. now rewrite <- Hbc. }
  destruct Haft3 as (o3 & Hh3 & Hv3 & _).
  split; [rewrite (deref_holds _ _ _ Hh3); congruence|].
  split; [rewrite (deref_holds _ _ _ Hhc3); congruence|].
  rewrite (deref_holds _ _ _ Hhc2); congruence.
Qed.

(** ** Coordinates outside the grid *)

(** A column outside the grid: the read of line 38 yields [undefined], which
    is not [0], and the call returns [false]. *)
Lemma isValidMove_column_outside (b : ReversiBoard) (x y player : Z) :
  wf b -> 0 <= y < size b -> ~ 0 <= x < size b ->
  isValidMove b x y player = Ok false.
Proof.
  intros [Hlen Hrows] Hy Hx. unfold isValidMove, getCell.
  destruct (index_lt (board b) y) as [row Hrow]; [lia|]. rewrite Hrow.
  assert (Hr : length row = Z.to_nat (size b)).
  { apply index_Some in Hrow as [_ Hrow].
    eapply Forall_lookup_1 in Hrows; eauto. }
  assert (index row x = None) as ->; [|reflexivity].
  unfold index. destruct (Z.ltb_spec x 0); [reflexivity|].
  apply lookup_ge_None_2. lia.
Qed.

(** A row outside the grid: [this.board[y]] is [undefined] and line 38
    throws. *)
Lemma isValidMove_row_outside (b : ReversiBoard) (x y player : Z) :
  wf b -> ~ 0 <= y < size b -> isValidMove b x y player = Err TypeError.
Proof.
  intros [Hlen _] Hy. unfold isValidMove, getCell.
  assert (index (board b) y = None) as ->; [|reflexivity].
  unfold index. destruct (Z.ltb_spec y 0); [reflexivity|].
  apply lookup_ge_None_2. lia.
Qed.

(** C2, at the input where the code departs from it: on the start position
    [isValidMove(0, 8, 1)] and [isValidMove(0, -1, 1)] throw a [TypeError];
    they do not return [false]. *)
Theorem isValidMove_outside_rows_throws :
  isValidMove start8 0 8 1 = Err TypeError /\
  isValidMove start8 0 (-1) 1 = Err TypeError.
Proof. split; reflexivity. Qed.

(** The other two parts of C2 hold: for a column outside the grid the call
    returns [false], and [getValidMoves] lists cells of the grid only. *)
Lemma getValidMoves_inBounds (b : ReversiBoard) (player : Z) (moves : list (Z * Z)) :
  getValidMoves b player = Ok moves ->
  forall x y, (x, y) ∈ moves -> 0 <= x < size b /\ 0 <= y < size b.
Proof.
  intros H x y Hin. apply (getValidMoves_sound _ _ _ H) in Hin as [Hin _].
  now apply inBounds_true in Hin.
Qed.

(** ** The tests of the specification on concrete boards *)

Lemma wf_start8 : wf start8.
Proof. split; [reflexivity|]. repeat constructor. Qed.

(** Scenario 2 of the tests. *)
Example start8_opening :
  applyMove start8 3 2 1 = Ok (start8_black_3_2, true) /\
  countStones start8_black_3_2 = (4, 1).
Proof. split; vm_compute; reflexivity. Qed.

(** Scenario 3 of the tests. *)
Example whitePasses_not_over :
  isGameOver whitePasses = Ok false /\
  getValidMoves whitePasses (-1) = Ok [] /\
  getBestMove (fun _ => 0%nat) (mkAI Minimax 3) whitePasses (-1) = Ok None.
Proof. repeat split; vm_compute; reflexivity. Qed.

(** C1 as stated fails: on the start position, where [currentPlayer] is 1,
    the accepted move [applyMove(4, 2, -1)] leaves [currentPlayer] at -1,
    which is not the opponent of the mover -1. *)
Lemma applyMove_currentPlayer_counterexample :
  applyMove start8 4 2 (-1) = Ok (start8_white_4_2, true) /\
  currentPlayer start8_white_4_2 <> - (-1).
Proof. split; [vm_compute; reflexivity | discriminate]. Qed.

(** ** Instances *)

Lemma applyMove_switches_currentPlayer_witness :
  currentPlayer start8_black_3_2 = - currentPlayer start8 /\
  (currentPlayer start8_black_3_2 = - 1 <-> currentPlayer start8 = 1).
Proof.
  apply (applyMove_switches_currentPlayer start8 start8_black_3_2 3 2 1).
  vm_compute. reflexivity.
Defined.

Lemma applyMove_illegal_unchanged_witness :
  applyMove start8 0 0 1 = Ok (start8, false).
Proof.
  apply (applyMove_illegal_unchanged start8 0 0 1).
  - exact wf_start8.
  - left. reflexivity.
  - reflexivity.
  - vm_compute. discriminate.
Defined.

Lemma applyMove_stone_counts_witness :
  stonesOf start8 1 < stonesOf start8_black_3_2 1 /\
  totalStones start8_black_3_2 = totalStones start8 + 1.
Proof.
  apply (applyMove_stone_counts 1 (or_introl eq_refl) start8 start8_black_3_2 3 2).
  vm_compute. reflexivity.
Defined.

Lemma minimax_forced_pass_witness :
  minimax whitePasses 2 (-1) 1 = minimax whitePasses (2 - 1) (- (-1)) 1.
Proof.
  apply (minimax_forced_pass whitePasses 2 (-1) 1).
  - lia.
  - vm_compute. reflexivity.
  - vm_compute. reflexivity.
Defined.

Lemma minimax_depth_1_is_greedy_witness :
  getBestMove (fun _ => 0%nat) (mkAI Minimax 1) start8 1
  = getBestMove (fun _ => 0%nat) (mkAI Greedy 3) start8 1.
Proof.
  apply (minimax_depth_1_is_greedy (fun _ => 0%nat) 3 start8 1
           [(3, 2); (2, 3); (5, 4); (4, 5)]).
  - vm_compute. reflexivity.
  - discriminate.
  - intros x y b' Hin Hs.
    repeat (apply elem_of_cons in Hin as [[= -> ->]|Hin];
            [vm_compute in Hs; injection Hs as <-; vm_compute; reflexivity|]).
    inversion Hin.
Defined.

Lemma evaluate_antisymmetric_witness :
  evaluate start8_black_3_2 (- 1)
  = fmap_result Z.opp (evaluate start8_black_3_2 1) /\
  (wf start8_black_3_2 -> 0 < size start8_black_3_2 ->
   exists v, evaluate start8_black_3_2 1 = Ok v /\
             evaluate start8_black_3_2 (- 1) = Ok (- v)).
Proof.
  apply (evaluate_antisymmetric start8_black_3_2 1). left. reflexivity.
Defined.

Lemma clone_is_deep_copy_witness :
  (1 <> 0)%nat /\
  deref clonedHeap 1 = Ok (view startHeap startObject) /\
  deref clonedHeap 0 = Ok (view startHeap startObject) /\
  forall moves h2 rs,
    playH clonedHeap 1 moves = Ok (h2, rs) ->
    deref h2 0 = Ok (view startHeap startObject) /\
    exists h3 b',
      playH h2 0 moves = Ok (h3, rs) /\
      deref h3 0 = Ok b' /\ deref h3 1 = Ok b' /\ deref h2 1 = Ok b'.
Proof.
  apply (clone_is_deep_copy startHeap clonedHeap 0 1 startObject).
  - split; [reflexivity|]. split.
    + apply (NoDup_seq 0 8).
    + repeat constructor.
  - vm_compute. reflexivity.
Defined.

(** * Further properties of the engine *)

(** ** The constructor *)




(** The four stores of [init], one after the other. *)
Lemma constructor_inv (sz : Z) (b : ReversiBoard) :
  constructor sz = Ok b ->
  Z.even sz = true /\ 2 <= sz /\
  exists g1 g2 g3,
    storeCell (replicate (Z.to_nat sz) (replicate (Z.to_nat sz) 0))
              (sz / 2 - 1) (sz / 2 - 1) (-1) = Ok g1 /\
    storeCell g1 (sz / 2) (sz / 2) (-1) = Ok g2 /\
    storeCell g2 (sz / 2) (sz / 2 - 1) 1 = Ok g3 /\
    storeCell g3 (sz / 2 - 1) (sz / 2) 1 = Ok (board b) /\
    size b = sz /\ currentPlayer b = 1.
Proof.
  intros H.
  assert (He : Z.even sz = true /\ 2 <= sz).
  { destruct (Z.even sz) eqn:He; [destruct (Z_le_gt_dec 2 sz)|]; auto.
    - rewrite constructor_throws in H by lia. discriminate.
    - rewrite constructor_throws in H by auto. discriminate. }
  destruct He as [He Hs]. split; [exact He|]. split; [exact Hs|].
  unfold constructor, init in H. simpl size in H. simpl board in H.
  rewrite <- Z.negb_even, He in H. simpl negb in H. cbv iota zeta in H.
  do 4 bind_inv H. injection H as <-. simpl. eauto 10.
Qed.




(** ** The list of legal moves *)

Lemma validInDirections_returns (b : ReversiBoard) (x y player : Z)
    (ds : list (Z * Z)) :
  wf b -> ds ⊆ directions ->
  exists r, validInDirections b x y player ds = Ok r.
Proof.
  intros Hwf. induction ds as [|d ds IH]; intros Hsub; cbn [validInDirections];
    [eauto|].
  destruct (validInDirection_returns b x y player Hwf d) as [hit ->];
    [apply Hsub; left|].
  cbn [bind]. destruct hit; [eauto|]. apply IH. intros d' Hd'. apply Hsub.
  now right.
Qed.

(** [isValidMove] returns on every cell of a well-formed board, whatever
    the player. *)
Lemma isValidMove_total (b : ReversiBoard) (x y player : Z) :
  wf b -> inBounds b x y = true -> exists r, isValidMove b x y player = Ok r.
Proof.
  intros Hwf Hin. unfold isValidMove.
  destruct (wf_getCell b x y Hwf Hin) as [z ->]. cbn [bind].
  destruct (negb (strictEq (Num z) 0)); [eauto|].
  now apply validInDirections_returns.
Qed.

(** One row of the scan. *)
Lemma getValidMoves_row (b : ReversiBoard) (player y : Z) (xs : list Z) :
  wf b -> (forall x, x ∈ xs -> inBounds b x y = true) ->
  forall moves,
    foldM (fun moves x =>
        v <- isValidMove b x y player ;;
        Ok (if v then moves ++ [(x, y)] else moves)) xs moves
    = Ok (moves ++ List.filter (legal b player) (List.map (fun x => (x, y)) xs)).
Proof.
  intros Hwf. induction xs as [|x xs IH]; intros Hin moves; cbn [foldM].
  - simpl. now rewrite app_nil_r.
  - destruct (isValidMove_total b x y player Hwf) as [v Hv]; [apply Hin; left|].
    rewrite Hv. cbn [bind]. rewrite IH by (intros x' Hx'; apply Hin; now right).
    cbn [List.map List.filter]. unfold legal at 2. cbn [fst snd]. rewrite Hv.
    destruct v; [|reflexivity]. now rewrite <- app_assoc.
Qed.

Lemma getValidMoves_rows (b : ReversiBoard) (player : Z) (ys : list Z) :
  wf b -> (forall y, y ∈ ys -> 0 <= y < size b) ->
  forall moves,
    foldM (fun moves y =>
        foldM (fun moves x =>
          v <- isValidMove b x y player ;;
          Ok (if v then moves ++ [(x, y)] else moves))
          (seqZ 0 (size b)) moves) ys moves
    = Ok (moves ++ List.filter (legal b player)
            (flat_map (fun y => List.map (fun x => (x, y)) (seqZ 0 (size b))) ys)).
Proof.
  intros Hwf. induction ys as [|y ys IH]; intros Hin moves; cbn [foldM].
  - simpl. now rewrite app_nil_r.
  - rewrite getValidMoves_row; [|exact Hwf|].
    + cbn [bind]. rewrite IH by (intros y' Hy'; apply Hin; now right).
      cbn [flat_map]. rewrite List.filter_app, <- app_assoc. reflexivity.
    + intros x Hx. apply elem_of_seqZ in Hx. apply inBounds_true.
      specialize (Hin y (list_elem_of_here _ _)). lia.
Qed.

Lemma getValidMoves_filter (b : ReversiBoard) (player : Z) :
  wf b ->
  getValidMoves b player = Ok (List.filter (legal b player) (cellsRowMajor b)).
Proof.
  intros Hwf. unfold getValidMoves, cellsRowMajor.
  rewrite getValidMoves_rows; [reflexivity | exact Hwf |].
  intros y Hy. apply elem_of_seqZ in Hy. lia.
Qed.

(** X3. On a well-formed board [getValidMoves(player)] returns the cells of
    the grid on which [isValidMove] returns [true], each once, in row-major
    order. *)
Theorem getValidMoves_row_major (b : ReversiBoard) (player : Z) :
  wf b ->
  getValidMoves b player = Ok (List.filter (legal b player) (cellsRowMajor b)).
Proof. apply getValidMoves_filter. Qed.

Lemma getValidMoves_row_major_witness :
  getValidMoves start8 1 = Ok (List.filter (legal start8 1) (cellsRowMajor start8)).
Proof. apply (getValidMoves_row_major start8 1). exact wf_start8. Defined.

(** ** The cells after a move *)

(** The cells that the loop of lines 81-84 records: the cells it walked
    over, in the order of the walk. *)
Lemma collect_spec (b : ReversiBoard) (player dx dy : Z) (fuel : nat) :
  forall nx ny flips r,
    collect fuel b player dx dy nx ny flips = Ok r ->
    exists k : nat,
      r = (nx + Z.of_nat k * dx, ny + Z.of_nat k * dy,
           flips ++ List.map (fun i : nat =>
                      (nx + Z.of_nat i * dx, ny + Z.of_nat i * dy)) (seq 0 k)) /\
      (forall i : nat, (i < k)%nat ->
         inBounds b (nx + Z.of_nat i * dx) (ny + Z.of_nat i * dy) = true /\
         getCell (board b) (nx + Z.of_nat i * dx) (ny + Z.of_nat i * dy)
           = Ok (Num (- player))) /\
      (inBounds b (nx + Z.of_nat k * dx) (ny + Z.of_nat k * dy) = true ->
       exists v,
         getCell (board b) (nx + Z.of_nat k * dx) (ny + Z.of_nat k * dy) = Ok v /\
         strictEq v (- player) = false).
Proof.
  induction fuel as [|fuel IH]; intros nx ny flips r H; simpl in H;
    [discriminate|].
  assert (Hstop : forall (P : Prop), P ->
    (inBounds b nx ny = true -> exists v, getCell (board b) nx ny = Ok v /\
                                          strictEq v (- player) = false) ->
    Ok (nx, ny, flips) = Ok r ->
    exists k : nat,
      r = (nx + Z.of_nat k * dx, ny + Z.of_nat k * dy,
           flips ++ List.map (fun i : nat =>
                      (nx + Z.of_nat i * dx, ny + Z.of_nat i * dy)) (seq 0 k)) /\
      (forall i : nat, (i < k)%nat ->
         inBounds b (nx + Z.of_nat i * dx) (ny + Z.of_nat i * dy) = true /\
         getCell (board b) (nx + Z.of_nat i * dx) (ny + Z.of_nat i * dy)
           = Ok (Num (- player))) /\
      (inBounds b (nx + Z.of_nat k * dx) (ny + Z.of_nat k * dy) = true ->
       exists v,
         getCell (board b) (nx + Z.of_nat k * dx) (ny + Z.of_nat k * dy) = Ok v /\
         strictEq v (- player) = false)).
  { intros _ _ Hs [= <-]. exists 0%nat. simpl.
    rewrite !Z.add_0_r, app_nil_r. split; [reflexivity|]. split; [lia|].
    exact Hs. }
  destruct (inBounds b nx ny) eqn:Hin.
  - bind_inv H. destruct (strictEq a (- player)) eqn:Heq.
    + apply IH in H as (k & -> & Hrun & Hend).
      apply strictEq_true in Heq as ->.
      exists (S k). split; [|split].
      * replace (nx + Z.of_nat (S k) * dx) with (nx + dx + Z.of_nat k * dx) by lia.
        replace (ny + Z.of_nat (S k) * dy) with (ny + dy + Z.of_nat k * dy) by lia.
        f_equal. rewrite <- app_assoc. f_equal. cbn [seq List.map app].
        f_equal; [f_equal; lia|].
        rewrite <- List.seq_shift, List.map_map. apply List.map_ext.
        intros i. f_equal; lia.
      * intros [|i] Hi.
        -- rewrite !Z.mul_0_l, !Z.add_0_r. auto.
        -- destruct (Hrun i) as [H1 H2]; [lia|].
           replace (nx + Z.of_nat (S i) * dx) with (nx + dx + Z.of_nat i * dx) by lia.
           replace (ny + Z.of_nat (S i) * dy) with (ny + dy + Z.of_nat i * dy) by lia.
           auto.
      * replace (nx + Z.of_nat (S k) * dx) with (nx + dx + Z.of_nat k * dx) by lia.
        replace (ny + Z.of_nat (S k) * dy) with (ny + dy + Z.of_nat k * dy) by lia.
        exact Hend.
    + apply (Hstop True I); [|exact H]. intros _. eauto.
  - apply (Hstop True I); [|exact H]. congruence.
Qed.

(** The grid after the stores of line 88. *)
Lemma flipAll_cells (player : Z) (flips : list (Z * Z)) :
  forall b b', flipAll b player flips = Ok b' ->
    forall cx cy,
      getCell (board b') cx cy =
        if decide ((cx, cy) ∈ flips) then Ok (Num player)
        else getCell (board b) cx cy.
Proof.
  unfold flipAll. induction flips as [|[fx fy] flips IH]; intros b b' H cx cy;
    cbn [foldM] in H.
  - injection H as <-. case_decide as Hin; [inversion Hin | reflexivity].
  - bind_inv H. bind_inv Ha. injection Ha as <-.
    rewrite (IH _ _ H cx cy). cbn [board setBoard].
    rewrite (getCell_storeCell _ _ _ _ _ cx cy Ha0).
    destruct (decide ((cx, cy) ∈ flips)) as [Hin|Hnin].
    + rewrite decide_True by (now right). reflexivity.
    + destruct (decide (cx = fx /\ cy = fy)) as [[-> ->]|Hne].
      * rewrite decide_True by left. reflexivity.
      * rewrite decide_False; [reflexivity|]. intros Hin.
        apply elem_of_cons in Hin as [[= -> ->]|Hin]; [tauto | contradiction].
Qed.

(** The rays from a cell in two of the eight directions share no cell, and
    none comes back to the cell. *)
Lemma rays_apart (x y : Z) (d d' : Z * Z) (i j : Z) :
  d ∈ directions -> d' ∈ directions -> 1 <= i -> 1 <= j ->
  (x + i * d.1, y + i * d.2) = (x + j * d'.1, y + j * d'.2) ->
  d = d' /\ i = j.
Proof.
  intros Hd Hd' Hi Hj. unfold directions in Hd, Hd'.
  repeat (apply elem_of_cons in Hd as [->|Hd]);
    try (inversion Hd; fail);
    repeat (apply elem_of_cons in Hd' as [->|Hd']);
    try (inversion Hd'; fail);
    cbn [fst snd]; intros [= H1 H2]; (split; [try reflexivity|]); try lia;
    exfalso; lia.
Qed.

Lemma ray_leaves (x y : Z) (d : Z * Z) (i : Z) :
  d ∈ directions -> 1 <= i -> (x + i * d.1, y + i * d.2) <> (x, y).
Proof.
  intros Hd Hi. unfold directions in Hd.
  repeat (apply elem_of_cons in Hd as [->|Hd]); try (inversion Hd; fail);
    cbn [fst snd]; intros [= H1 H2]; lia.
Qed.

(** For a player that is not 0 the length of a run is determined. *)
Lemma run_unique (b : ReversiBoard) (x y player : Z) (d : Z * Z) (k k' : Z) :
  player <> 0 -> run b x y player d k -> run b x y player d k' -> k = k'.
Proof.
  intros Hp (Hk & Hrun & _ & Hown) (Hk' & Hrun' & _ & Hown').
  destruct (Z.lt_trichotomy k k') as [Hlt|[Heq|Hgt]]; [exfalso | exact Heq | exfalso].
  - destruct (Hrun' (k + 1)) as [_ H]; [lia|]. rewrite H in Hown.
    injection Hown as Hown. lia.
  - destruct (Hrun (k' + 1)) as [_ H]; [lia|]. rewrite H in Hown'.
    injection Hown' as Hown'. lia.
Qed.

Section FlipDirection.
Variables (x y player : Z).
Hypothesis Hplayer : player <> 0.

(** A walk stops where the run of the rule stops. *)
Lemma walked_run (c : ReversiBoard) (dx dy : Z) (k : nat) (k' : Z) :
  walked x y player c dx dy k -> run c x y player (dx, dy) k' -> Z.of_nat k = k'.
Proof.
  intros [Hseen Hend] (Hk' & Hrun & Hin & Hown). cbn [fst snd] in *.
  destruct (Z.lt_trichotomy (Z.of_nat k) k') as [Hlt|[Heq|Hgt]];
    [exfalso | exact Heq | exfalso].
  - destruct (Hrun (Z.of_nat k + 1)) as [H1 H2]; [lia|].
    replace (x + (Z.of_nat k + 1) * dx)
      with (x + dx + Z.of_nat k * dx) in H1, H2 by lia.
    replace (y + (Z.of_nat k + 1) * dy)
      with (y + dy + Z.of_nat k * dy) in H1, H2 by lia.
    destruct (Hend H1) as (v & Hv & Hne). rewrite H2 in Hv.
    injection Hv as <-. simpl in Hne. rewrite Z.eqb_refl in Hne. discriminate.
  - destruct (Hseen (Z.to_nat k')) as [_ H2]; [lia|].
    rewrite Z2Nat.id in H2 by lia.
    replace (x + dx + k' * dx) with (x + (k' + 1) * dx) in H2 by lia.
    replace (y + dy + k' * dy) with (y + (k' + 1) * dy) in H2 by lia.
    rewrite H2 in Hown. injection Hown as Hown. lia.
Qed.

(** A walk over [k >= 1] cells that stops on a stone of [player] is a run. *)
Lemma walked_is_run (c : ReversiBoard) (dx dy : Z) (k : nat) :
  walked x y player c dx dy k -> (0 < k)%nat ->
  inBounds c (x + dx + Z.of_nat k * dx) (y + dy + Z.of_nat k * dy) = true ->
  getCell (board c) (x + dx + Z.of_nat k * dx) (y + dy + Z.of_nat k * dy)
    = Ok (Num player) ->
  run c x y player (dx, dy) (Z.of_nat k).
Proof.
  intros [Hseen _] Hk Hin Hown. unfold run. cbn [fst snd].
  split; [lia|]. split; [|split].
  - intros i Hi. destruct (Hseen (Z.to_nat (i - 1))) as [H1 H2]; [lia|].
    rewrite Z2Nat.id in H1, H2 by lia.
    replace (x + i * dx) with (x + dx + (i - 1) * dx) by lia.
    replace (y + i * dy) with (y + dy + (i - 1) * dy) by lia. auto.
  - replace (x + (Z.of_nat k + 1) * dx) with (x + dx + Z.of_nat k * dx) by lia.
    replace (y + (Z.of_nat k + 1) * dy) with (y + dy + Z.of_nat k * dy) by lia.
    exact Hin.
  - replace (x + (Z.of_nat k + 1) * dx) with (x + dx + Z.of_nat k * dx) by lia.
    replace (y + (Z.of_nat k + 1) * dy) with (y + dy + Z.of_nat k * dy) by lia.
    exact Hown.
Qed.

(** One direction of [applyMove]: the cells of the run of that direction,
    if there is one, hold [player] afterwards, and no other cell changes. *)
Lemma flipDirection_cells (c c' : ReversiBoard) (d : Z * Z) :
  flipDirection x y player c d = Ok c' ->
  exists cells : list (Z * Z),
    (forall cell, cell ∈ cells <-> onRun c x y player d cell) /\
    forall cx cy,
      getCell (board c') cx cy =
        if decide ((cx, cy) ∈ cells) then Ok (Num player)
        else getCell (board c) cx cy.
Proof.
  destruct d as [dx dy]. unfold flipDirection. intros H. bind_inv H.
  apply collect_spec in Ha as (k & -> & Hseen & Hend).
  assert (Hw : walked x y player c dx dy k) by (split; assumption).
  cbn [app] in H.
  assert (Hnone : (forall k', run c x y player (dx, dy) k' -> False) ->
                  c' = c ->
    exists cells : list (Z * Z),
      (forall cell, cell ∈ cells <-> onRun c x y player (dx, dy) cell) /\
      forall cx cy,
        getCell (board c') cx cy =
          if decide ((cx, cy) ∈ cells) then Ok (Num player)
          else getCell (board c) cx cy).
  { intros Hno ->. exists []. split.
    - intros cell. split; [intros Hin; inversion Hin|].
      intros (k' & i & Hr & _). destruct (Hno k' Hr).
    - intros cx cy. case_decide as Hin; [inversion Hin | reflexivity]. }
  destruct (inBounds c _ _) eqn:Hin.
  - bind_inv H. destruct (strictEq a player) eqn:Hown.
    + apply strictEq_true in Hown as ->.
      destruct k as [|k].
      * apply Hnone.
        -- intros k' Hr. pose proof (walked_run _ _ _ _ _ Hw Hr) as Hk.
           destruct Hr as [Hk' _]. lia.
        -- simpl in H. unfold flipAll in H. simpl in H. congruence.
      * pose proof (walked_is_run c dx dy (S k) Hw ltac:(lia) Hin Ha) as Hr.
        eexists. split; [|exact (flipAll_cells _ _ _ _ H)].
        intros cell. rewrite list_elem_of_In, List.in_map_iff. split.
        -- intros (i & <- & Hi). apply List.in_seq in Hi.
           exists (Z.of_nat (S k)), (Z.of_nat i + 1). split; [exact Hr|].
           split; [lia|]. cbn [fst snd]. f_equal; lia.
        -- intros (k' & i & Hr' & Hi & ->).
           pose proof (walked_run _ _ _ _ _ Hw Hr') as Hk.
           exists (Z.to_nat (i - 1)). split.
           ++ cbn [fst snd]. rewrite Z2Nat.id by lia. f_equal; lia.
           ++ apply List.in_seq. lia.
    + apply Hnone; [|congruence].
      intros k' Hr. pose proof (walked_run _ _ _ _ _ Hw Hr) as Hk.
      destruct Hr as (_ & _ & _ & Hp). cbn [fst snd] in Hp. subst k'.
      replace (x + (Z.of_nat k + 1) * dx) with (x + dx + Z.of_nat k * dx) in Hp by lia.
      replace (y + (Z.of_nat k + 1) * dy) with (y + dy + Z.of_nat k * dy) in Hp by lia.
      rewrite Hp in Ha. injection Ha as <-. simpl in Hown.
      rewrite Z.eqb_refl in Hown. discriminate.
  - apply Hnone; [|congruence].
    intros k' Hr. pose proof (walked_run _ _ _ _ _ Hw Hr) as Hk.
    destruct Hr as (_ & _ & Hi & _). cbn [fst snd] in Hi. subst k'.
    replace (x + (Z.of_nat k + 1) * dx) with (x + dx + Z.of_nat k * dx) in Hi by lia.
    replace (y + (Z.of_nat k + 1) * dy) with (y + dy + Z.of_nat k * dy) in Hi by lia.
    congruence.
Qed.
End FlipDirection.

Section ApplyMoveCells.
Variables (x y player : Z).
Hypothesis Hplayer : player <> 0.

(** A run only depends on the size of the board and on the cells of its
    ray. *)
Lemma onRun_transfer (c c0 : ReversiBoard) (d : Z * Z) (cell : Z * Z) :
  size c = size c0 ->
  (forall i, 1 <= i ->
     getCell (board c) (x + i * d.1) (y + i * d.2)
     = getCell (board c0) (x + i * d.1) (y + i * d.2)) ->
  onRun c x y player d cell -> onRun c0 x y player d cell.
Proof.
  intros Hs Hc (k & i & (Hk & Hrun & Hin & Hown) & Hi & ->).
  assert (HB : forall u v, inBounds c u v = inBounds c0 u v).
  { intros u v. unfold inBounds. now rewrite Hs. }
  exists k, i. split; [|auto]. split; [exact Hk|]. split; [|split].
  - intros j Hj. destruct (Hrun j Hj) as [H1 H2].
    rewrite <- HB, <- Hc by lia. auto.
  - now rewrite <- HB.
  - rewrite <- Hc by lia. exact Hown.
Qed.

Lemma directions_NoDup : NoDup directions.
Proof. apply (@bool_decide_unpack (NoDup directions) _). vm_compute. exact I. Qed.

Lemma flipDirections_cells (b1 : ReversiBoard) (ds : list (Z * Z)) :
  forall done c c',
    NoDup ds ->
    (forall d, d ∈ ds -> d ∈ directions /\ d ∉ done) ->
    (forall d, d ∈ done -> d ∈ directions) ->
    turnedOver b1 x y player done c ->
    foldM (flipDirection x y player) ds c = Ok c' ->
    turnedOver b1 x y player (done ++ ds) c'.
Proof.
  induction ds as [|d ds IH]; intros done c c' Hnd Hds Hdone Hinv H;
    cbn [foldM] in H.
  - injection H as <-. now rewrite app_nil_r.
  - bind_inv H. rename a into c1.
    destruct (Hds d (list_elem_of_here _ _)) as [Hd Hnew].
    apply NoDup_cons in Hnd as [Hnotin Hnd].
    replace (done ++ d :: ds) with ((done ++ [d]) ++ ds)
      by (now rewrite <- app_assoc).
    apply (IH (done ++ [d]) c1 c'); [exact Hnd | | | | exact H].
    + intros d' Hd'. destruct (Hds d') as [H1 H2]; [now right|].
      split; [exact H1|]. intros Hin. apply elem_of_app in Hin as [Hin|Hin];
        [contradiction|]. apply list_elem_of_singleton in Hin as ->.
      contradiction.
    + intros d' Hin. apply elem_of_app in Hin as [Hin|Hin]; [auto|].
      apply list_elem_of_singleton in Hin as ->. exact Hd.
    + destruct Hinv as (Hs & cells & Hcells & Hget).
      destruct (flipDirection_frame _ _ _ _ _ _ Ha) as (Hs1 & _ & _).
      destruct (flipDirection_cells x y player Hplayer c c1 d Ha)
        as (cd & Hcd & Hget1).
      assert (Hray : forall i, 1 <= i ->
        getCell (board c) (x + i * d.1) (y + i * d.2)
        = getCell (board b1) (x + i * d.1) (y + i * d.2)).
      { intros i Hi. rewrite Hget. rewrite decide_False; [reflexivity|].
        intros Hin. apply Hcells in Hin as (d' & Hd' & k & j & _ & Hj & Heq).
        destruct (rays_apart x y d d' i j Hd (Hdone d' Hd') Hi ltac:(lia) Heq)
          as [-> _]. contradiction. }
      assert (Hsame : forall cell,
        onRun c x y player d cell <-> onRun b1 x y player d cell).
      { intros cell. split; apply onRun_transfer; auto.
        intros i Hi. symmetry. now apply Hray. }
      split; [congruence|]. exists (cd ++ cells). split.
      * intros cell. rewrite elem_of_app, Hcd, Hsame, Hcells. split.
        -- intros [Hr|(d' & Hd' & Hr)].
           ++ exists d. split; [|exact Hr]. apply elem_of_app. right. left.
           ++ exists d'. split; [|exact Hr]. apply elem_of_app. now left.
        -- intros (d' & Hd' & Hr). apply elem_of_app in Hd' as [Hd'|Hd'].
           ++ right. eauto.
           ++ apply list_elem_of_singleton in Hd' as ->. now left.
      * intros cx cy. rewrite Hget1, Hget.
        destruct (decide ((cx, cy) ∈ cd)) as [H1|H1].
        -- rewrite decide_True; [reflexivity|]. apply elem_of_app. now left.
        -- destruct (decide ((cx, cy) ∈ cells)) as [H2|H2].
           ++ rewrite decide_True; [reflexivity|]. apply elem_of_app. now right.
           ++ rewrite decide_False; [reflexivity|]. intros Hin.
              apply elem_of_app in Hin as [?|?]; contradiction.
Qed.

(** The grid after an accepted move, cell by cell. *)
Lemma applyMove_cells_of (b b' : ReversiBoard) :
  applyMove b x y player = Ok (b', true) ->
  exists cells : list (Z * Z),
    (forall cell, cell ∈ cells <-> flipped b x y player cell) /\
    forall cx cy,
      getCell (board b') cx cy =
        if decide (cx = x /\ cy = y) then Ok (Num player)
        else if decide ((cx, cy) ∈ cells) then Ok (Num player)
        else getCell (board b) cx cy.
Proof.
  intros H. apply applyMove_accepted in H as (_ & g & bf & Hg & Hf & ->).
  set (b1 := setBoard b g) in *.
  assert (Hinit : turnedOver b1 x y player [] b1).
  { split; [reflexivity|]. exists []. split.
    - intros cell. split; [intros Hin; inversion Hin|].
      intros (d & Hd & _). inversion Hd.
    - intros cx cy. case_decide as Hin; [inversion Hin | reflexivity]. }
  pose proof (flipDirections_cells b1 directions [] b1 bf directions_NoDup) as Hfold.
  destruct Hfold as (Hs & cells & Hcells & Hget); [ | | exact Hinit | exact Hf |].
  { intros d Hd. split; [exact Hd|]. intros Hin. inversion Hin. }
  { intros d Hd. inversion Hd. }
  cbn [app] in Hcells.
  assert (Hb1 : forall d cell, d ∈ directions ->
    (onRun b1 x y player d cell <-> onRun b x y player d cell)).
  { intros d cell Hd.
    assert (Hray : forall i, 1 <= i ->
      getCell (board b1) (x + i * d.1) (y + i * d.2)
      = getCell (board b) (x + i * d.1) (y + i * d.2)).
    { intros i Hi. unfold b1. cbn [board setBoard].
      rewrite (getCell_storeCell _ _ _ _ _ _ _ Hg).
      rewrite decide_False; [reflexivity|]. intros [H1 H2].
      apply (ray_leaves x y d i Hd Hi). now rewrite H1, H2. }
    split; apply onRun_transfer; auto. intros i Hi. symmetry. now apply Hray. }
  exists cells. split.
  - intros cell. rewrite Hcells. unfold flipped. split.
    + intros (d & Hd & Hr). exists d. split; [exact Hd|]. now apply Hb1.
    + intros (d & Hd & Hr). exists d. split; [exact Hd|]. now apply Hb1.
  - intros cx cy. cbn [board switchPlayer]. rewrite Hget.
    unfold b1 at 1. cbn [board setBoard].
    rewrite (getCell_storeCell _ _ _ _ _ cx cy Hg).
    destruct (decide (cx = x /\ cy = y)) as [[-> ->]|Hne]; [|reflexivity].
    destruct (decide ((x, y) ∈ cells)) as [Hin|Hnin]; reflexivity.
Qed.
End ApplyMoveCells.

(** X4. After an accepted [applyMove(x, y, player)], for a player [+1] or
    [-1]: the played cell holds [player]; so does every opponent stone of a
    run that the move brackets, in any of the eight directions; every other
    cell holds what it held before. *)
Theorem applyMove_cells (b b' : ReversiBoard) (x y player : Z) :
  player = 1 \/ player = -1 ->
  applyMove b x y player = Ok (b', true) ->
  exists cells : list (Z * Z),
    (forall cell, cell ∈ cells <-> flipped b x y player cell) /\
    forall cx cy,
      getCell (board b') cx cy =
        if decide (cx = x /\ cy = y) then Ok (Num player)
        else if decide ((cx, cy) ∈ cells) then Ok (Num player)
        else getCell (board b) cx cy.
Proof.
  intros Hp. apply applyMove_cells_of. lia.
Qed.

Lemma applyMove_cells_witness :
  exists cells : list (Z * Z),
    (forall cell, cell ∈ cells <-> flipped start8 3 2 1 cell) /\
    forall cx cy,
      getCell (board start8_black_3_2) cx cy =
        if decide (cx = 3 /\ cy = 2) then Ok (Num 1)
        else if decide ((cx, cy) ∈ cells) then Ok (Num 1)
        else getCell (board start8) cx cy.
Proof.
  apply (applyMove_cells start8 start8_black_3_2 3 2 1).
  - left. reflexivity.
  - vm_compute. reflexivity.
Defined.

(** X5. Every accepted move turns over at least one stone: some cell held
    an opponent stone before the call and holds a stone of the mover after
    it. *)
Theorem applyMove_flips_a_stone (b b' : ReversiBoard) (x y player : Z) :
  player = 1 \/ player = -1 ->
  applyMove b x y player = Ok (b', true) ->
  exists cx cy,
    getCell (board b) cx cy = Ok (Num (- player)) /\
    getCell (board b') cx cy = Ok (Num player).
Proof.
  intros Hp H.
  destruct (applyMove_cells_of x y player ltac:(lia) b b' H) as (cells & Hcells & Hget).
  apply applyMove_accepted in H as (Hv & _).
  assert (Hb : exists d, d ∈ directions /\ bracketed b x y player d).
  { unfold isValidMove in Hv. bind_inv Hv.
    destruct (negb (strictEq a 0)); [discriminate|]. clear Ha.
    induction directions as [|d ds IH]; cbn [validInDirections] in Hv;
      [discriminate|].
    bind_inv Hv. destruct a0.
    - exists d. split; [left|]. now apply validInDirection_bracketed.
    - destruct (IH Hv) as (d' & Hd' & Hb'). exists d'. split; [now right | exact Hb']. }
  destruct Hb as (d & Hd & k & Hk & Hrun & Hin & Hown).
  exists (x + 1 * d.1), (y + 1 * d.2). split.
  - apply (Hrun 1). lia.
  - rewrite Hget. case_decide; [reflexivity|].
    rewrite decide_True; [reflexivity|]. apply Hcells.
    exists d. split; [exact Hd|]. exists k, 1.
    split; [|split; [lia | reflexivity]].
    split; [exact Hk|]. split; [exact Hrun|]. split; assumption.
Qed.

Lemma applyMove_flips_a_stone_witness :
  exists cx cy,
    getCell (board start8) cx cy = Ok (Num (- 1)) /\
    getCell (board start8_black_3_2) cx cy = Ok (Num 1).
Proof.
  apply (applyMove_flips_a_stone start8 start8_black_3_2 3 2 1).
  - left. reflexivity.
  - vm_compute. reflexivity.
Defined.

(** ** Empty cells and the length of a game *)

Section Empties.
Variable player : Z.
Hypothesis Hplayer : player = 1 \/ player = -1.
Variable v : Z.
Hypothesis Hv : v <> player /\ v <> - player.

(** The flips leave the number of cells that hold [v] as it is. *)
Lemma flipAll_other (flips : list (Z * Z)) :
  forall b b',
    Forall (stone player (board b)) flips ->
    flipAll b player flips = Ok b' ->
    countGrid v (board b') = countGrid v (board b).
Proof.
  unfold flipAll.
  induction flips as [|[fx fy] flips IH]; intros b b' Hall H; cbn [foldM] in H.
  - now injection H as <-.
  - bind_inv H. bind_inv Ha. injection Ha as <-.
    apply Forall_cons in Hall as [Hc Hall].
    destruct (flip_counts player Hplayer _ _ _ _ Hc Ha0) as (_ & _ & Hkeep).
    rewrite (IH (setBoard b a0) b' (Forall_impl _ _ _ Hall Hkeep) H).
    cbn [board setBoard].
    destruct Hc as [Hc|Hc]; cbn [fst snd] in Hc;
      rewrite (countGrid_storeCell _ _ _ _ _ _ v Ha0 Hc);
      destruct (Z.eqb_spec player v), (Z.eqb_spec (- player) v); lia.
Qed.

Lemma flipDirections_other (x y : Z) (ds : list (Z * Z)) (b b' : ReversiBoard) :
  foldM (flipDirection x y player) ds b = Ok b' ->
  countGrid v (board b') = countGrid v (board b).
Proof.
  apply (foldM_invariant (fun c => countGrid v (board c) = countGrid v (board b)));
    [|reflexivity].
  intros c [dx dy] c' _ Hc H. rewrite <- Hc. unfold flipDirection in H.
  bind_inv H. destruct a as [[nx ny] flips].
  destruct (inBounds c nx ny); [|now injection H as <-].
  bind_inv H. destruct (strictEq a player); [|now injection H as <-].
  apply collect_inv in Ha as (more & -> & Hmore). cbn [app] in H.
  eapply flipAll_other; [|exact H].
  eapply Forall_impl; [exact Hmore|]. intros cell Hcell. now right.
Qed.
End Empties.

(** An accepted move fills one empty cell. *)
Lemma applyMove_fills (b b' : ReversiBoard) (x y player : Z) :
  player = 1 \/ player = -1 ->
  applyMove b x y player = Ok (b', true) ->
  countGrid 0 (board b') = countGrid 0 (board b) - 1.
Proof.
  intros Hp H. apply applyMove_accepted in H as (Hv & g & b1 & Hg & Hf & ->).
  apply isValidMove_true_empty in Hv.
  apply (flipDirections_other player Hp 0 ltac:(lia)) in Hf.
  cbn [board switchPlayer setBoard] in *. rewrite Hf.
  rewrite (countGrid_storeCell _ _ _ _ _ _ 0 Hg Hv). simpl.
  destruct (Z.eqb_spec player 0); lia.
Qed.

Lemma count_nonneg (v : Z) (row : list Z) : 0 <= count v row.
Proof. induction row as [|c row IH]; simpl; [lia|]. destruct (c =? v); lia. Qed.

Lemma countGrid_nonneg (v : Z) (g : list (list Z)) : 0 <= countGrid v g.
Proof.
  induction g as [|row g IH]; simpl; [lia|].
  pose proof (count_nonneg v row). lia.
Qed.

(** The moves of a sequence that were accepted. *)
Lemma play_fills (moves : list (Z * Z * Z)) :
  forall b b' rs,
    Forall (fun m => m.2 = 1 \/ m.2 = -1) moves ->
    play b moves = Ok (b', rs) ->
    countGrid 0 (board b')
    = countGrid 0 (board b) - Z.of_nat (length (List.filter (fun r => r) rs)).
Proof.
  induction moves as [|[[x y] player] moves IH]; intros b b' rs Hall H;
    cbn [play] in H.
  - injection H as <- <-. simpl. lia.
  - apply Forall_cons in Hall as [Hp Hall]. cbn [snd] in Hp.
    bind_inv H. destruct a as [b1 r]. bind_inv H. destruct a as [b2 rs'].
    injection H as <- <-. cbn [fst snd] in *.
    rewrite (IH _ _ _ Hall Ha0). destruct r.
    + rewrite (applyMove_fills _ _ _ _ _ Hp Ha). cbn [List.filter length]. lia.
    + apply applyMove_rejected in Ha as ->. cbn [List.filter]. lia.
Qed.

(** X6. Each accepted move fills exactly one empty cell, so in any sequence
    of calls of [applyMove] by players [+1] and [-1] the number of accepted
    moves is at most the number of empty cells of the board it starts from:
    every game ends. *)
Theorem accepted_moves_bounded (b b' : ReversiBoard) (moves : list (Z * Z * Z))
    (rs : list bool) :
  Forall (fun m => m.2 = 1 \/ m.2 = -1) moves ->
  play b moves = Ok (b', rs) ->
  countGrid 0 (board b')
  = countGrid 0 (board b) - Z.of_nat (length (List.filter (fun r => r) rs)) /\
  Z.of_nat (length (List.filter (fun r => r) rs)) <= countGrid 0 (board b).
Proof.
  intros Hall H. pose proof (play_fills moves b b' rs Hall H) as Heq.
  split; [exact Heq|]. pose proof (countGrid_nonneg 0 (board b')). lia.
Qed.

Lemma accepted_moves_bounded_witness :
  countGrid 0 (board start8_black_3_2)
  = countGrid 0 (board start8)
    - Z.of_nat (length (List.filter (fun r => r) [false; true])) /\
  Z.of_nat (length (List.filter (fun r => r) [false; true]))
  <= countGrid 0 (board start8).
Proof.
  apply (accepted_moves_bounded start8 start8_black_3_2
           [(0, 0, 1); (3, 2, 1)] [false; true]).
  - repeat constructor.
  - vm_compute. reflexivity.
Defined.

(** ** Counts and blocked positions *)

Lemma count_lookup (v : Z) (row : list Z) (i : nat) :
  row !! i = Some v -> 0 < count v row.
Proof.
  revert i. induction row as [|c row IH]; intros [|i] H; simpl in *;
    try discriminate.
  - injection H as ->. rewrite Z.eqb_refl. pose proof (count_nonneg v row). lia.
  - specialize (IH i H). destruct (c =? v); lia.
Qed.

Lemma countGrid_lookup (v : Z) (g : list (list Z)) (j : nat) (row : list Z) :
  g !! j = Some row -> count v row <= countGrid v g.
Proof.
  revert j. induction g as [|r g IH]; intros [|j] H; simpl in *;
    try discriminate.
  - injection H as ->. pose proof (countGrid_nonneg v g). lia.
  - specialize (IH j H). pose proof (count_nonneg v r). lia.
Qed.

(** A cell that holds [v] is counted. *)
Lemma countGrid_getCell (g : list (list Z)) (x y v : Z) :
  getCell g x y = Ok (Num v) -> 0 < countGrid v g.
Proof.
  intros H. apply getCell_Num in H as (row & Hrow & Hv).
  apply index_Some in Hrow as [_ Hrow]. apply index_Some in Hv as [_ Hv].
  pose proof (count_lookup _ _ _ Hv). pose proof (countGrid_lookup v _ _ _ Hrow).
  lia.
Qed.

Lemma count_two (v w : Z) (row : list Z) :
  v <> w -> count v row + count w row <= Z.of_nat (length row).
Proof.
  intros Hne. induction row as [|c row IH]; cbn [count length]; [lia|].
  destruct (Z.eqb_spec c v), (Z.eqb_spec c w); lia.
Qed.

Lemma countGrid_two (v w : Z) (n : nat) (g : list (list Z)) :
  v <> w -> Forall (fun row => length row = n) g ->
  countGrid v g + countGrid w g <= Z.of_nat (length g) * Z.of_nat n.
Proof.
  intros Hne. induction g as [|row g IH]; intros Hall; cbn [countGrid length];
    [lia|].
  apply Forall_cons in Hall as [Hrow Hall]. specialize (IH Hall).
  pose proof (count_two v w row Hne). lia.
Qed.

(** X8. On a well-formed board the two numbers of [countStones()] are not
    negative and add up to at most [size * size]. *)
Theorem countStones_bounds (b : ReversiBoard) :
  wf b ->
  0 <= (countStones b).1 /\ 0 <= (countStones b).2 /\
  (countStones b).1 + (countStones b).2 <= size b * size b.
Proof.
  intros [Hlen Hrows]. rewrite countStones_countGrid. cbn [fst snd].
  split; [apply countGrid_nonneg|]. split; [apply countGrid_nonneg|].
  pose proof (countGrid_two 1 (-1) _ _ ltac:(lia) Hrows) as H.
  rewrite Hlen in H. destruct (Z_le_gt_dec 0 (size b)).
  - rewrite Z2Nat.id in H by lia. exact H.
  - replace (Z.to_nat (size b)) with 0%nat in H by lia. nia.
Qed.

Lemma countStones_bounds_witness :
  0 <= (countStones start8).1 /\ 0 <= (countStones start8).2 /\
  (countStones start8).1 + (countStones start8).2 <= size start8 * size start8.
Proof. apply (countStones_bounds start8). exact wf_start8. Defined.

(** The cell of a legal move is empty and one direction brackets a run. *)
Lemma isValidMove_true_bracketed (b : ReversiBoard) (x y player : Z) :
  isValidMove b x y player = Ok true ->
  getCell (board b) x y = Ok (Num 0) /\
  exists d, d ∈ directions /\ bracketed b x y player d.
Proof.
  intros Hv. split; [now apply isValidMove_true_empty in Hv|].
  unfold isValidMove in Hv. bind_inv Hv.
  destruct (negb (strictEq a 0)); [discriminate|]. clear Ha.
  induction directions as [|d ds IH]; cbn [validInDirections] in Hv;
    [discriminate|].
  bind_inv Hv. destruct a0.
  - exists d. split; [left|]. now apply validInDirection_bracketed.
  - destruct (IH Hv) as (d' & Hd' & Hb'). exists d'. split; [now right | exact Hb'].
Qed.

Lemma filter_none {A : Type} (f : A -> bool) (l : list A) :
  (forall a, f a = false) -> List.filter f l = [].
Proof.
  intros Hf. induction l as [|a l IH]; cbn [List.filter]; [reflexivity|].
  now rewrite Hf.
Qed.

(** Without an empty cell, or without a stone of one colour, nobody has a
    move. *)
Lemma no_move_when_blocked (b : ReversiBoard) (player : Z) :
  wf b ->
  countGrid 0 (board b) = 0 \/ countGrid player (board b) = 0 \/
  countGrid (- player) (board b) = 0 ->
  getValidMoves b player = Ok [].
Proof.
  intros Hwf Hblocked. rewrite getValidMoves_filter by exact Hwf. f_equal.
  apply filter_none. intros [cx cy]. unfold legal. cbn [fst snd].
  destruct (isValidMove b cx cy player) as [[|]|e] eqn:Hv; try reflexivity.
  exfalso. apply isValidMove_true_bracketed in Hv
    as (Hempty & d & _ & k & Hk & Hrun & _ & Hown).
  destruct (Hrun 1) as [_ Hopp]; [lia|].
  apply countGrid_getCell in Hempty, Hown, Hopp. lia.
Qed.

(** X7. On a well-formed board with no empty cell, or with no black stone,
    or with no white stone, neither player has a legal move and
    [isGameOver()] returns [true]. *)
Theorem isGameOver_when_blocked (b : ReversiBoard) :
  wf b ->
  countGrid 0 (board b) = 0 \/ countGrid 1 (board b) = 0 \/
  countGrid (-1) (board b) = 0 ->
  getValidMoves b 1 = Ok [] /\ getValidMoves b (-1) = Ok [] /\
  isGameOver b = Ok true.
Proof.
  intros Hwf Hblocked.
  assert (H1 : getValidMoves b 1 = Ok []).
  { apply no_move_when_blocked; [exact Hwf|]. change (- (1)) with (-1). tauto. }
  assert (H2 : getValidMoves b (-1) = Ok []).
  { apply no_move_when_blocked; [exact Hwf|]. change (- (-1)) with 1. tauto. }
  split; [exact H1|]. split; [exact H2|].
  unfold isGameOver. rewrite H1. cbn [bind length Nat.eqb]. rewrite H2. reflexivity.
Qed.

Lemma isGameOver_when_blocked_witness :
  getValidMoves (mkBoard 2 [[1; 1]; [1; 0]] 1) 1 = Ok [] /\
  getValidMoves (mkBoard 2 [[1; 1]; [1; 0]] 1) (-1) = Ok [] /\
  isGameOver (mkBoard 2 [[1; 1]; [1; 0]] 1) = Ok true.
Proof.
  apply (isGameOver_when_blocked (mkBoard 2 [[1; 1]; [1; 0]] 1)).
  - split; [reflexivity|]. repeat constructor.
  - right. right. reflexivity.
Defined.

(** ** The choice of the AI *)

Lemma firstBest_nonempty (score : Z * Z -> Z) (moves : list (Z * Z)) :
  moves <> [] -> exists m, firstBest score moves = Some m.
Proof.
  destruct moves as [|m rest]; [congruence|]. intros _. cbn [firstBest].
  destruct (firstBest score rest) as [m'|]; [|now exists m].
  destruct (score m <? score m'); eauto.
Qed.

(** Every listed move is accepted on a duplicate of the board. *)
Lemma successor_returns (b : ReversiBoard) (player : Z) (moves : list (Z * Z)) :
  wf b -> Z.even (size b) = true -> 2 <= size b ->
  getValidMoves b player = Ok moves ->
  forall x y, (x, y) ∈ moves ->
    exists b', applyMove b x y player = Ok (b', true) /\
               successor b x y player = Ok b' /\
               wf b' /\ size b' = size b.
Proof.
  intros Hwf Heven Hsz Hmoves x y Hin.
  destruct (getValidMoves_sound _ _ _ Hmoves _ Hin) as [_ Hv]. cbn [fst snd] in Hv.
  destruct (applyMove_returns _ _ _ _ Hwf Hv) as (b' & Happ & Hwf' & Hsz').
  exists b'. split; [exact Happ|]. split; [|now split].
  unfold successor. rewrite clone_returns by assumption. cbn [bind].
  rewrite Happ. reflexivity.
Qed.

(** X9. [chooseGreedy] on the legal moves of a player returns the move after
    which the player's lead in stones ([black - white] for player 1,
    [white - black] otherwise) is largest, and the first such move of the
    list when several reach that lead. *)
Theorem chooseGreedy_first_best (b : ReversiBoard) (player : Z)
    (moves : list (Z * Z)) :
  wf b -> Z.even (size b) = true -> 2 <= size b ->
  getValidMoves b player = Ok moves -> moves <> [] ->
  exists (next : Z * Z -> ReversiBoard) (i : nat) (m : Z * Z),
    (forall x y, (x, y) ∈ moves ->
                 applyMove b x y player = Ok (next (x, y), true)) /\
    chooseGreedy b player moves = Ok (Some m) /\
    moves !! i = Some m /\
    (forall m', m' ∈ moves ->
                stoneDiff (next m') player <= stoneDiff (next m) player) /\
    (forall (j : nat) m', (j < i)%nat -> moves !! j = Some m' ->
                          stoneDiff (next m') player < stoneDiff (next m) player).
Proof.
  intros Hwf Heven Hsz Hmoves Hne.
  set (next := fun c : Z * Z =>
         match applyMove b c.1 c.2 player with
         | Ok r => r.1
         | Err _ => b
         end).
  assert (Hnext : forall x y, (x, y) ∈ moves ->
            applyMove b x y player = Ok (next (x, y), true) /\
            successor b x y player = Ok (next (x, y))).
  { intros x y Hin.
    destruct (successor_returns _ _ _ Hwf Heven Hsz Hmoves x y Hin)
      as (b' & Happ & Hsucc & _).
    unfold next. cbn [fst snd]. rewrite Happ. cbn [fst]. now split. }
  destruct (firstBest_nonempty (fun m => stoneDiff (next m) player) moves Hne)
    as [m Hm].
  destruct (firstBest_spec _ _ _ Hm) as (i & Hi & Hmax & Hfirst).
  exists next, i, m. split; [intros x y Hin; now apply Hnext|].
  split; [|now repeat split].
  rewrite (chooseGreedy_firstBest b player next moves).
  - now rewrite Hm.
  - intros x y Hin. now apply Hnext.
Qed.

Lemma chooseGreedy_first_best_witness :
  exists (next : Z * Z -> ReversiBoard) (i : nat) (m : Z * Z),
    (forall x y, (x, y) ∈ [(3, 2); (2, 3); (5, 4); (4, 5)] ->
                 applyMove start8 x y 1 = Ok (next (x, y), true)) /\
    chooseGreedy start8 1 [(3, 2); (2, 3); (5, 4); (4, 5)] = Ok (Some m) /\
    [(3, 2); (2, 3); (5, 4); (4, 5)] !! i = Some m /\
    (forall m', m' ∈ [(3, 2); (2, 3); (5, 4); (4, 5)] ->
                stoneDiff (next m') 1 <= stoneDiff (next m) 1) /\
    (forall (j : nat) m', (j < i)%nat ->
                          [(3, 2); (2, 3); (5, 4); (4, 5)] !! j = Some m' ->
                          stoneDiff (next m') 1 < stoneDiff (next m) 1).
Proof.
  apply (chooseGreedy_first_best start8 1 [(3, 2); (2, 3); (5, 4); (4, 5)]).
  - exact wf_start8.
  - reflexivity.
  - simpl. lia.
  - vm_compute. reflexivity.
  - discriminate.
Defined.

Lemma head_elem_of {A : Type} (l : list A) :
  l <> [] -> exists a, head l = Some a /\ a ∈ l.
Proof. destruct l as [|a l]; [congruence|]. intros _. exists a. split; [reflexivity | left]. Qed.

(** The scan of [chooseMinimax] returns one of the moves it is given. *)
Lemma chooseMinimax_member (a : ReversiAI) (b : ReversiBoard) (player : Z)
    (moves : list (Z * Z)) :
  wf b -> Z.even (size b) = true -> 2 <= size b ->
  player = 1 \/ player = -1 -> 1 <= maxDepth a ->
  getValidMoves b player = Ok moves -> moves <> [] ->
  exists m, chooseMinimax a b player moves = Ok (Some m) /\ m ∈ moves.
Proof.
  intros Hwf Heven Hsz Hp Hd Hmoves Hne. unfold chooseMinimax.
  destruct (head_elem_of moves Hne) as (m0 & Hhead & Hin0).
  destruct (foldM_returns
    (fun best : option (Z * Z) * number => exists m, best.1 = Some m /\ m ∈ moves)
    (fun '(bestMove, bestScore) '(x, y) =>
      tmp <- clone b ;;
      r <- applyMove tmp x y player ;;
      score <- minimax (fst r) (maxDepth a - 1) (- player) player ;;
      Ok (if gt score bestScore then (Some (x, y), score)
          else (bestMove, bestScore)))
    moves) with (a := (head moves, NegInfinity)) as (best & Hbest & m & Hm & Hin).
  - intros [bm bs] [x y] Hin (m & Hm & Hmin). cbn [fst] in Hm.
    destruct (successor_returns _ _ _ Hwf Heven Hsz Hmoves x y Hin)
      as (b' & Happ & _ & Hwf' & Hsz').
    rewrite clone_returns by assumption. cbn [bind]. rewrite Happ. cbn [bind fst].
    destruct (minimax_returns (Z.to_nat (maxDepth a - 1)) b' (maxDepth a - 1)
                (- player) player) as [v Hv];
      [exact Hwf' | congruence | lia | lia | lia | reflexivity |].
    rewrite Hv. cbn [bind]. eexists. split; [reflexivity|].
    destruct (gt (Finite v) bs); cbn [fst]; eauto.
  - cbn [fst]. eauto.
  - rewrite Hbest. cbn [bind]. exists m. now rewrite Hm.
Qed.

(** X10. [getBestMove] returns [null] exactly when the player has no legal
    move, and otherwise one of the player's legal moves, with each of the
    three strategies: for "random" when the random index is inside the list,
    for "minimax" when [maxDepth] is at least 1. *)
Theorem getBestMove_legal (randomIndex : nat -> nat) (a : ReversiAI)
    (b : ReversiBoard) (player : Z) :
  wf b -> Z.even (size b) = true -> 2 <= size b ->
  player = 1 \/ player = -1 ->
  (strategy a = Minimax -> 1 <= maxDepth a) ->
  (forall n, (0 < n)%nat -> (randomIndex n < n)%nat) ->
  exists moves r,
    getValidMoves b player = Ok moves /\
    getBestMove randomIndex a b player = Ok r /\
    (r = None <-> moves = []) /\
    (forall m, r = Some m ->
               m ∈ moves /\ isValidMove b m.1 m.2 player = Ok true).
Proof.
  intros Hwf Heven Hsz Hp Hd Hrand.
  destruct (getValidMoves_returns b player Hwf ltac:(lia)) as [moves Hmoves].
  assert (Hsound : forall r : option (Z * Z),
            (forall m, r = Some m -> m ∈ moves) ->
            forall m, r = Some m ->
              m ∈ moves /\ isValidMove b m.1 m.2 player = Ok true).
  { intros r Hr m Hm. split; [now apply Hr|].
    now apply (getValidMoves_sound _ _ _ Hmoves m (Hr m Hm)). }
  exists moves. unfold getBestMove. rewrite Hmoves. cbn [bind].
  destruct moves as [|m0 rest] eqn:Hlist.
  { exists None. cbn [length Nat.eqb]. repeat split; try discriminate. }
  rewrite <- Hlist in *. assert (Hne : moves <> []) by (rewrite Hlist; discriminate).
  replace (length moves =? 0)%nat with false
    by (rewrite Hlist; reflexivity).
  destruct (strategy a) eqn:Hs.
  - unfold chooseRandom.
    assert (Hlt : (randomIndex (length moves) < length moves)%nat).
    { apply Hrand. rewrite Hlist. cbn [length]. lia. }
    apply lookup_lt_is_Some_2 in Hlt as [m Hm]. exists (Some m). split; [reflexivity|].
    split; [now rewrite Hm|]. split; [split; [discriminate | congruence]|].
    apply Hsound. intros m' [= <-]. now apply list_elem_of_lookup_2 in Hm.
  - destruct (firstBest_nonempty
                (fun m => stoneDiff
                   (match applyMove b m.1 m.2 player with
                    | Ok r => r.1 | Err _ => b end) player) moves Hne) as [m Hm].
    exists (Some m). split; [reflexivity|]. split.
    + rewrite (chooseGreedy_firstBest b player
                 (fun m => match applyMove b m.1 m.2 player with
                           | Ok r => r.1 | Err _ => b end) moves).
      * now rewrite Hm.
      * intros x y Hin.
        destruct (successor_returns _ _ _ Hwf Heven Hsz Hmoves x y Hin)
          as (b' & Happ & Hsucc & _).
        cbn [fst snd]. rewrite Happ. exact Hsucc.
    + split; [split; [discriminate | congruence]|].
      apply Hsound. intros m' [= <-].
      apply firstBest_spec in Hm as (i & Hi & _).
      now apply list_elem_of_lookup_2 in Hi.
  - destruct (chooseMinimax_member a b player moves Hwf Heven Hsz Hp (Hd eq_refl)
                Hmoves Hne) as (m & Hm & Hin).
    exists (Some m). split; [reflexivity|]. split; [exact Hm|].
    split; [split; [discriminate | congruence]|].
    apply Hsound. now intros m' [= <-].
Qed.

Lemma getBestMove_legal_witness :
  exists moves r,
    getValidMoves start8 (-1) = Ok moves /\
    getBestMove (fun _ => 0%nat) (mkAI Minimax 3) start8 (-1) = Ok r /\
    (r = None <-> moves = []) /\
    (forall m, r = Some m ->
               m ∈ moves /\ isValidMove start8 m.1 m.2 (-1) = Ok true).
Proof.
  apply (getBestMove_legal (fun _ => 0%nat) (mkAI Minimax 3) start8 (-1)).
  - exact wf_start8.
  - reflexivity.
  - simpl. lia.
  - right. reflexivity.
  - intros _. simpl. lia.
  - intros n Hn. exact Hn.
Defined.

(** ** Boards in use *)

(** X11. A board built by the constructor and changed by any calls of
    [applyMove] and [switchPlayer] keeps the shape the constructor gave it:
    [size] rows of [size] cells with [size] even and at least 2; its
    [currentPlayer] is 1 or -1; and [clone()] returns an equal board. *)
Theorem reachable_invariant (b : ReversiBoard) :
  reachable b ->
  wf b /\ Z.even (size b) = true /\ 2 <= size b /\
  (currentPlayer b = 1 \/ currentPlayer b = -1) /\
  clone b = Ok b.
Proof.
  intros Hreach.
  assert (Hplayer : currentPlayer b = 1 \/ currentPlayer b = -1).
  { induction Hreach as [sz b Hnew | b b' x y player r _ IH Happ | b _ IH].
    - apply constructor_inv in Hnew as (_ & _ & _ & _ & _ & _ & _ & _ & _ & _ & ->).
      now left.
    - destruct r.
      + apply applyMove_frame in Happ as (_ & -> & _). lia.
      + apply applyMove_rejected in Happ as ->. exact IH.
    - cbn [switchPlayer currentPlayer]. lia. }
  destruct (reachable_wf b Hreach) as (Hwf & Heven & Hsz).
  split; [exact Hwf|]. split; [exact Heven|]. split; [exact Hsz|].
  split; [exact Hplayer|]. now apply clone_returns.
Qed.

Lemma reachable_invariant_witness :
  wf start8 /\ Z.even (size start8) = true /\ 2 <= size start8 /\
  (currentPlayer start8 = 1 \/ currentPlayer start8 = -1) /\
  clone start8 = Ok start8.
Proof.
  apply (reachable_invariant start8). apply (reach_new 8). vm_compute. reflexivity.
Defined.

(** X12. On a well-formed board [applyMove(x, y, player)] with [y] a row of
    the grid returns, for every [x] and every player: the board keeps its
    shape, a rejected move leaves the board as it was, and an [x] outside the
    grid is rejected. With [y] not a row of the grid the call throws a
    TypeError. *)
Theorem applyMove_defined (b : ReversiBoard) (x y player : Z) :
  wf b ->
  (0 <= y < size b ->
   exists b' r, applyMove b x y player = Ok (b', r) /\
                wf b' /\ size b' = size b /\
                (r = false -> b' = b) /\
                (~ 0 <= x < size b -> r = false)) /\
  (~ 0 <= y < size b -> applyMove b x y player = Err TypeError).
Proof.
  intros Hwf. split.
  - intros Hy. destruct (decide (0 <= x < size b)) as [Hx|Hx].
    + destruct (isValidMove_total b x y player Hwf) as [[|] Hv];
        [apply inBounds_true; lia | |].
      * destruct (applyMove_returns _ _ _ _ Hwf Hv) as (b' & Happ & Hwf' & Hsz').
        exists b', true. split; [exact Happ|]. split; [exact Hwf'|].
        split; [exact Hsz'|]. split; [discriminate | tauto].
      * exists b, false. unfold applyMove. rewrite Hv. cbn [bind negb].
        split; [reflexivity|]. split; [exact Hwf|]. now repeat split.
    + exists b, false. unfold applyMove.
      rewrite isValidMove_column_outside by assumption. cbn [bind negb].
      split; [reflexivity|]. split; [exact Hwf|]. now repeat split.
  - intros Hy. unfold applyMove. rewrite isValidMove_row_outside by assumption.
    reflexivity.
Qed.

Lemma applyMove_defined_witness :
  (0 <= 2 < size start8 ->
   exists b' r, applyMove start8 3 2 1 = Ok (b', r) /\
                wf b' /\ size b' = size start8 /\
                (r = false -> b' = start8) /\
                (~ 0 <= 3 < size start8 -> r = false)) /\
  (~ 0 <= 2 < size start8 -> applyMove start8 3 2 1 = Err TypeError).
Proof. apply (applyMove_defined start8 3 2 1). exact wf_start8. Defined.

(** * Properties of the page *)

(** ** What [renderBoard] writes *)

Lemma cellsRowMajor_inBounds (b : ReversiBoard) (c : Z * Z) :
  c ∈ cellsRowMajor b -> inBounds b c.1 c.2 = true.
Proof.
  unfold cellsRowMajor. rewrite list_elem_of_In, in_flat_map.
  intros (y & Hy & Hc). apply in_map_iff in Hc as (x & <- & Hx).
  apply list_elem_of_In, elem_of_seqZ in Hy, Hx. cbn [fst snd].
  apply inBounds_true. lia.
Qed.

(** The loop body on a cell of the grid. *)
Lemma renderCell_returns (b : ReversiBoard) (x y : Z) :
  wf b -> inBounds b x y = true ->
  exists z r,
    getCell (board b) x y = Ok (Num z) /\
    isValidMove b x y (currentPlayer b) = Ok r /\
    renderCell b x y
    = Ok {| data_x := x; data_y := y; classList := classesOf z r |}.
Proof.
  intros Hwf Hin. destruct (wf_getCell b x y Hwf Hin) as [z Hz].
  destruct (isValidMove_total b x y (currentPlayer b) Hwf Hin) as [r Hr].
  exists z, r. split; [exact Hz|]. split; [exact Hr|].
  unfold renderCell, classesOf. rewrite Hz, Hr. cbn [bind strictEq].
  destruct (z =? 1), (z =? -1), r; reflexivity.
Qed.

Lemma cellOf_spec (b : ReversiBoard) (c : Z * Z) :
  wf b -> inBounds b c.1 c.2 = true ->
  exists z r,
    getCell (board b) c.1 c.2 = Ok (Num z) /\
    isValidMove b c.1 c.2 (currentPlayer b) = Ok r /\
    renderCell b c.1 c.2 = Ok (cellOf b c) /\
    cellOf b c = {| data_x := c.1; data_y := c.2; classList := classesOf z r |}.
Proof.
  intros Hwf Hin.
  destruct (renderCell_returns b c.1 c.2 Hwf Hin) as (z & r & Hz & Hr & Hcell).
  exists z, r. unfold cellOf. rewrite Hcell. now repeat split.
Qed.

Lemma renderBoard_row (b : ReversiBoard) (y : Z) (xs : list Z) :
  wf b -> (forall x, x ∈ xs -> inBounds b x y = true) ->
  forall cells,
    foldM (fun cells x => cell <- renderCell b x y ;; Ok (cells ++ [cell]))
          xs cells
    = Ok (cells ++ List.map (cellOf b) (List.map (fun x => (x, y)) xs)).
Proof.
  intros Hwf. induction xs as [|x xs IH]; intros Hin cells; cbn [foldM].
  - simpl. now rewrite app_nil_r.
  - destruct (cellOf_spec b (x, y) Hwf) as (_ & _ & _ & _ & Hcell & _);
      [apply Hin; left|].
    cbn [fst snd] in Hcell. rewrite Hcell. cbn [bind].
    rewrite IH by (intros x' Hx'; apply Hin; now right).
    cbn [List.map]. now rewrite <- app_assoc.
Qed.

Lemma renderBoard_rows (b : ReversiBoard) (ys : list Z) :
  wf b -> (forall y, y ∈ ys -> 0 <= y < size b) ->
  forall cells,
    foldM (fun cells y =>
        foldM (fun cells x => cell <- renderCell b x y ;; Ok (cells ++ [cell]))
              (seqZ 0 (size b)) cells) ys cells
    = Ok (cells ++ List.map (cellOf b)
            (flat_map (fun y => List.map (fun x => (x, y)) (seqZ 0 (size b))) ys)).
Proof.
  intros Hwf. induction ys as [|y ys IH]; intros Hin cells; cbn [foldM].
  - simpl. now rewrite app_nil_r.
  - rewrite renderBoard_row; [|exact Hwf|].
    + cbn [bind]. rewrite IH by (intros y' Hy'; apply Hin; now right).
      cbn [flat_map]. rewrite List.map_app, <- app_assoc. reflexivity.
    + intros x Hx. apply elem_of_seqZ in Hx. apply inBounds_true.
      specialize (Hin y (list_elem_of_here _ _)). lia.
Qed.

Lemma updateStatus_returns (b : ReversiBoard) :
  wf b ->
  exists st, updateStatus b = Ok st /\
             (st_black st, st_white st) = countStones b.
Proof.
  intros Hwf. unfold updateStatus. destruct (countStones b) as [black white].
  destruct (isGameOver_returns b Hwf) as [over ->]. cbn [bind].
  eexists. split; reflexivity.
Qed.

(** [renderBoard] returns on a well-formed board. *)
Lemma renderBoard_returns (b : ReversiBoard) :
  wf b ->
  exists st,
    updateStatus b = Ok st /\
    renderBoard b
    = Ok {| pg_board := b;
            pg_cells := List.map (cellOf b) (cellsRowMajor b);
            pg_status := st |}.
Proof.
  intros Hwf. destruct (updateStatus_returns b Hwf) as (st & Hst & _).
  exists st. split; [exact Hst|]. unfold renderBoard.
  rewrite renderBoard_rows; [|exact Hwf|].
  - cbn [bind app]. rewrite Hst. reflexivity.
  - intros y Hy. apply elem_of_seqZ in Hy. lia.
Qed.

Lemma shows_cells (pg : page) :
  wf (pg_board pg) -> shows pg ->
  pg_cells pg = List.map (cellOf (pg_board pg)) (cellsRowMajor (pg_board pg)).
Proof.
  intros Hwf Hshows. unfold shows in Hshows.
  destruct (renderBoard_returns _ Hwf) as (st & _ & Hpg).
  rewrite Hpg in Hshows. injection Hshows as <-. reflexivity.
Qed.

Lemma renderBoard_board (b : ReversiBoard) (pg : page) :
  renderBoard b = Ok pg -> pg_board pg = b.
Proof.
  unfold renderBoard. intros H. bind_inv H. bind_inv H. injection H as <-.
  reflexivity.
Qed.

Lemma contains_classesOf (z : Z) (r : bool) :
  contains (classesOf z r) ClassCell = true /\
  contains (classesOf z r) ClassBlack = (z =? 1) /\
  contains (classesOf z r) ClassWhite = (z =? -1) /\
  contains (classesOf z r) ClassValid = r.
Proof.
  unfold classesOf. destruct (Z.eqb_spec z 1) as [->|H1].
  - destruct r; repeat split.
  - destruct (z =? -1), r; repeat split.
Qed.

Lemma highlighted_cells (b : ReversiBoard) (cells : list (Z * Z)) :
  wf b -> (forall c, c ∈ cells -> inBounds b c.1 c.2 = true) ->
  List.map coordinates (List.map (cellOf b) cells) = cells /\
  List.map coordinates
    (List.filter (fun cell => contains (classList cell) ClassValid)
       (List.map (cellOf b) cells))
  = List.filter (legal b (currentPlayer b)) cells.
Proof.
  intros Hwf. induction cells as [|c cells IH]; intros Hin; [now split|].
  destruct IH as [IH1 IH2]; [intros c' Hc'; apply Hin; now right|].
  destruct (cellOf_spec b c Hwf) as (z & r & _ & Hr & _ & Hcell);
    [apply Hin; left|].
  assert (Hlegal : legal b (currentPlayer b) c = r).
  { unfold legal. rewrite Hr. now destruct r. }
  assert (Hc : coordinates (cellOf b c) = c).
  { rewrite Hcell. unfold coordinates. cbn [data_x data_y]. now destruct c. }
  cbn [List.map List.filter]. rewrite Hlegal.
  replace (contains (classList (cellOf b c)) ClassValid) with r
    by (rewrite Hcell; cbn [classList];
        now destruct (contains_classesOf z r) as (_ & _ & _ & ->)).
  split; [now rewrite Hc, IH1|].
  destruct r; cbn [List.map]; [rewrite Hc|]; now rewrite IH2.
Qed.

(** X13. On a well-formed board [renderBoard()] returns. The document then
    holds one cell for each cell of the grid, in row-major order, with the
    class "cell"; a cell has the class "black" exactly when the grid holds 1
    there and "white" exactly when it holds -1; the cells with the class
    "valid" are, in their order, the list [getValidMoves] returns for
    [currentPlayer]; and the status line prints the numbers of
    [countStones()]. *)
Theorem renderBoard_shows_board (b : ReversiBoard) :
  wf b ->
  exists pg,
    renderBoard b = Ok pg /\ pg_board pg = b /\
    List.map coordinates (pg_cells pg) = cellsRowMajor b /\
    getValidMoves b (currentPlayer b) = Ok (highlighted pg) /\
    (st_black (pg_status pg), st_white (pg_status pg)) = countStones b /\
    forall cell, cell ∈ pg_cells pg ->
      contains (classList cell) ClassCell = true /\
      (contains (classList cell) ClassBlack = true <->
       getCell (board b) (data_x cell) (data_y cell) = Ok (Num 1)) /\
      (contains (classList cell) ClassWhite = true <->
       getCell (board b) (data_x cell) (data_y cell) = Ok (Num (-1))).
Proof.
  intros Hwf. destruct (updateStatus_returns b Hwf) as (st & Hst & Hcounts).
  destruct (renderBoard_returns b Hwf) as (st' & Hst' & Hpg).
  rewrite Hst in Hst'. injection Hst' as <-.
  destruct (highlighted_cells b (cellsRowMajor b) Hwf
              (cellsRowMajor_inBounds b)) as [Hcoords Hvalid].
  eexists. split; [exact Hpg|]. cbn [pg_board pg_cells pg_status].
  split; [reflexivity|]. split; [exact Hcoords|].
  split; [unfold highlighted; cbn [pg_cells]; rewrite Hvalid;
          now apply getValidMoves_filter|].
  split; [exact Hcounts|].
  intros cell Hcell. apply list_elem_of_In, in_map_iff in Hcell as (c & <- & Hc).
  apply list_elem_of_In, cellsRowMajor_inBounds in Hc.
  destruct (cellOf_spec b c Hwf Hc) as (z & r & Hz & _ & _ & ->).
  cbn [classList data_x data_y]. rewrite Hz.
  destruct (contains_classesOf z r) as (-> & -> & -> & _).
  split; [reflexivity|]. rewrite !Z.eqb_eq.
  split; (split; [now intros -> | now intros [= ->]]).
Qed.

Lemma renderBoard_shows_board_witness :
  exists pg,
    renderBoard start8 = Ok pg /\ pg_board pg = start8 /\
    List.map coordinates (pg_cells pg) = cellsRowMajor start8 /\
    getValidMoves start8 (currentPlayer start8) = Ok (highlighted pg) /\
    (st_black (pg_status pg), st_white (pg_status pg)) = countStones start8 /\
    forall cell, cell ∈ pg_cells pg ->
      contains (classList cell) ClassCell = true /\
      (contains (classList cell) ClassBlack = true <->
       getCell (board start8) (data_x cell) (data_y cell) = Ok (Num 1)) /\
      (contains (classList cell) ClassWhite = true <->
       getCell (board start8) (data_x cell) (data_y cell) = Ok (Num (-1))).
Proof. apply (renderBoard_shows_board start8). exact wf_start8. Defined.

(** ** The two players *)

Lemma humanClick_cases (pg : page) (x y : Z) :
  wf (pg_board pg) -> inBounds (pg_board pg) x y = true ->
  (humanClick pg x y = Ok (pg, false) /\
   (currentPlayer (pg_board pg) <> humanPlayer \/
    isValidMove (pg_board pg) x y humanPlayer = Ok false)) \/
  (currentPlayer (pg_board pg) = humanPlayer /\
   exists b' pg' over,
     isValidMove (pg_board pg) x y humanPlayer = Ok true /\
     applyMove (pg_board pg) x y humanPlayer = Ok (b', true) /\
     wf b' /\ size b' = size (pg_board pg) /\ currentPlayer b' = aiPlayer /\
     renderBoard b' = Ok pg' /\ pg_board pg' = b' /\
     isGameOver b' = Ok over /\
     humanClick pg x y = Ok (pg', negb over)).
Proof.
  intros Hwf Hin. unfold humanClick.
  destruct (Z.eqb_spec (currentPlayer (pg_board pg)) humanPlayer) as [Hturn|Hturn];
    cbn [negb]; [|left; split; [reflexivity | now left]].
  destruct (isValidMove_total _ x y humanPlayer Hwf Hin) as [[|] Hv];
    rewrite Hv; cbn [bind negb]; [|left; split; [reflexivity | now right]].
  right. split; [exact Hturn|].
  destruct (applyMove_returns _ _ _ _ Hwf Hv) as (b' & Happ & Hwf' & Hsz').
  destruct (renderBoard_returns b' Hwf') as (st & _ & Hpg).
  destruct (isGameOver_returns b' Hwf') as [over Hover].
  exists b', (mkPage b' (List.map (cellOf b') (cellsRowMajor b')) st), over.
  split; [reflexivity|]. split; [exact Happ|]. split; [exact Hwf'|].
  split; [exact Hsz'|].
  split; [apply applyMove_frame in Happ as (_ & -> & _); rewrite Hturn; reflexivity|].
  split; [exact Hpg|]. split; [reflexivity|]. split; [exact Hover|].
  rewrite Happ. cbn [bind fst]. rewrite Hpg. cbn [bind]. rewrite Hover.
  cbn [bind]. now destruct over.
Qed.

(** X14. On a page with a well-formed board, [humanClick(x, y)] on a cell
    of the grid returns. Out of the human's turn, or on a cell that is not a
    legal move of the human, the page stays as it is and no timer is set.
    Otherwise the move is played, it is the turn of the AI, the document
    shows the new board, and [aiTurn] is handed to [setTimeout] exactly when
    the game is not over. *)
Theorem humanClick_plays_or_ignores (pg : page) (x y : Z) :
  wf (pg_board pg) -> inBounds (pg_board pg) x y = true ->
  (humanClick pg x y = Ok (pg, false) /\
   (currentPlayer (pg_board pg) <> humanPlayer \/
    isValidMove (pg_board pg) x y humanPlayer = Ok false)) \/
  (currentPlayer (pg_board pg) = humanPlayer /\
   exists b' pg' over,
     isValidMove (pg_board pg) x y humanPlayer = Ok true /\
     applyMove (pg_board pg) x y humanPlayer = Ok (b', true) /\
     wf b' /\ size b' = size (pg_board pg) /\ currentPlayer b' = aiPlayer /\
     renderBoard b' = Ok pg' /\ pg_board pg' = b' /\
     isGameOver b' = Ok over /\
     humanClick pg x y = Ok (pg', negb over)).
Proof. apply humanClick_cases. Qed.

Lemma humanClick_plays_or_ignores_witness :
  (humanClick (pageOf start8) 3 2 = Ok (pageOf start8, false) /\
   (currentPlayer (pg_board (pageOf start8)) <> humanPlayer \/
    isValidMove (pg_board (pageOf start8)) 3 2 humanPlayer = Ok false)) \/
  (currentPlayer (pg_board (pageOf start8)) = humanPlayer /\
   exists b' pg' over,
     isValidMove (pg_board (pageOf start8)) 3 2 humanPlayer = Ok true /\
     applyMove (pg_board (pageOf start8)) 3 2 humanPlayer = Ok (b', true) /\
     wf b' /\ size b' = size (pg_board (pageOf start8)) /\
     currentPlayer b' = aiPlayer /\
     renderBoard b' = Ok pg' /\ pg_board pg' = b' /\
     isGameOver b' = Ok over /\
     humanClick (pageOf start8) 3 2 = Ok (pg', negb over)).
Proof.
  apply (humanClick_plays_or_ignores (pageOf start8) 3 2).
  - vm_compute. split; [reflexivity|]. repeat constructor.
  - vm_compute. reflexivity.
Defined.

Lemma wf_switchPlayer (b : ReversiBoard) : wf b -> wf (switchPlayer b).
Proof. intros Hwf. exact Hwf. Qed.

Lemma aiTurn_cases (randomIndex : nat -> nat) (pg : page) :
  wf (pg_board pg) -> Z.even (size (pg_board pg)) = true ->
  2 <= size (pg_board pg) ->
  currentPlayer (pg_board pg) = aiPlayer ->
  isGameOver (pg_board pg) = Ok false ->
  exists b' pg',
    aiTurn randomIndex pg = Ok pg' /\
    renderBoard b' = Ok pg' /\ pg_board pg' = b' /\
    wf b' /\ size b' = size (pg_board pg) /\ currentPlayer b' = humanPlayer /\
    ((getValidMoves (pg_board pg) aiPlayer = Ok [] /\
      b' = switchPlayer (pg_board pg)) \/
     (exists x y,
        isValidMove (pg_board pg) x y aiPlayer = Ok true /\
        applyMove (pg_board pg) x y aiPlayer = Ok (b', true))).
Proof.
  intros Hwf Heven Hsz Hturn Hover. unfold aiTurn. rewrite Hturn, Hover.
  cbn [bind negb]. rewrite Z.eqb_refl. cbn [negb].
  destruct (getValidMoves_returns (pg_board pg) aiPlayer Hwf ltac:(discriminate))
    as [moves Hmoves].
  unfold getBestMove. rewrite Hmoves. cbn [bind].
  destruct moves as [|m0 rest] eqn:Hlist.
  - cbn [length Nat.eqb bind].
    destruct (renderBoard_returns (switchPlayer (pg_board pg))
                (wf_switchPlayer _ Hwf)) as (st & _ & Hpg).
    eexists _, _. split; [exact Hpg|]. split; [exact Hpg|].
    split; [reflexivity|]. split; [exact (wf_switchPlayer _ Hwf)|].
    split; [reflexivity|].
    split; [cbn [switchPlayer currentPlayer]; rewrite Hturn; reflexivity|].
    left. now split.
  - rewrite <- Hlist in *.
    replace (length moves =? 0)%nat with false by (rewrite Hlist; reflexivity).
    cbn [ai strategy].
    destruct (chooseMinimax_member ai (pg_board pg) aiPlayer moves Hwf Heven Hsz
                ltac:(now right) ltac:(cbn; lia) Hmoves
                ltac:(rewrite Hlist; discriminate)) as ([x y] & Hm & Hin).
    rewrite Hm. cbn [bind].
    destruct (getValidMoves_sound _ _ _ Hmoves _ Hin) as [_ Hv].
    cbn [fst snd] in Hv.
    destruct (applyMove_returns _ _ _ _ Hwf Hv) as (b' & Happ & Hwf' & Hsz').
    rewrite Happ. cbn [bind fst].
    destruct (renderBoard_returns b' Hwf') as (st & _ & Hpg).
    eexists _, _. split; [exact Hpg|]. split; [exact Hpg|].
    split; [reflexivity|]. split; [exact Hwf'|]. split; [exact Hsz'|].
    split; [apply applyMove_frame in Happ as (_ & -> & _); rewrite Hturn;
            reflexivity|].
    right. now exists x, y.
Qed.

(** X15. [aiTurn()] on a well-formed board of even size, with the AI to
    move in a game that is not over, returns, and hands the turn to the
    human: either the AI has no legal move and the board is only passed on,
    or one legal move of the AI has been played. The document then shows the
    new board. *)
Theorem aiTurn_hands_over (randomIndex : nat -> nat) (pg : page) :
  wf (pg_board pg) -> Z.even (size (pg_board pg)) = true ->
  2 <= size (pg_board pg) ->
  currentPlayer (pg_board pg) = aiPlayer ->
  isGameOver (pg_board pg) = Ok false ->
  exists b' pg',
    aiTurn randomIndex pg = Ok pg' /\
    renderBoard b' = Ok pg' /\ pg_board pg' = b' /\
    wf b' /\ size b' = size (pg_board pg) /\ currentPlayer b' = humanPlayer /\
    ((getValidMoves (pg_board pg) aiPlayer = Ok [] /\
      b' = switchPlayer (pg_board pg)) \/
     (exists x y,
        isValidMove (pg_board pg) x y aiPlayer = Ok true /\
        applyMove (pg_board pg) x y aiPlayer = Ok (b', true))).
Proof. apply aiTurn_cases. Qed.

Lemma aiTurn_hands_over_witness :
  exists b' pg',
    aiTurn (fun _ => 0%nat) (pageOf whitePasses) = Ok pg' /\
    renderBoard b' = Ok pg' /\ pg_board pg' = b' /\
    wf b' /\ size b' = size (pg_board (pageOf whitePasses)) /\
    currentPlayer b' = humanPlayer /\
    ((getValidMoves (pg_board (pageOf whitePasses)) aiPlayer = Ok [] /\
      b' = switchPlayer (pg_board (pageOf whitePasses))) \/
     (exists x y,
        isValidMove (pg_board (pageOf whitePasses)) x y aiPlayer = Ok true /\
        applyMove (pg_board (pageOf whitePasses)) x y aiPlayer = Ok (b', true))).
Proof.
  apply (aiTurn_hands_over (fun _ => 0%nat) (pageOf whitePasses)).
  - vm_compute. split; [reflexivity|]. repeat constructor.
  - vm_compute. reflexivity.
  - vm_compute. discriminate.
  - vm_compute. reflexivity.
  - vm_compute. reflexivity.
Defined.

(** ** Sessions *)

(** A child of the board element of a page that shows its board is the cell
    of a cell of the grid. *)
Lemma shows_target (pg : page) (target : nat) (cell : cellView) :
  wf (pg_board pg) -> shows pg -> pg_cells pg !! target = Some cell ->
  contains (classList cell) ClassCell = true /\
  inBounds (pg_board pg) (data_x cell) (data_y cell) = true.
Proof.
  intros Hwf Hshows Hcell. rewrite (shows_cells pg Hwf Hshows) in Hcell.
  apply list_elem_of_lookup_2, list_elem_of_In, in_map_iff in Hcell
    as (c & <- & Hc).
  apply list_elem_of_In, cellsRowMajor_inBounds in Hc.
  destruct (cellOf_spec _ c Hwf Hc) as (z & r & _ & _ & _ & ->).
  cbn [classList data_x data_y]. split; [|exact Hc].
  now destruct (contains_classesOf z r) as (-> & _).
Qed.

Lemma players_differ : humanPlayer <> aiPlayer.
Proof. discriminate. Qed.

Lemma handle_inPlay (randomIndex : nat -> nat) (s : session) (e : event) :
  inPlay s -> exists s', handle randomIndex s e = Ok s' /\ inPlay s'.
Proof.
  destruct s as [pg timers]. unfold inPlay. cbn [ses_page ses_timers].
  intros (Hsz & Hwf & Hturn & Hshows & Htimer).
  assert (Hsame : forall n : nat,
            (currentPlayer (pg_board pg) = aiPlayer ->
             isGameOver (pg_board pg) = Ok false -> (0 < n)%nat) ->
            exists s', Ok (mkSession pg n) = Ok s' /\
              (size (pg_board (ses_page s')) = 8 /\
               wf (pg_board (ses_page s')) /\
               (currentPlayer (pg_board (ses_page s')) = humanPlayer \/
                currentPlayer (pg_board (ses_page s')) = aiPlayer) /\
               shows (ses_page s') /\
               (currentPlayer (pg_board (ses_page s')) = aiPlayer ->
                isGameOver (pg_board (ses_page s')) = Ok false ->
                (0 < ses_timers s')%nat))).
  { intros n Hn. eexists. split; [reflexivity|]. cbn [ses_page ses_timers].
    repeat (split; [assumption|]). exact Hn. }
  destruct e as [target| |]; cbn [handle ses_page ses_timers].
  - unfold boardClick. destruct (pg_cells pg !! target) as [cell|] eqn:Hcell;
      [|cbn [bind fst snd]; now apply Hsame].
    destruct (shows_target pg target cell Hwf Hshows Hcell) as [Hclass Hin].
    rewrite Hclass. cbn [negb].
    destruct (humanClick_cases pg (data_x cell) (data_y cell) Hwf Hin)
      as [[-> _] | (_ & b' & pg' & over & _ & _ & Hwf' & Hsz' & Hturn' & Hpg'
                      & Hboard & Hover & ->)].
    + cbn [bind fst snd]. now apply Hsame.
    + cbn [bind fst snd]. eexists. split; [reflexivity|].
      cbn [ses_page ses_timers]. rewrite Hboard.
      split; [congruence|]. split; [exact Hwf'|]. split; [now right|].
      split; [unfold shows; now rewrite Hboard|].
      intros _ Hnot. rewrite Hover in Hnot. injection Hnot as ->. cbn [negb]. lia.
  - unfold resetClick. rewrite constructor_8. cbn [bind].
    change {| size := size start8; board := board start8;
              currentPlayer := humanPlayer |} with start8.
    destruct (renderBoard_returns start8 wf_start8) as (st & _ & Hpg).
    rewrite Hpg. cbn [bind]. eexists. split; [reflexivity|].
    cbn [ses_page ses_timers pg_board].
    split; [reflexivity|]. split; [exact wf_start8|]. split; [now left|].
    split; [exact Hpg|]. intros Hai. discriminate Hai.
  - destruct timers as [|n]; [now apply Hsame|].
    unfold aiTurn.
    destruct (Z.eqb_spec (currentPlayer (pg_board pg)) aiPlayer) as [Hai|Hai];
      cbn [negb bind]; [|apply Hsame; intros Hai'; contradiction].
    destruct (isGameOver_returns _ Hwf) as [[|] Hover]; rewrite Hover;
      cbn [bind]; [apply Hsame; intros _ Hnot; congruence|].
    destruct (aiTurn_cases randomIndex pg Hwf ltac:(now rewrite Hsz)
                ltac:(lia) Hai Hover)
      as (b' & pg' & Hturn' & Hpg' & Hboard & Hwf' & Hsz' & Hhuman & _).
    unfold aiTurn in Hturn'. rewrite Hai, Hover in Hturn'.
    cbn [negb bind] in Hturn'. rewrite Z.eqb_refl in Hturn'.
    cbn [negb] in Hturn'. rewrite Hturn'. cbn [bind].
    eexists. split; [reflexivity|]. cbn [ses_page ses_timers]. rewrite Hboard.
    split; [congruence|]. split; [exact Hwf'|]. split; [now left|].
    split; [unfold shows; now rewrite Hboard|].
    intros Hai'. rewrite Hhuman in Hai'. discriminate Hai'.
Qed.

(** X16. Whatever clicks and timers follow the loading of the page, no
    handler throws, and after each of them: the board is an 8 by 8 grid, it
    is the turn of the human or of the AI, the document shows the board as
    [renderBoard] writes it, and while it is the turn of the AI in a game
    that is not over a timer for [aiTurn] is set. *)
Theorem session_stays_in_play (randomIndex : nat -> nat) (events : list event) :
  exists s, runSession randomIndex events = Ok s /\ inPlay s.
Proof.
  unfold runSession, loadPage. rewrite constructor_8. cbn [bind].
  destruct (renderBoard_returns start8 wf_start8) as (st & _ & Hpg).
  rewrite Hpg. cbn [bind].
  apply (foldM_returns inPlay (handle randomIndex) events).
  - intros s e _ Hs. now apply handle_inPlay.
  - unfold inPlay. cbn [ses_page ses_timers pg_board].
    split; [reflexivity|]. split; [exact wf_start8|]. split; [now left|].
    split; [exact Hpg|]. intros Hai. discriminate Hai.
Qed.

Lemma filter_nil_inv {A : Type} (f : A -> bool) (l : list A) (a : A) :
  List.filter f l = [] -> a ∈ l -> f a = false.
Proof.
  intros Hnil Hin. destruct (f a) eqn:Hf; [|reflexivity].
  apply list_elem_of_In in Hin.
  pose proof (proj2 (filter_In f a l) (conj Hin Hf)) as H.
  rewrite Hnil in H. destruct H.
Qed.

(** X17. The page never passes for the human. When it is the turn of the
    human, who has no legal move, a click in the board and a timer that runs
    out leave the board and the document as they are, also when the AI has a
    legal move and the game is not over: only the reset button changes the
    page. *)
Theorem human_without_move_is_stuck (randomIndex : nat -> nat) (s : session)
    (e : event) :
  wf (pg_board (ses_page s)) -> shows (ses_page s) ->
  currentPlayer (pg_board (ses_page s)) = humanPlayer ->
  getValidMoves (pg_board (ses_page s)) humanPlayer = Ok [] ->
  e <> ResetButton ->
  exists n, handle randomIndex s e
            = Ok {| ses_page := ses_page s; ses_timers := n |}.
Proof.
  destruct s as [pg timers]. cbn [ses_page ses_timers].
  intros Hwf Hshows Hturn Hmoves He.
  destruct e as [target| |]; [| contradiction |]; cbn [handle ses_page ses_timers].
  - unfold boardClick. destruct (pg_cells pg !! target) as [cell|] eqn:Hcell;
      [|cbn [bind fst snd]; eauto].
    destruct (shows_target pg target cell Hwf Hshows Hcell) as [Hclass Hin].
    rewrite Hclass. cbn [negb]. unfold humanClick. rewrite Hturn, Z.eqb_refl.
    cbn [negb].
    destruct (isValidMove_total _ (data_x cell) (data_y cell) humanPlayer Hwf Hin)
      as [r Hr].
    assert (r = false) as ->.
    { rewrite getValidMoves_filter in Hmoves by exact Hwf.
      injection Hmoves as Hnil.
      pose proof (filter_nil_inv _ _ (data_x cell, data_y cell) Hnil) as Hf.
      unfold legal in Hf. cbn [fst snd] in Hf. rewrite Hr in Hf.
      destruct r; [|reflexivity]. apply Hf.
      rewrite (shows_cells pg Hwf Hshows) in Hcell.
      apply list_elem_of_lookup_2, list_elem_of_In, in_map_iff in Hcell
        as (c & <- & Hc).
      pose proof Hc as Hc'. apply list_elem_of_In, cellsRowMajor_inBounds in Hc'.
      destruct (cellOf_spec _ c Hwf Hc') as (z & v & _ & _ & _ & ->).
      cbn [data_x data_y]. rewrite <- surjective_pairing.
      now apply list_elem_of_In. }
    rewrite Hr. cbn [bind negb fst snd]. eauto.
  - destruct timers as [|n]; [eauto|]. unfold aiTurn. rewrite Hturn.
    cbn [negb bind]. eauto.
Qed.

Lemma human_without_move_is_stuck_witness :
  isGameOver blackStuck = Ok false /\
  exists n, handle (fun _ => 0%nat)
              {| ses_page := pageOf blackStuck; ses_timers := 1 |} (BoardClick 2)
            = Ok {| ses_page := pageOf blackStuck; ses_timers := n |}.
Proof.
  split; [vm_compute; reflexivity|].
  apply (human_without_move_is_stuck (fun _ => 0%nat)
           {| ses_page := pageOf blackStuck; ses_timers := 1 |} (BoardClick 2)).
  - vm_compute. split; [reflexivity|]. repeat constructor.
  - vm_compute. reflexivity.
  - vm_compute. reflexivity.
  - vm_compute. reflexivity.
  - discriminate.
Defined.

(** * The range of the scores *)

Lemma countGrid_bounds (b : ReversiBoard) :
  wf b ->
  0 <= countGrid 1 (board b) /\ 0 <= countGrid (-1) (board b) /\
  countGrid 1 (board b) + countGrid (-1) (board b) <= size b * size b.
Proof.
  intros [Hlen Hrows].
  split; [apply countGrid_nonneg|]. split; [apply countGrid_nonneg|].
  pose proof (countGrid_two 1 (-1) _ _ ltac:(lia) Hrows) as H.
  rewrite Hlen in H. destruct (Z_le_gt_dec 0 (size b)).
  - rewrite Z2Nat.id in H by lia. exact H.
  - replace (Z.to_nat (size b)) with 0%nat in H by lia. nia.
Qed.

Lemma stoneDiff_bounds (b : ReversiBoard) (player : Z) :
  wf b -> - (size b * size b) <= stoneDiff b player <= size b * size b.
Proof.
  intros Hwf. destruct (countGrid_bounds b Hwf) as (H1 & H2 & H3).
  unfold stoneDiff. rewrite countStones_countGrid.
  destruct (player =? 1); lia.
Qed.

(** Each corner moves the score by at most 5. *)
Lemma cornerScore_bounds (b : ReversiBoard) (player s : Z) :
  cornerScore b player = Ok s -> -20 <= s <= 20.
Proof.
  unfold cornerScore. intros H.
  assert (Hgen : forall (cs : list (Z * Z)) acc r,
    foldM (fun score '(x, y) =>
      v <- getCell (board b) x y ;;
      let score := if strictEq v player then score + 5 else score in
      v' <- getCell (board b) x y ;;
      let score := if strictEq v' (- player) then score - 5 else score in
      Ok score) cs acc = Ok r ->
    acc - 5 * Z.of_nat (length cs) <= r <= acc + 5 * Z.of_nat (length cs)).
  { induction cs as [|[x y] cs IH]; intros acc r Hr; cbn [foldM] in Hr.
    - injection Hr as <-. cbn [length]. lia.
    - bind_inv Hr. bind_inv Ha. rewrite Ha0 in Ha. cbn [bind] in Ha.
      injection Ha as <-. apply IH in Hr. cbn [length].
      destruct (strictEq a0 player), (strictEq a0 (- player)); lia. }
  apply Hgen in H. cbn [corners length] in H. lia.
Qed.

Lemma evaluate_within (b : ReversiBoard) (player : Z) :
  wf b -> 0 < size b ->
  exists v, evaluate b player = Ok v /\
            - (size b * size b + 20) <= v <= size b * size b + 20.
Proof.
  intros Hwf Hsz. destruct (cornerScore_returns b player Hwf Hsz) as [s Hs].
  pose proof (cornerScore_bounds _ _ _ Hs). pose proof (stoneDiff_bounds b player Hwf).
  unfold evaluate. rewrite Hs. cbn [bind]. eexists. split; [reflexivity|]. lia.
Qed.

Lemma gt_keep_within (bound : Z) (a best : number) :
  within bound a -> best = NegInfinity \/ within bound best ->
  within bound (if gt a best then a else best).
Proof.
  intros Ha [->|Hb].
  - destruct Ha as (z & -> & Hz). cbn [gt]. now exists z.
  - destruct (gt a best); assumption.
Qed.

Lemma lt_keep_within (bound : Z) (a best : number) :
  within bound a -> best = Infinity \/ within bound best ->
  within bound (if lt a best then a else best).
Proof.
  intros Ha [->|Hb].
  - destruct Ha as (z & -> & Hz). cbn [lt gt]. now exists z.
  - destruct (lt a best); assumption.
Qed.

Lemma minimax_within (n : nat) :
  forall b depth cur maxp,
    wf b -> Z.even (size b) = true -> 2 <= size b ->
    cur = 1 \/ cur = -1 -> 0 <= depth -> Z.to_nat depth = n ->
    exists v, minimax b depth cur maxp = Ok v /\
              within (size b * size b + 20) v.
Proof.
  induction n as [|n IH]; intros b depth cur maxp Hwf He Hs Hcur Hd Hn.
  - assert (depth = 0) as -> by lia. rewrite minimax_depth_0.
    destruct (evaluate_within b maxp Hwf) as (v & -> & Hv); [lia|].
    cbn [fmap_result]. eexists. split; [reflexivity|]. now exists v.
  - unfold minimax. rewrite Hn, minimax_fuel_S.
    destruct (Z.eqb_spec depth 0) as [->|Hne]; [discriminate|].
    destruct (isGameOver_returns b Hwf) as [over ->]. cbn [bind fmap_result].
    destruct over.
    { destruct (evaluate_within b maxp Hwf) as (v & -> & Hv); [lia|].
      cbn [fmap_result]. eexists. split; [reflexivity|]. now exists v. }
    destruct (getValidMoves_returns b cur Hwf) as [moves Hm]; [lia|].
    rewrite Hm. cbn [bind fmap_result].
    assert (Hrec : forall b' cur', wf b' -> size b' = size b ->
      cur' = 1 \/ cur' = -1 ->
      exists v, minimax_fuel (S n) b' (depth - 1) cur' maxp = Ok v /\
                within (size b * size b + 20) v).
    { intros b' cur' Hw' Hs' Hc'.
      rewrite minimax_fuel_enough by lia. rewrite <- Hs'.
      apply IH; try rewrite Hs'; auto; lia. }
    destruct moves as [|mv moves]; cbn [length Nat.eqb].
    { apply Hrec; auto. lia. }
    rewrite (clone_returns b He Hs). cbn [bind].
    assert (Hstep : forall x y, (x, y) ∈ mv :: moves ->
      exists r v, applyMove b x y cur = Ok r /\
        minimax_fuel (S n) r.1 (depth - 1) (- cur) maxp = Ok v /\
        within (size b * size b + 20) v).
    { intros x y Hin. apply (getValidMoves_sound _ _ _ Hm) in Hin as [_ Hv].
      destruct (applyMove_returns b x y cur Hwf Hv) as (b' & Ha & Hw' & Hs').
      destruct (Hrec b' (- cur) Hw' Hs') as (v & Hv' & Hin'); [lia|].
      exists (b', true), v. auto. }
    destruct mv as [x y]. cbn [foldM].
    destruct (Hstep x y) as (r & z & Hr & Hz & Hzin); [left|].
    rewrite Hr. cbn [bind]. rewrite Hz. cbn [bind].
    assert (Hrest : forall x' y', (x', y') ∈ moves ->
      exists r v, applyMove b x' y' cur = Ok r /\
        minimax_fuel (S n) r.1 (depth - 1) (- cur) maxp = Ok v /\
        within (size b * size b + 20) v).
    { intros x' y' Hin. apply Hstep. now right. }
    clear Hstep Hm Hr Hz.
    destruct (cur =? maxp).
    + match goal with |- context [foldM ?f moves ?start] =>
        destruct (foldM_returns (within (size b * size b + 20)) f moves)
          with (a := start) as (v & Hv & Hvin) end.
      * intros acc [x' y'] Hin Hacc.
        destruct (Hrest x' y' Hin) as (r' & z' & -> & Hz' & Hin').
        cbn [bind]. rewrite Hz'. cbn [bind].
        eexists. split; [reflexivity|].
        apply gt_keep_within; [exact Hin' | now right].
      * apply (gt_keep_within _ z NegInfinity); [exact Hzin | now left].
      * rewrite Hv. eauto.
    + match goal with |- context [foldM ?f moves ?start] =>
        destruct (foldM_returns (within (size b * size b + 20)) f moves)
          with (a := start) as (v & Hv & Hvin) end.
      * intros acc [x' y'] Hin Hacc.
        destruct (Hrest x' y' Hin) as (r' & z' & -> & Hz' & Hin').
        cbn [bind]. rewrite Hz'. cbn [bind].
        eexists. split; [reflexivity|].
        apply lt_keep_within; [exact Hin' | now right].
      * apply (lt_keep_within _ z Infinity); [exact Hzin | now left].
      * rewrite Hv. eauto.
Qed.

(** X18. On a well-formed board of even size, for a player 1 or -1 and a
    depth of 0 or more, [minimax] returns a finite number, never
    [-Infinity] or [Infinity], and the number is at most [size * size + 20]
    in absolute value: the stones of the grid and the four corners. *)
Theorem minimax_finite (b : ReversiBoard) (depth cur maxp : Z) :
  wf b -> Z.even (size b) = true -> 2 <= size b ->
  cur = 1 \/ cur = -1 -> 0 <= depth ->
  exists z, minimax b depth cur maxp = Ok (Finite z) /\
            - (size b * size b + 20) <= z <= size b * size b + 20.
Proof.
  intros Hwf He Hs Hcur Hd.
  destruct (minimax_within (Z.to_nat depth) b depth cur maxp Hwf He Hs Hcur Hd
              eq_refl) as (v & Hv & z & -> & Hz).
  now exists z.
Qed.

Lemma minimax_finite_witness :
  exists z, minimax start8 2 (-1) 1 = Ok (Finite z) /\
            - (size start8 * size start8 + 20) <= z
            <= size start8 * size start8 + 20.
Proof.
  apply (minimax_finite start8 2 (-1) 1).
  - exact wf_start8.
  - reflexivity.
  - simpl. lia.
  - right. reflexivity.
  - lia.
Defined.
